(** * Countdown events: recurrence and urgency tiers

    A shallow embedding of [backend/app/services/event_service.py]
    (class [EventService]) together with the parts of Python's [calendar],
    [datetime], [float] and [uuid], of [dateutil.relativedelta] and of
    pydantic's field validation that it calls, and the properties of the
    recurrence and tiering engine proved over it.  The
    second part adds the callers: the routes of [api/events.py] and
    [api/share.py] that store and list occurrences, the [event_date]
    validator of [schemas/event.py] and [Settings.cors_origins_list].

    Conventions.
    - Integers are [Z]; Python's [//] and [%] are [Z.div] and [Z.modulo]
      (both floor).
    - A [datetime] is the record of its fields.  Every datetime handled by
      the service is timezone-aware with a fixed offset: the column
      [Event.event_date] is [DateTime(timezone=True)], the request schemas
      attach UTC to naive values, and the clock is read with
      [datetime.now(timezone.utc)].  The offset is kept in microseconds.
    - A [float] is its mantissa and binary exponent; [int / int] rounds the
      exact quotient to 53 bits.
    - Library calls that can raise return a [result]; the [while] loops of
      [calculate_next_occurrence] take a fuel argument that bounds the
      number of iterations, and [None] stands for "fuel exhausted". *)

From Stdlib Require Import ZArith Bool List Ascii String Lia.
From Stdlib Require Import Sorting.Permutation Sorting.Sorted.
Import ListNotations.
Local Open Scope Z_scope.

(** ** Exceptions *)

Inductive exn : Type :=
| OverflowError   (* "date value out of range" *)
| ValueError      (* "year 10000 is out of range", "day is out of range for month" *)
| ValidationError. (* pydantic: a field value of the wrong type or shape *)

Inductive result (A : Type) : Type :=
| Ok (a : A)
| Raise (e : exn).
Arguments Ok {A} a.
Arguments Raise {A} e.

(** ** Python's [float], as far as [int / int] and [int(x)] go *)

Module Float.

(** A finite binary64 value: [mantissa * 2 ^ exponent], the mantissa of at
    most 53 bits (2^53 itself included, for a quotient rounded up to the
    next power of two). *)
Record float : Type := mk_float {
  mantissa : Z;
  exponent : Z
}.

(** The integer nearest to [n / d], ties to the even one, for [0 <= n] and
    [0 < d]. *)
Definition round_half_even (n d : Z) : Z :=
  let q := n / d in
  let r := n mod d in
  if 2 * r <? d then q
  else if d <? 2 * r then q + 1
  else if Z.even q then q else q + 1.

(** Numerator and denominator of [a / (d * 2 ^ e)]. *)
Definition scaled (a d e : Z) : Z * Z :=
  if 0 <=? e then (a, d * 2 ^ e) else (a * 2 ^ (- e), d).

(** The exponent [e] for which [2^52 <= a / (d * 2 ^ e) < 2^53]: the bit
    lengths give it up to one, the comparison settles it. *)
Definition normal_exponent (a d : Z) : Z :=
  let e0 := Z.log2 a - Z.log2 d - 52 in
  if fst (scaled a d e0) <? 2 ^ 52 * snd (scaled a d e0) then e0 - 1 else e0.

(** [n / d] on two ints with [0 < d] ([long_true_divide]): the quotient
    correctly rounded to 53 significant bits, round-half-to-even.  The
    operands of this program stay far from overflow and from the subnormal
    range. *)
Definition truediv (n d : Z) : float :=
  if n =? 0 then mk_float 0 0
  else
    let a := Z.abs n in
    let e := normal_exponent a d in
    mk_float (Z.sgn n * round_half_even (fst (scaled a d e)) (snd (scaled a d e))) e.

(** [int(x)]: truncation toward zero. *)
Definition to_int (x : float) : Z :=
  if 0 <=? exponent x then mantissa x * 2 ^ exponent x
  else Z.quot (mantissa x) (2 ^ (- exponent x)).

End Float.

(** ** Python's [calendar] and the date arithmetic of [datetime] *)

Module Calendar.

Definition MINYEAR : Z := 1.
Definition MAXYEAR : Z := 9999.

(** [calendar.isleap]: [year % 4 == 0 and (year % 100 != 0 or year % 400 == 0)]. *)
Definition isleap (year : Z) : bool :=
  (year mod 4 =? 0) && (negb (year mod 100 =? 0) || (year mod 400 =? 0)).

(** [calendar.mdays], indexed from January = 1. *)
Definition mdays (month : Z) : Z :=
  match month with
  | 1 => 31 | 2 => 28 | 3 => 31 | 4 => 30 | 5 => 31 | 6 => 30
  | 7 => 31 | 8 => 31 | 9 => 30 | 10 => 31 | 11 => 30 | 12 => 31
  | _ => 0
  end.

(** [calendar.monthrange(year, month)[1]]: the length of the month. *)
Definition monthrange_ndays (year month : Z) : Z :=
  mdays month + (if (month =? 2) && isleap year then 1 else 0).

(** [datetime._days_before_year]: days before January 1st of [year]. *)
Definition days_before_year (year : Z) : Z :=
  let y := year - 1 in
  y * 365 + y / 4 - y / 100 + y / 400.

(** [datetime._DAYS_BEFORE_MONTH]. *)
Definition DAYS_BEFORE_MONTH (month : Z) : Z :=
  match month with
  | 1 => 0 | 2 => 31 | 3 => 59 | 4 => 90 | 5 => 120 | 6 => 151
  | 7 => 181 | 8 => 212 | 9 => 243 | 10 => 273 | 11 => 304 | 12 => 334
  | _ => 0
  end.

(** [datetime._days_before_month]. *)
Definition days_before_month (year month : Z) : Z :=
  DAYS_BEFORE_MONTH month + (if (month >? 2) && isleap year then 1 else 0).

(** [datetime._ymd2ord]: the proleptic Gregorian ordinal, 0001-01-01 is day 1. *)
Definition ymd2ord (year month day : Z) : Z :=
  days_before_year year + days_before_month year month + day.

(** The range check of [date.__new__] / [date.replace]. *)
Definition check_date_fields (year month day : Z) : bool :=
  (MINYEAR <=? year) && (year <=? MAXYEAR) &&
  (1 <=? month) && (month <=? 12) &&
  (1 <=? day) && (day <=? monthrange_ndays year month).

(** The range check of [time.__new__]. *)
Definition check_time_fields (hour minute second microsecond : Z) : bool :=
  (0 <=? hour) && (hour <=? 23) &&
  (0 <=? minute) && (minute <=? 59) &&
  (0 <=? second) && (second <=? 59) &&
  (0 <=? microsecond) && (microsecond <=? 999999).

End Calendar.

(** ** [datetime.datetime], timezone-aware with a fixed offset *)

Module Datetime.
Import Calendar.

Record datetime : Type := mk_datetime {
  year : Z;
  month : Z;
  day : Z;
  hour : Z;
  minute : Z;
  second : Z;
  microsecond : Z;
  utcoffset : Z   (* tzinfo.utcoffset(), in microseconds *)
}.

Definition US_PER_SECOND : Z := 1000000.
Definition US_PER_DAY : Z := 86400 * US_PER_SECOND.

(** What the constructors accept: the field ranges, and an offset strictly
    between -24h and +24h as [datetime.timezone] requires. *)
Definition valid (d : datetime) : bool :=
  check_date_fields (year d) (month d) (day d) &&
  check_time_fields (hour d) (minute d) (second d) (microsecond d) &&
  (- US_PER_DAY <? utcoffset d) && (utcoffset d <? US_PER_DAY).

(** [date.toordinal]. *)
Definition toordinal (d : datetime) : Z := ymd2ord (year d) (month d) (day d).

(** Microseconds of wall-clock time since local midnight. *)
Definition time_of_day_us (d : datetime) : Z :=
  ((hour d * 60 + minute d) * 60 + second d) * US_PER_SECOND + microsecond d.

(** The instant denoted by an aware datetime, in microseconds of UTC counted
    from ordinal day 0: local time minus the offset.  Comparison and
    subtraction of aware datetimes go through this value. *)
Definition utc_us (d : datetime) : Z :=
  toordinal d * US_PER_DAY + time_of_day_us d - utcoffset d.

(** [a <= b] and [a > b] on aware datetimes. *)
Definition le (a b : datetime) : bool := utc_us a <=? utc_us b.
Definition gt (a b : datetime) : bool := utc_us b <? utc_us a.

(** [a - b] as a [timedelta], in microseconds. *)
Definition sub (a b : datetime) : Z := utc_us a - utc_us b.

(** [timedelta.total_seconds()]: the microseconds divided by [10**6], a
    float. *)
Definition total_seconds (delta : Z) : Float.float :=
  Float.truediv delta US_PER_SECOND.

(** [datetime(year, month, day, hour, minute, second, tzinfo=tz)]:
    the microsecond argument is left at its default 0. *)
Definition new (y m d hh mm ss : Z) (tz : Z) : result datetime :=
  if check_date_fields y m d && check_time_fields hh mm ss 0
  then Ok (mk_datetime y m d hh mm ss 0 tz)
  else Raise ValueError.

(** [dt.replace(year=y, month=m, day=d)]: every other field is kept. *)
Definition replace (dt : datetime) (y m d : Z) : result datetime :=
  if check_date_fields y m d
  then Ok (mk_datetime y m d (hour dt) (minute dt) (second dt)
                       (microsecond dt) (utcoffset dt))
  else Raise ValueError.

(** [dt + timedelta(days=1)]: the calendar successor; the time of day and
    the tzinfo are kept.  Past 9999-12-31 the addition raises
    [OverflowError]. *)
Definition add_one_day (dt : datetime) : result datetime :=
  let with_date y m d :=
    mk_datetime y m d (hour dt) (minute dt) (second dt)
                (microsecond dt) (utcoffset dt) in
  if day dt <? monthrange_ndays (year dt) (month dt)
  then Ok (with_date (year dt) (month dt) (day dt + 1))
  else if month dt <? 12
  then Ok (with_date (year dt) (month dt + 1) 1)
  else if year dt <? MAXYEAR
  then Ok (with_date (year dt + 1) 1 1)
  else Raise OverflowError.

(** [dt + timedelta(days=n)] for a whole number of days [n]. *)
Fixpoint add_days (n : nat) (dt : datetime) : result datetime :=
  match n with
  | O => Ok dt
  | S n' =>
      match add_one_day dt with
      | Ok dt' => add_days n' dt'
      | Raise e => Raise e
      end
  end.

(** [dt + relativedelta(years=years, months=months)], following
    [relativedelta.__add__]: the year and month are moved, the day is
    clamped to the length of the target month, and [dt.replace] builds the
    result (the trailing [timedelta(0)] adds nothing). *)
Definition add_relativedelta (years months : Z) (other : datetime)
  : result datetime :=
  let year0 := year other + years in
  let month0 := month other in
  let '(year1, month1) :=
    if months =? 0 then (year0, month0)
    else
      let month' := month0 + months in
      if month' >? 12 then (year0 + 1, month' - 12)
      else if month' <? 1 then (year0 - 1, month' + 12)
      else (year0, month') in
  let day1 := Z.min (monthrange_ndays year1 month1) (day other) in
  replace other year1 month1 day1.

End Datetime.

(** ** Python's [uuid.UUID] *)

Module Uuid.

(** The four variants, as [UUID.variant] tells them apart. *)
Inductive Variant : Type :=
  RESERVED_NCS | RFC_4122 | RESERVED_MICROSOFT | RESERVED_FUTURE.

(** [UUID.variant], on the 128-bit integer [UUID.int]: the tests
    [self.int & (0x8000 << 48)], [(0x4000 << 48)] and [(0x2000 << 48)]. *)
Definition variant (int : Z) : Variant :=
  if negb (Z.testbit int 63) then RESERVED_NCS
  else if negb (Z.testbit int 62) then RFC_4122
  else if negb (Z.testbit int 61) then RESERVED_MICROSOFT
  else RESERVED_FUTURE.

(** [UUID.version]: [(self.int >> 76) & 0xf] for an RFC 4122 UUID, [None]
    for the other variants. *)
Definition version (int : Z) : option Z :=
  match variant int with
  | RFC_4122 => Some (Z.land (Z.shiftr int 76) 15)
  | _ => None
  end.

End Uuid.

(** ** [app/models]: the stored records *)

Module Models.

(** [models/event.py], [class RepeatInterval(str, enum.Enum)]. *)
Inductive RepeatInterval : Type := NONE | DAY | WEEK | MONTH | YEAR.

Definition RepeatInterval_eqb (a b : RepeatInterval) : bool :=
  match a, b with
  | NONE, NONE | DAY, DAY | WEEK, WEEK | MONTH, MONTH | YEAR, YEAR => true
  | _, _ => false
  end.

(** [models/event.py], [class Event].  The service only copies [id] and
    [user_id]; they are kept as their text. *)
Record Event : Type := mk_Event {
  id : string;
  user_id : string;
  title : string;
  description : option string;
  event_date : Datetime.datetime;
  repeat_interval : RepeatInterval;
  next_occurrence : option Datetime.datetime;
  timezone : option string;
  created_at : Datetime.datetime;
  updated_at : Datetime.datetime
}.

(** [models/attachment.py], the columns [enrich_event] reads.  The primary
    key is a [uuid.UUID] ([UUID(as_uuid=True)]), kept as its [int]; [size],
    [width], [height] and [duration] are nullable integer columns. *)
Record Attachment : Type := mk_Attachment {
  att_id : Z;
  storage_key : string;
  mime : string;
  size : option Z;
  width : option Z;
  height : option Z;
  duration : option Z
}.

End Models.

(** ** [app/schemas/event.py] *)

Module Schemas.

(** [ColorBucket = Literal["RED", ..., "PURPLE"]]. *)
Inductive ColorBucket : Type :=
  RED | ORANGE | YELLOW | GREEN | CYAN | BLUE | PURPLE.

(** [class AttachmentResponse(BaseModel)]: [id: UUID4], [size: int], the
    last four fields [Optional]. *)
Record AttachmentResponse : Type := mk_AttachmentResponse {
  id : Z;
  name : string;
  mime : string;
  size : Z;
  url : string;
  thumb_url : option string;
  width : option Z;
  height : option Z;
  duration : option Z
}.

(** The [UUID4] field: a [uuid.UUID] passes when its [version] is 4. *)
Definition validate_UUID4 (v : Z) : result Z :=
  match Uuid.version v with
  | Some 4 => Ok v
  | _ => Raise ValidationError
  end.

(** The [int] field: [None] is not an integer. *)
Definition validate_int (v : option Z) : result Z :=
  match v with
  | Some n => Ok n
  | None => Raise ValidationError
  end.

(** [AttachmentResponse(id=..., name=..., ...)] as [enrich_event] calls it:
    [name], [mime] and [url] are given a [str] and the [Optional] fields an
    [int] or [None], which pass; [id] and [size] are validated, and a
    failure of either raises [ValidationError]. *)
Definition new_AttachmentResponse (id : Z) (name mime : string) (size : option Z)
           (url : string) (thumb_url : option string)
           (width height duration : option Z) : result AttachmentResponse :=
  match validate_UUID4 id, validate_int size with
  | Ok id', Ok size' =>
      Ok (mk_AttachmentResponse id' name mime size' url thumb_url width height duration)
  | _, _ => Raise ValidationError
  end.

End Schemas.

(** ** The ambient state read by the service *)

(** [settings.LEAP_POLICY] is a process-wide string; [utc_now] is what
    [datetime.now(timezone.utc)] returns when the call executes. *)
Record World : Type := mk_World {
  utc_now : Datetime.datetime;
  LEAP_POLICY : string
}.

(** [StorageService]: the one method [enrich_event] calls. *)
Record StorageService : Type := mk_StorageService {
  generate_signed_url : string -> string
}.

(** ** [app/services/event_service.py] *)

Module EventService.
Import Models Schemas.
Import Calendar.

(** The loop [while next_occ <= now: next_occ = body(next_occ)], run for at
    most [fuel] iterations.  [None]: the fuel ran out before the loop was
    left.  An exception raised by the body leaves the loop. *)
Fixpoint while_le (fuel : nat) (body : Datetime.datetime -> result Datetime.datetime)
         (now next_occ : Datetime.datetime) : option (result Datetime.datetime) :=
  if Datetime.le next_occ now then
    match fuel with
    | O => None
    | S fuel' =>
        match body next_occ with
        | Ok next_occ' => while_le fuel' body now next_occ'
        | Raise e => Some (Raise e)
        end
    end
  else Some (Ok next_occ).

(** The body of the [YEAR] loop (lines 58-70).  The Feb-29 test looks at
    the original [event_date]; the year is taken from the running
    [next_occ]. *)
Definition year_body (leap_policy : string) (event_date next_occ : Datetime.datetime)
  : result Datetime.datetime :=
  if (Datetime.month event_date =? 2) && (Datetime.day event_date =? 29) then
    let next_year := Datetime.year next_occ + 1 in
    if isleap next_year then
      Datetime.replace next_occ next_year (Datetime.month next_occ) (Datetime.day next_occ)
    else if String.eqb leap_policy "mar01" then
      Datetime.new next_year 3 1 (Datetime.hour next_occ) (Datetime.minute next_occ)
                   (Datetime.second next_occ) (Datetime.utcoffset next_occ)
    else
      Datetime.new next_year 2 28 (Datetime.hour next_occ) (Datetime.minute next_occ)
                   (Datetime.second next_occ) (Datetime.utcoffset next_occ)
  else Datetime.add_relativedelta 1 0 next_occ.

(** The step of each recurring rule, as the four loop bodies apply it.
    [NONE] has no loop and never reaches this function in the service; its
    case is only there to make the function total. *)
Definition rule_body (leap_policy : string) (event_date : Datetime.datetime)
           (repeat_interval : RepeatInterval)
  : Datetime.datetime -> result Datetime.datetime :=
  match repeat_interval with
  | DAY => Datetime.add_days 1
  | WEEK => Datetime.add_days 7
  | MONTH => Datetime.add_relativedelta 0 1
  | _ => year_body leap_policy event_date
  end.

Definition returning {A : Type} (r : option (result A)) : option (result (option A)) :=
  match r with
  | Some (Ok a) => Some (Ok (Some a))
  | Some (Raise e) => Some (Raise e)
  | None => None
  end.

(** [EventService.calculate_next_occurrence(event_date, repeat_interval)].
    The two explicit arguments are those of the source; the clock and the
    leap policy are read from the world. *)
Definition calculate_next_occurrence (fuel : nat) (w : World)
           (event_date : Datetime.datetime) (repeat_interval : RepeatInterval)
  : option (result (option Datetime.datetime)) :=
  if RepeatInterval_eqb repeat_interval NONE then Some (Ok None)
  else
    let now := utc_now w in
    if Datetime.gt event_date now then Some (Ok (Some event_date))
    else if RepeatInterval_eqb repeat_interval DAY then
      returning (while_le fuel (Datetime.add_days 1) now event_date)
    else if RepeatInterval_eqb repeat_interval WEEK then
      returning (while_le fuel (Datetime.add_days 7) now event_date)
    else if RepeatInterval_eqb repeat_interval MONTH then
      returning (while_le fuel (Datetime.add_relativedelta 0 1) now event_date)
    else if RepeatInterval_eqb repeat_interval YEAR then
      returning (while_le fuel (year_body (LEAP_POLICY w) event_date) now event_date)
    else Some (Ok None).

(** [EventService.calculate_remaining_seconds]: [int(delta.total_seconds())]. *)
Definition calculate_remaining_seconds (effective_due_at server_now : Datetime.datetime) : Z :=
  let delta := Datetime.sub effective_due_at server_now in
  Float.to_int (Datetime.total_seconds delta).

(** [EventService.get_color_bucket]. *)
Definition get_color_bucket (remaining_seconds : Z) : option ColorBucket :=
  if remaining_seconds <? 0 then None
  else if remaining_seconds <? 86400 then Some RED
  else if remaining_seconds <? 7 * 86400 then Some ORANGE
  else if remaining_seconds <? 30 * 86400 then Some YELLOW
  else if remaining_seconds <? 90 * 86400 then Some GREEN
  else if remaining_seconds <? 365 * 86400 then Some CYAN
  else if remaining_seconds <? 3 * 365 * 86400 then Some BLUE
  else Some PURPLE.

(** The dict returned by [enrich_event], one field per key. *)
Record Enriched : Type := mk_Enriched {
  id : string;
  user_id : string;
  title : string;
  description : option string;
  event_date : Datetime.datetime;
  repeat_interval : RepeatInterval;
  timezone : option string;
  next_occurrence : option Datetime.datetime;
  effective_due_at : Datetime.datetime;
  remaining_seconds : Z;
  color_bucket : option ColorBucket;
  is_overdue : bool;
  attachments : list AttachmentResponse;
  created_at : Datetime.datetime;
  updated_at : Datetime.datetime
}.

(** [storage_key.split('/')[-1]]. *)
Fixpoint last_segment (acc s : string) : string :=
  match s with
  | EmptyString => acc
  | String c s' =>
      if Ascii.eqb c "/"%char then last_segment EmptyString s'
      else last_segment (acc ++ String c EmptyString) s'
  end.

(** The body of the loop over the attachments (lines 187-200): the signed
    URL, then the response. *)
Definition attachment_response (storage : StorageService) (att : Attachment)
  : result AttachmentResponse :=
  let url := generate_signed_url storage (Models.storage_key att) in
  let thumb_url := None in
  new_AttachmentResponse
    (Models.att_id att)
    (last_segment EmptyString (Models.storage_key att))
    (Models.mime att)
    (Models.size att)
    url
    thumb_url
    (Models.width att)
    (Models.height att)
    (Models.duration att).

(** The loop [for att in attachments]: the responses are appended in order;
    the first one that fails validation ends the call. *)
Fixpoint attachment_responses (storage : StorageService) (attachments : list Attachment)
  : result (list AttachmentResponse) :=
  match attachments with
  | [] => Ok []
  | att :: attachments' =>
      match attachment_response storage att with
      | Raise e => Raise e
      | Ok response =>
          match attachment_responses storage attachments' with
          | Raise e => Raise e
          | Ok responses => Ok (response :: responses)
          end
      end
  end.

(** [EventService.enrich_event].  The next occurrence is computed first, so
    an exception of the recurrence loop comes before one of the attachment
    loop. *)
Definition enrich_event (fuel : nat) (w : World) (event : Event)
           (server_now : Datetime.datetime)
           (attachments : option (list Attachment))
           (storage_service : option StorageService)
  : option (result Enriched) :=
  let computed :=
    if negb (RepeatInterval_eqb (Models.repeat_interval event) NONE) then
      calculate_next_occurrence fuel w (Models.event_date event)
                                (Models.repeat_interval event)
    else Some (Ok None) in
  match computed with
  | None => None
  | Some (Raise e) => Some (Raise e)
  | Some (Ok next_occurrence) =>
      let effective_due_at :=
        match next_occurrence with
        | Some d => d
        | None => Models.event_date event
        end in
      let remaining_seconds :=
        calculate_remaining_seconds effective_due_at server_now in
      let color_bucket := get_color_bucket remaining_seconds in
      let is_overdue := remaining_seconds <? 0 in
      let converted :=
        match attachments, storage_service with
        | Some ((_ :: _) as atts), Some storage => attachment_responses storage atts
        | _, _ => Ok []
        end in
      match converted with
      | Raise e => Some (Raise e)
      | Ok attachment_responses =>
          Some (Ok (mk_Enriched
                      (Models.id event) (Models.user_id event) (Models.title event)
                      (Models.description event) (Models.event_date event)
                      (Models.repeat_interval event) (Models.timezone event)
                      next_occurrence effective_due_at remaining_seconds
                      color_bucket is_overdue attachment_responses
                      (Models.created_at event) (Models.updated_at event)))
      end
  end.

(** [sorted(xs, key=key)]: Python's sort is stable.  Insertion from the
    right, placing an element before the first one whose key is not
    smaller, is the stable ascending order. *)
Section Sorted.
Context {A : Type} (key : A -> Z).

Fixpoint insert_by_key (x : A) (l : list A) : list A :=
  match l with
  | [] => [x]
  | y :: l' => if key x <=? key y then x :: y :: l' else y :: insert_by_key x l'
  end.

Fixpoint sorted (l : list A) : list A :=
  match l with
  | [] => []
  | x :: l' => insert_by_key x (sorted l')
  end.
End Sorted.

(** [EventService.sort_events_by_remaining_time]. *)
Definition sort_events_by_remaining_time (enriched_events : list Enriched) : list Enriched :=
  sorted remaining_seconds enriched_events.

(** [EventService.filter_overdue]: two comprehensions over the same list. *)
Definition filter_overdue (enriched_events : list Enriched)
  : list Enriched * list Enriched :=
  let upcoming := filter (fun e => negb (is_overdue e)) enriched_events in
  let overdue := filter (fun e => is_overdue e) enriched_events in
  (upcoming, overdue).

End EventService.

(** ** Vocabulary of the properties *)

(** The candidates visited by a loop: [nth_occurrence body k c] applies the
    step [body] to [c] [k] times, stopping at the first exception. *)
Fixpoint nth_occurrence (body : Datetime.datetime -> result Datetime.datetime)
         (k : nat) (c : Datetime.datetime) : result Datetime.datetime :=
  match k with
  | O => Ok c
  | S k' =>
      match body c with
      | Ok c' => nth_occurrence body k' c'
      | Raise e => Raise e
      end
  end.

(** [r] is the [k]-th candidate from [anchor], it is after [now], and every
    earlier candidate is not after [now]. *)
Definition first_after_now (body : Datetime.datetime -> result Datetime.datetime)
           (now anchor : Datetime.datetime) (k : nat) (r : Datetime.datetime) : Prop :=
  nth_occurrence body k anchor = Ok r /\
  Datetime.gt r now = true /\
  forall j, (j < k)%nat ->
            exists cj, nth_occurrence body j anchor = Ok cj /\ Datetime.le cj now = true.

(** The [k]-th element of the sequence [anchor, anchor + step,
    anchor + 2*step, ...] of the specification: [k] steps added to the
    anchor at once.  [k * timedelta(days=1)] is [timedelta(days=k)], and
    [k * relativedelta(months=1)] is [relativedelta(months=k)], which
    dateutil normalises to [years = k // 12] and [months = k % 12].  NONE
    has no step; its case is only there to make the function total. *)
Definition anchor_plus_steps (rule : Models.RepeatInterval) (k : nat)
           (anchor : Datetime.datetime) : result Datetime.datetime :=
  match rule with
  | Models.DAY => Datetime.add_days k anchor
  | Models.WEEK => Datetime.add_days (7 * k) anchor
  | Models.MONTH =>
      Datetime.add_relativedelta (Z.of_nat k / 12) (Z.of_nat k mod 12) anchor
  | _ => Datetime.add_relativedelta (Z.of_nat k) 0 anchor
  end.

(** [r] is element [k] of [sequence], it is after [now], and every earlier
    element is not after [now]. *)
Definition first_exceeding (sequence : nat -> result Datetime.datetime)
           (now : Datetime.datetime) (k : nat) (r : Datetime.datetime) : Prop :=
  sequence k = Ok r /\
  Datetime.gt r now = true /\
  forall j, (j < k)%nat ->
            exists cj, sequence j = Ok cj /\ Datetime.le cj now = true.

(** A number of iterations that always suffices: every step moves the
    candidate by at least one day. *)
Definition enough_fuel (now anchor : Datetime.datetime) : nat :=
  S (Z.to_nat ((Datetime.utc_us now - Datetime.utc_us anchor) / Datetime.US_PER_DAY)).

(** The month after [(y, m)]. *)
Definition next_month (y m : Z) : Z * Z :=
  if m <? 12 then (y, m + 1) else (y + 1, 1).

(** The two datetimes agree on hour, minute, second and tzinfo. *)
Definition same_clock_time (a b : Datetime.datetime) : Prop :=
  Datetime.hour a = Datetime.hour b /\
  Datetime.minute a = Datetime.minute b /\
  Datetime.second a = Datetime.second b /\
  Datetime.utcoffset a = Datetime.utcoffset b.

(** The tier table of the specification, row by row, with D = 86400. *)
Inductive tier_row : Z -> option Schemas.ColorBucket -> Prop :=
| row_overdue r : r < 0 -> tier_row r None
| row_red r : 0 <= r < 86400 -> tier_row r (Some Schemas.RED)
| row_orange r : 86400 <= r < 7 * 86400 -> tier_row r (Some Schemas.ORANGE)
| row_yellow r : 7 * 86400 <= r < 30 * 86400 -> tier_row r (Some Schemas.YELLOW)
| row_green r : 30 * 86400 <= r < 90 * 86400 -> tier_row r (Some Schemas.GREEN)
| row_cyan r : 90 * 86400 <= r < 365 * 86400 -> tier_row r (Some Schemas.CYAN)
| row_blue r : 365 * 86400 <= r < 3 * 365 * 86400 -> tier_row r (Some Schemas.BLUE)
| row_purple r : 3 * 365 * 86400 <= r -> tier_row r (Some Schemas.PURPLE).

(** [l] is a merge of [l1] and [l2] that keeps the order of both: every
    element of [l] comes from exactly one of them. *)
Inductive Interleave {A : Type} : list A -> list A -> list A -> Prop :=
| Interleave_nil : Interleave [] [] []
| Interleave_left x l1 l2 l : Interleave l1 l2 l -> Interleave (x :: l1) l2 (x :: l)
| Interleave_right x l1 l2 l : Interleave l1 l2 l -> Interleave l1 (x :: l2) (x :: l).

(** A dict that some call of [enrich_event] returned. *)
Definition enriched_by_service (d : EventService.Enriched) : Prop :=
  exists fuel w event server_now attachments storage,
    EventService.enrich_event fuel w event server_now attachments storage = Some (Ok d).

(** The month and day that stand for February 29 under a leap policy: the
    test in the source is [LEAP_POLICY == "mar01"], anything else is feb28. *)
Definition substituted_month_day (leap_policy : string) : Z * Z :=
  if String.eqb leap_policy "mar01" then (3, 1) else (2, 28).

(** The anchor is a February 29. *)
Definition is_feb29 (d : Datetime.datetime) : bool :=
  (Datetime.month d =? 2) && (Datetime.day d =? 29).

(** ** Sample inputs *)

Module Samples.

(** A UTC datetime on a whole second. *)
Definition utc (y m d hh mm ss : Z) : Datetime.datetime :=
  Datetime.mk_datetime y m d hh mm ss 0 0.

Definition anchor_2025_01_01 := utc 2025 1 1 12 0 0.
Definition anchor_2025_01_15 := utc 2025 1 15 12 0 0.
Definition anchor_2025_01_31 := utc 2025 1 31 12 0 0.
Definition anchor_2027_06_15 := utc 2027 6 15 12 0 0.
Definition anchor_2024_02_29 := utc 2024 2 29 12 0 0.

(** 2024-02-29T12:00:00.500000+00:00 *)
Definition anchor_2024_02_29_half : Datetime.datetime :=
  Datetime.mk_datetime 2024 2 29 12 0 0 500000 0.

Definition anchor_9999_06_15 := utc 9999 6 15 0 0 0.
Definition anchor_9999_12_01 := utc 9999 12 1 0 0 0.
Definition anchor_9999_12_31 := utc 9999 12 31 0 0 0.

Definition world_2024_06_01 := mk_World (utc 2024 6 1 0 0 0) "feb28".
Definition world_2025_01_10 := mk_World (utc 2025 1 10 0 0 0) "feb28".
Definition world_2025_02_10 := mk_World (utc 2025 2 10 0 0 0) "feb28".
Definition world_2025_03_15 := mk_World (utc 2025 3 15 0 0 0) "feb28".
Definition world_2026_11_04 := mk_World (utc 2026 11 4 10 0 0) "feb28".
Definition world_2029_06_01_mar01 := mk_World (utc 2029 6 1 0 0 0) "mar01".
Definition world_9999_12_31 := mk_World (utc 9999 12 31 12 0 0) "feb28".

Definition event_2025_01_15 : Models.Event :=
  Models.mk_Event "e1" "u1" "rent" None anchor_2025_01_15 Models.MONTH None None
                  anchor_2025_01_01 anchor_2025_01_01.

Definition event_2025_01_31_once : Models.Event :=
  Models.mk_Event "e2" "u1" "deadline" None anchor_2025_01_31 Models.NONE None None
                  anchor_2025_01_01 anchor_2025_01_01.

Definition event_2025_01_01_daily : Models.Event :=
  Models.mk_Event "e3" "u1" "standup" None anchor_2025_01_01 Models.DAY None None
                  anchor_2025_01_01 anchor_2025_01_01.

(** a2b16f02-8d5b-4de9-b07c-3703bf54cf93, a version-4 UUID. *)
Definition uuid4_sample : Z := 0xa2b16f028d5b4de9b07c3703bf54cf93.

Definition photo : Models.Attachment :=
  Models.mk_Attachment uuid4_sample "2025/01/photo.png" "image/png"
                       (Some 10) None None None.

(** The same row with the nullable [size] column left NULL. *)
Definition photo_without_size : Models.Attachment :=
  Models.mk_Attachment uuid4_sample "2025/01/photo.png" "image/png"
                       None None None None.

End Samples.

(** * The rest of the service and its callers *)

(** ** More of [datetime] *)

Module DateOps.
Import Calendar.

(** [date.weekday()]: [(self.toordinal() + 6) % 7], Monday is 0. *)
Definition weekday (d : Datetime.datetime) : Z :=
  (Datetime.toordinal d + 6) mod 7.

(** [dt - timedelta(days=1)]: the calendar predecessor, same time of day and
    tzinfo.  Before 0001-01-01 the subtraction raises [OverflowError]. *)
Definition sub_one_day (dt : Datetime.datetime) : result Datetime.datetime :=
  let with_date y m d :=
    Datetime.mk_datetime y m d (Datetime.hour dt) (Datetime.minute dt)
                         (Datetime.second dt) (Datetime.microsecond dt)
                         (Datetime.utcoffset dt) in
  if 1 <? Datetime.day dt
  then Ok (with_date (Datetime.year dt) (Datetime.month dt) (Datetime.day dt - 1))
  else if 1 <? Datetime.month dt
  then Ok (with_date (Datetime.year dt) (Datetime.month dt - 1)
                     (monthrange_ndays (Datetime.year dt) (Datetime.month dt - 1)))
  else if MINYEAR <? Datetime.year dt
  then Ok (with_date (Datetime.year dt - 1) 12 31)
  else Raise OverflowError.

End DateOps.

(** ** [EventService.get_effective_due_at] *)

Module EventServiceRest.

(** [if event.repeat_interval != RepeatInterval.NONE and event.next_occurrence]:
    a datetime is always truthy, so the second test is "is not None". *)
Definition get_effective_due_at (event : Models.Event) : Datetime.datetime :=
  match negb (Models.RepeatInterval_eqb (Models.repeat_interval event) Models.NONE),
        Models.next_occurrence event with
  | true, Some next_occurrence => next_occurrence
  | _, _ => Models.event_date event
  end.

End EventServiceRest.

(** ** [app/schemas/event.py]: the [event_date] validators *)

Module EventSchemas.

(** The value pydantic hands to the validator: a datetime without tzinfo, or
    an aware one. *)
Inductive input_datetime : Type :=
| Naive (y m d hh mm ss us : Z)
| Aware (d : Datetime.datetime).

(** [v if v.tzinfo is not None else v.replace(tzinfo=timezone.utc)]. *)
Definition v_aware (v : input_datetime) : Datetime.datetime :=
  match v with
  | Naive y m d hh mm ss us => Datetime.mk_datetime y m d hh mm ss us 0
  | Aware d => d
  end.

(** [EventCreate.validate_event_date].  [a < b] on aware datetimes is
    [Datetime.gt b a]. *)
Definition validate_event_date (w : World) (v : input_datetime)
  : result Datetime.datetime :=
  let now_utc := utc_now w in
  match DateOps.sub_one_day now_utc with
  | Raise e => Raise e
  | Ok day_ago =>
      if Datetime.gt day_ago (v_aware v) then Raise ValueError
      else Ok (v_aware v)
  end.

End EventSchemas.

(** ** [app/core/config.py]: the derived settings *)

Module Config.

(** The setting [cors_origins_list] reads. *)
Record Settings : Type := mk_Settings {
  CORS_ORIGINS : string
}.

(** The default of the class. *)
Definition default_settings : Settings :=
  mk_Settings "http://localhost:3000,http://localhost:5173".

(** [s.split(sep)] for a one-character separator: every occurrence splits,
    empty pieces are kept. *)
Fixpoint split (sep : ascii) (s : string) : list string :=
  match s with
  | EmptyString => [EmptyString]
  | String c s' =>
      if Ascii.eqb c sep then EmptyString :: split sep s'
      else match split sep s' with
           | piece :: pieces => String c piece :: pieces
           | [] => [String c EmptyString]
           end
  end.

(** [str.isspace] on an ASCII character: tab, LF, VT, FF, CR, the four
    separators 0x1c-0x1f and the space. *)
Definition isspace (c : ascii) : bool :=
  let n := nat_of_ascii c in
  ((9 <=? n) && (n <=? 13) || (28 <=? n) && (n <=? 32))%nat.

(** [s.lstrip()], [s.rstrip()] and [s.strip()] on ASCII text. *)
Fixpoint lstrip (s : string) : string :=
  match s with
  | EmptyString => EmptyString
  | String c s' => if isspace c then lstrip s' else s
  end.

Fixpoint rstrip (s : string) : string :=
  match s with
  | EmptyString => EmptyString
  | String c s' =>
      match rstrip s' with
      | EmptyString => if isspace c then EmptyString else String c EmptyString
      | rest => String c rest
      end
  end.

Definition strip (s : string) : string := rstrip (lstrip s).

(** [Settings.cors_origins_list]. *)
Definition cors_origins_list (s : Settings) : list string :=
  map strip (split ","%char (CORS_ORIGINS s)).

End Config.

(** ** [app/api/events.py] and [app/api/share.py]: what the routes compute *)

Module Api.

(** The [.value] of a [RepeatInterval] member, and the lookup
    [RepeatInterval(value)], which raises [ValueError] on any other text. *)
Definition RepeatInterval_value (r : Models.RepeatInterval) : string :=
  match r with
  | Models.NONE => "none"
  | Models.DAY => "day"
  | Models.WEEK => "week"
  | Models.MONTH => "month"
  | Models.YEAR => "year"
  end.

Definition RepeatInterval_of_value (s : string) : result Models.RepeatInterval :=
  if String.eqb s "none" then Ok Models.NONE
  else if String.eqb s "day" then Ok Models.DAY
  else if String.eqb s "week" then Ok Models.WEEK
  else if String.eqb s "month" then Ok Models.MONTH
  else if String.eqb s "year" then Ok Models.YEAR
  else Raise ValueError.

(** [event.next_occurrence = next_occ]. *)
Definition set_next_occurrence (event : Models.Event)
           (next_occ : option Datetime.datetime) : Models.Event :=
  Models.mk_Event (Models.id event) (Models.user_id event) (Models.title event)
                  (Models.description event) (Models.event_date event)
                  (Models.repeat_interval event) next_occ (Models.timezone event)
                  (Models.created_at event) (Models.updated_at event).

(** The step shared by [create_event], [update_event] and
    [import_shared_event]: when the rule's value differs from [literal], the
    next occurrence is computed and stored on the event. *)
Definition store_next_occurrence (literal : string) (fuel : nat) (w : World)
           (event : Models.Event) : option (result Models.Event) :=
  if negb (String.eqb (RepeatInterval_value (Models.repeat_interval event)) literal) then
    match EventService.calculate_next_occurrence
            fuel w (Models.event_date event) (Models.repeat_interval event) with
    | Some (Ok next_occ) => Some (Ok (set_next_occurrence event next_occ))
    | Some (Raise e) => Some (Raise e)
    | None => None
    end
  else Some (Ok event).

(** [events.py], [create_event] and [update_event]:
    [if event.repeat_interval.value != "none"]. *)
Definition events_store_next_occurrence := store_next_occurrence "none".

(** [share.py], [import_shared_event]:
    [if new_event.repeat_interval.value != "NONE"]. *)
Definition import_store_next_occurrence := store_next_occurrence "NONE".

(** The loop of [list_events]: each event is enriched with the attachments
    the repository returns for it and the module's storage service.  Every
    call of [enrich_event] reads the clock anew: [clock i] is the world at
    the [i]-th call. *)
Fixpoint enrich_all (fuel : nat) (clock : nat -> World) (i : nat)
         (server_now : Datetime.datetime)
         (attachments_of : Models.Event -> list Models.Attachment)
         (storage : StorageService) (events : list Models.Event)
  : option (result (list EventService.Enriched)) :=
  match events with
  | [] => Some (Ok [])
  | event :: events' =>
      match EventService.enrich_event fuel (clock i) event server_now
                                      (Some (attachments_of event)) (Some storage) with
      | None => None
      | Some (Raise e) => Some (Raise e)
      | Some (Ok enriched) =>
          match enrich_all fuel clock (S i) server_now attachments_of storage events' with
          | None => None
          | Some (Raise e) => Some (Raise e)
          | Some (Ok rest) => Some (Ok (enriched :: rest))
          end
      end
  end.

(** [list_events], from the enriched list on: the overdue filter unless
    [include_overdue], then the sort. *)
Definition list_events_items (include_overdue : bool)
           (enriched_events : list EventService.Enriched)
  : list EventService.Enriched :=
  let enriched_events :=
    if negb include_overdue
    then filter (fun e => negb (EventService.is_overdue e)) enriched_events
    else enriched_events in
  EventService.sort_events_by_remaining_time enriched_events.

(** [list_events]: the items of the response. *)
Definition list_events (fuel : nat) (clock : nat -> World)
           (server_now : Datetime.datetime)
           (attachments_of : Models.Event -> list Models.Attachment)
           (storage : StorageService) (include_overdue : bool)
           (events : list Models.Event)
  : option (result (list EventService.Enriched)) :=
  match enrich_all fuel clock 0 server_now attachments_of storage events with
  | None => None
  | Some (Raise e) => Some (Raise e)
  | Some (Ok enriched_events) => Some (Ok (list_events_items include_overdue enriched_events))
  end.

End Api.

(** ** Vocabulary of the further properties *)

(** How many times the character [c] occurs in [s]. *)
Fixpoint count_char (c : ascii) (s : string) : nat :=
  match s with
  | EmptyString => O
  | String a s' => (if Ascii.eqb a c then 1 else 0) + count_char c s'
  end.

(** The position of a colour bucket on the urgency scale, overdue first. *)
Definition tier_rank (bucket : option Schemas.ColorBucket) : Z :=
  match bucket with
  | None => 0
  | Some Schemas.RED => 1
  | Some Schemas.ORANGE => 2
  | Some Schemas.YELLOW => 3
  | Some Schemas.GREEN => 4
  | Some Schemas.CYAN => 5
  | Some Schemas.BLUE => 6
  | Some Schemas.PURPLE => 7
  end.

(** The longest step of each rule, in days. *)
Definition period_days (rule : Models.RepeatInterval) : Z :=
  match rule with
  | Models.DAY => 1
  | Models.WEEK => 7
  | Models.MONTH => 31
  | _ => 366
  end.

(** Case analysis on a month number known to lie in 1..12. *)
Ltac month_cases m :=
  let H := fresh "Hm" in
  assert (m = 1 \/ m = 2 \/ m = 3 \/ m = 4 \/ m = 5 \/ m = 6 \/ m = 7 \/ m = 8 \/
          m = 9 \/ m = 10 \/ m = 11 \/ m = 12) as H by lia;
  repeat (destruct H as [H | H]); subst m; try lia.

(** ** Float division *)

Section FloatFacts.
Import Float.

Lemma round_half_even_near n d :
  0 <= n -> 0 < d ->
  2 * n - d <= 2 * (round_half_even n d * d) <= 2 * n + d.
Proof.
  intros Hn Hd. unfold round_half_even.
  pose proof (Z.div_mod n d ltac:(lia)) as Hdm.
  pose proof (Z.mod_pos_bound n d Hd) as Hr.
  set (q := n / d) in *. set (r := n mod d) in *.
  destruct (Z.ltb_spec (2 * r) d); [lia|].
  destruct (Z.ltb_spec d (2 * r)); [lia|].
  destruct (Z.even q); lia.
Qed.

Lemma round_half_even_lower n d k :
  0 < d -> k * d <= n -> k <= round_half_even n d.
Proof.
  intros Hd Hk. unfold round_half_even.
  assert (k <= n / d) by (apply Z.div_le_lower_bound; lia).
  destruct (2 * (n mod d) <? d); [lia|].
  destruct (d <? 2 * (n mod d)); [lia|].
  destruct (Z.even (n / d)); lia.
Qed.

Lemma round_half_even_upper n d k :
  0 < d -> n <= k * d -> round_half_even n d <= k.
Proof.
  intros Hd Hk. unfold round_half_even.
  pose proof (Z.div_mod n d ltac:(lia)) as Hdm.
  pose proof (Z.mod_pos_bound n d Hd) as Hr.
  set (q := n / d) in *. set (r := n mod d) in *. clearbody q r.
  assert (r = 0 /\ q = k \/ q < k) as Hcase by nia.
  destruct (Z.ltb_spec (2 * r) d); [lia|].
  destruct (Z.ltb_spec d (2 * r)); [lia|].
  destruct (Z.even q); lia.
Qed.

Lemma scaled_pos a d e :
  0 < a -> 0 < d -> 0 < fst (scaled a d e) /\ 0 < snd (scaled a d e).
Proof.
  intros Ha Hd. unfold scaled. destruct (Z.leb_spec 0 e); cbn [fst snd].
  - pose proof (Z.pow_pos_nonneg 2 e ltac:(lia) ltac:(lia)). nia.
  - pose proof (Z.pow_pos_nonneg 2 (- e) ltac:(lia) ltac:(lia)). nia.
Qed.

Lemma scaled_pred a d e :
  0 < a -> 0 < d ->
  fst (scaled a d (e - 1)) * snd (scaled a d e) =
  2 * (fst (scaled a d e) * snd (scaled a d (e - 1))).
Proof.
  intros Ha Hd. unfold scaled.
  destruct (Z.leb_spec 0 e), (Z.leb_spec 0 (e - 1)); cbn [fst snd]; try lia.
  - replace e with (Z.succ (e - 1)) at 1 by lia.
    rewrite Z.pow_succ_r by lia. ring.
  - assert (e = 0) as -> by lia.
    change (- (0 - 1)) with 1. change (2 ^ 1) with 2. change (2 ^ 0) with 1. ring.
  - replace (- (e - 1)) with (Z.succ (- e)) by lia.
    rewrite Z.pow_succ_r by lia. ring.
Qed.

Lemma scaled_first_guess a d :
  0 < a -> 0 < d ->
  let e0 := Z.log2 a - Z.log2 d - 52 in
  2 ^ 51 * snd (scaled a d e0) < fst (scaled a d e0) < 2 ^ 53 * snd (scaled a d e0).
Proof.
  intros Ha Hd e0.
  destruct (Z.log2_spec a Ha) as [Ha1 Ha2].
  destruct (Z.log2_spec d Hd) as [Hd1 Hd2].
  pose proof (Z.log2_nonneg a) as Hla. pose proof (Z.log2_nonneg d) as Hld.
  rewrite Z.pow_succ_r in Ha2, Hd2 by assumption.
  unfold scaled. destruct (Z.leb_spec 0 e0); cbn [fst snd].
  - assert (Z.log2 a = Z.log2 d + 52 + e0) as Hla' by (unfold e0; lia).
    rewrite Hla' in Ha1, Ha2. rewrite !Z.pow_add_r in Ha1, Ha2 by lia.
    pose proof (Z.pow_pos_nonneg 2 e0 ltac:(lia) ltac:(lia)) as He.
    set (pd := 2 ^ Z.log2 d) in *. set (pe := 2 ^ e0) in *.
    change (2 ^ 52) with 4503599627370496 in *.
    change (2 ^ 51) with 2251799813685248.
    change (2 ^ 53) with 9007199254740992.
    nia.
  - assert (Z.log2 a + - e0 = Z.log2 d + 52) as Hla' by (unfold e0; lia).
    assert (2 ^ Z.log2 a * 2 ^ (- e0) = 2 ^ Z.log2 d * 2 ^ 52) as Hp.
    { rewrite <- !Z.pow_add_r by lia. f_equal. exact Hla'. }
    pose proof (Z.pow_pos_nonneg 2 (- e0) ltac:(lia) ltac:(lia)) as He.
    set (pa := 2 ^ Z.log2 a) in *.
    set (pd := 2 ^ Z.log2 d) in *. set (pe := 2 ^ (- e0)) in *.
    change (2 ^ 52) with 4503599627370496 in *.
    change (2 ^ 51) with 2251799813685248.
    change (2 ^ 53) with 9007199254740992.
    nia.
Qed.

(** The exponent picked by [truediv] normalises the quotient to 53 bits. *)
Lemma scaled_normal a d :
  0 < a -> 0 < d ->
  2 ^ 52 * snd (scaled a d (normal_exponent a d))
  <= fst (scaled a d (normal_exponent a d))
  < 2 ^ 53 * snd (scaled a d (normal_exponent a d)).
Proof.
  intros Ha Hd. unfold normal_exponent.
  pose proof (scaled_first_guess a d Ha Hd) as H0. cbv zeta in H0.
  set (e0 := Z.log2 a - Z.log2 d - 52) in *.
  destruct (Z.ltb_spec (fst (scaled a d e0)) (2 ^ 52 * snd (scaled a d e0))).
  - pose proof (scaled_pred a d e0 Ha Hd) as Hp.
    pose proof (scaled_pos a d e0 Ha Hd) as [Hn0 Hd0].
    pose proof (scaled_pos a d (e0 - 1) Ha Hd) as [Hn1 Hd1].
    set (n0 := fst (scaled a d e0)) in *. set (d0 := snd (scaled a d e0)) in *.
    set (n1 := fst (scaled a d (e0 - 1))) in *.
    set (d1 := snd (scaled a d (e0 - 1))) in *.
    change (2 ^ 52) with 4503599627370496 in *.
    change (2 ^ 51) with 2251799813685248 in *.
    change (2 ^ 53) with 9007199254740992 in *.
    clearbody n0 d0 n1 d1. nia.
  - lia.
Qed.


(** The two shapes of a positive quotient: the rounded mantissa times a
    power of two, or divided by one. *)
Lemma truediv_pos_cases n d :
  0 < n -> 0 < d ->
  exists s, 0 <= s /\
    ((to_int (truediv n d) = round_half_even n (d * 2 ^ s) * 2 ^ s /\
      2 ^ 52 * (d * 2 ^ s) <= n < 2 ^ 53 * (d * 2 ^ s)) \/
     (to_int (truediv n d) = round_half_even (n * 2 ^ s) d / 2 ^ s /\
      2 ^ 52 * d <= n * 2 ^ s < 2 ^ 53 * d)).
Proof.
  intros Hn Hd. pose proof (scaled_normal n d Hn Hd) as Hnorm.
  unfold truediv, to_int.
  replace (n =? 0) with false by (symmetry; apply Z.eqb_neq; lia).
  rewrite (Z.abs_eq n) by lia. rewrite (Z.sgn_pos n) by lia.
  cbn [mantissa exponent]. rewrite Z.mul_1_l.
  set (e := normal_exponent n d) in *. clearbody e.
  unfold scaled in *. destruct (Z.leb_spec 0 e); cbn [fst snd] in *.
  - exists e. split; [assumption|]. left. split; [reflexivity | assumption].
  - exists (- e). split; [lia|]. right. split; [|assumption].
    apply Z.quot_div_nonneg.
    + apply (round_half_even_lower _ _ 0); [assumption|].
      pose proof (Z.pow_pos_nonneg 2 (- e) ltac:(lia) ltac:(lia)). nia.
    + apply Z.pow_pos_nonneg; lia.
Qed.

Lemma truediv_opp n d :
  to_int (truediv (- n) d) = - to_int (truediv n d).
Proof.
  unfold truediv. destruct (Z.eqb_spec n 0) as [-> | Hn]; [reflexivity|].
  replace (- n =? 0) with false by (symmetry; apply Z.eqb_neq; lia).
  rewrite Z.abs_opp, Z.sgn_opp. unfold to_int. cbn [mantissa exponent].
  set (e := normal_exponent (Z.abs n) d).
  destruct (Z.leb_spec 0 e).
  - ring.
  - rewrite Z.mul_opp_l. apply Z.quot_opp_l.
    apply Z.neq_sym, Z.lt_neq, Z.pow_pos_nonneg; lia.
Qed.

Lemma truediv_nonneg n d :
  0 <= n -> 0 < d -> 0 <= to_int (truediv n d).
Proof.
  intros Hn Hd. destruct (Z.eq_dec n 0) as [-> | Hn0]; [reflexivity|].
  destruct (truediv_pos_cases n d ltac:(lia) Hd) as (s & Hs & [[-> H] | [-> H]]);
    pose proof (Z.pow_pos_nonneg 2 s ltac:(lia) Hs) as Hp.
  - apply Z.mul_nonneg_nonneg; [|lia].
    apply (round_half_even_lower _ _ 0); nia.
  - apply Z.div_pos; [|lia].
    apply (round_half_even_lower _ _ 0); nia.
Qed.

(** Rounding is monotone: a quotient of at least a whole number up to 2^52
    is not rounded below it ... *)
Lemma truediv_lower n d lo :
  0 < d -> 0 <= lo <= 2 ^ 52 -> lo * d <= n -> lo <= to_int (truediv n d).
Proof.
  intros Hd Hlo Hn.
  destruct (Z.eq_dec lo 0) as [-> | Hlo0].
  { apply truediv_nonneg; lia. }
  assert (0 < n) as Hn0 by nia.
  destruct (truediv_pos_cases n d Hn0 Hd) as (s & Hs & [[-> H] | [-> H]]);
    pose proof (Z.pow_pos_nonneg 2 s ltac:(lia) Hs) as Hp.
  - assert (2 ^ 52 <= round_half_even n (d * 2 ^ s)) as HR
        by (apply round_half_even_lower; nia).
    nia.
  - apply Z.div_le_lower_bound; [lia|].
    apply round_half_even_lower; [lia|]. nia.
Qed.

(** ... and a quotient of at most a whole number below 2^53 is not rounded
    above it. *)
Lemma truediv_upper n d hi :
  0 < d -> 0 <= n <= hi * d -> hi < 2 ^ 53 -> to_int (truediv n d) <= hi.
Proof.
  intros Hd Hn Hhi.
  destruct (Z.eq_dec n 0) as [-> | Hn0].
  { change (to_int (truediv 0 d)) with 0. nia. }
  destruct (truediv_pos_cases n d ltac:(lia) Hd) as (s & Hs & [[-> H] | [-> H]]);
    pose proof (Z.pow_pos_nonneg 2 s ltac:(lia) Hs) as Hp.
  - destruct (Z.eq_dec s 0) as [-> | Hs0].
    + change (2 ^ 0) with 1 in *. rewrite Z.mul_1_r.
      apply round_half_even_upper; lia.
    + exfalso.
      assert (2 <= 2 ^ s) as Hp2.
      { change 2 with (2 ^ 1) at 1. apply Z.pow_le_mono_r; lia. }
      nia.
  - apply Z.div_le_upper_bound; [lia|].
    apply round_half_even_upper; [lia|]. nia.
Qed.

(** Below 2^34 times a divisor of at most 20 bits the rounded quotient
    truncates to the floor of the exact one. *)
Lemma truediv_exact n d :
  0 < d < 2 ^ 20 -> 0 <= n < 2 ^ 34 * d ->
  to_int (truediv n d) = n / d.
Proof.
  intros Hd Hn.
  destruct (Z.eq_dec n 0) as [-> | Hn0]; [reflexivity|].
  destruct (truediv_pos_cases n d ltac:(lia) ltac:(lia)) as (s & Hs & [[-> H] | [-> H]]);
    pose proof (Z.pow_pos_nonneg 2 s ltac:(lia) Hs) as Hp.
  - exfalso. change (2 ^ 52) with (2 ^ 34 * 2 ^ 18) in H. nia.
  - assert (19 <= s) as Hs19.
    { destruct (Z_le_gt_dec 19 s) as [|Hlt]; [assumption|exfalso].
      assert (2 ^ s <= 2 ^ 18) as Hle by (apply Z.pow_le_mono_r; lia).
      change (2 ^ 52) with (2 ^ 34 * 2 ^ 18) in H. nia. }
    assert (2 ^ 19 <= 2 ^ s) as Hp19 by (apply Z.pow_le_mono_r; lia).
    pose proof (round_half_even_near (n * 2 ^ s) d ltac:(nia) ltac:(lia)) as Hnear.
    pose proof (Z.div_mod n d ltac:(lia)) as Hdm.
    pose proof (Z.mod_pos_bound n d ltac:(lia)) as Hr.
    clear H Hn.
    set (R := round_half_even (n * 2 ^ s) d) in *.
    set (q := n / d) in *. set (r := n mod d) in *. set (p := 2 ^ s) in *.
    change (2 ^ 20) with (2 * 2 ^ 19) in Hd.
    assert (n * p = q * p * d + r * p) as Hnp by (rewrite Hdm; ring).
    assert (0 <= r * p) as Hrp0 by (apply Z.mul_nonneg_nonneg; lia).
    assert (r * p <= (d - 1) * p) as Hrp1 by (apply Z.mul_le_mono_nonneg_r; lia).
    symmetry. apply (Z.div_unique R p q (R - q * p)); [|lia].
    left. split.
    + assert (q * p <= R); [|lia].
      apply round_half_even_lower; lia.
    + assert (R < (q + 1) * p); [|lia].
      apply (Z.mul_lt_mono_pos_r d); [lia|].
      clearbody R q r p. lia.
Qed.

End FloatFacts.

(** ** Calendar arithmetic *)

Section CalendarFacts.
Import Calendar.

Lemma isleap_true_iff y :
  isleap y = true <-> y mod 4 = 0 /\ (y mod 100 <> 0 \/ y mod 400 = 0).
Proof.
  unfold isleap.
  rewrite andb_true_iff, orb_true_iff, negb_true_iff, !Z.eqb_eq, Z.eqb_neq.
  tauto.
Qed.

Lemma isleap_succ y : isleap y = true -> isleap (y + 1) = false.
Proof.
  intros H. apply isleap_true_iff in H.
  destruct (isleap (y + 1)) eqn:E; [|reflexivity].
  apply isleap_true_iff in E.
  exfalso. Z.div_mod_to_equations. lia.
Qed.

Lemma days_before_year_succ y :
  days_before_year (y + 1) = days_before_year y + 365 + (if isleap y then 1 else 0).
Proof.
  unfold days_before_year, isleap.
  replace (y + 1 - 1) with y by lia.
  destruct (Z.eqb_spec (y mod 4) 0), (Z.eqb_spec (y mod 100) 0),
    (Z.eqb_spec (y mod 400) 0); simpl; Z.div_mod_to_equations; lia.
Qed.

Lemma days_before_year_mono y y' : y <= y' -> days_before_year y <= days_before_year y'.
Proof.
  unfold days_before_year. intros H. Z.div_mod_to_equations. lia.
Qed.

Lemma monthrange_ndays_bounds y m :
  1 <= m <= 12 -> 28 <= monthrange_ndays y m <= 31.
Proof.
  intros H. month_cases m; unfold monthrange_ndays; simpl;
    destruct (isleap y); simpl; lia.
Qed.

Lemma days_before_month_succ y m :
  1 <= m <= 11 ->
  days_before_month y (m + 1) = days_before_month y m + monthrange_ndays y m.
Proof.
  intros H. month_cases m; unfold days_before_month, monthrange_ndays; simpl;
    destruct (isleap y); reflexivity.
Qed.

Lemma days_before_month_bounds y m :
  1 <= m <= 12 ->
  0 <= days_before_month y m /\
  days_before_month y m + monthrange_ndays y m <= 365 + (if isleap y then 1 else 0).
Proof.
  intros H. month_cases m; unfold days_before_month, monthrange_ndays; simpl;
    destruct (isleap y); simpl; lia.
Qed.

Lemma days_in_december y :
  days_before_month y 12 + monthrange_ndays y 12 = 365 + (if isleap y then 1 else 0).
Proof.
  unfold days_before_month, monthrange_ndays; simpl. destruct (isleap y); reflexivity.
Qed.

(** The first day of the next month follows the last day of this one. *)
Lemma next_month_starts y m :
  1 <= m <= 12 ->
  let '(y', m') := next_month y m in
  days_before_year y' + days_before_month y' m' =
  days_before_year y + days_before_month y m + monthrange_ndays y m.
Proof.
  intros H. unfold next_month. destruct (Z.ltb_spec m 12).
  - rewrite days_before_month_succ by lia. lia.
  - assert (m = 12) by lia. subst m.
    rewrite days_before_year_succ.
    pose proof (days_in_december y).
    change (days_before_month (y + 1) 1) with 0. lia.
Qed.

Lemma check_date_fields_iff y m d :
  check_date_fields y m d = true <->
  1 <= y <= 9999 /\ 1 <= m <= 12 /\ 1 <= d <= monthrange_ndays y m.
Proof.
  unfold check_date_fields, MINYEAR, MAXYEAR.
  rewrite !andb_true_iff, !Z.leb_le. tauto.
Qed.

Lemma check_time_fields_iff hh mm ss us :
  check_time_fields hh mm ss us = true <->
  0 <= hh <= 23 /\ 0 <= mm <= 59 /\ 0 <= ss <= 59 /\ 0 <= us <= 999999.
Proof.
  unfold check_time_fields.
  rewrite !andb_true_iff, !Z.leb_le. tauto.
Qed.

End CalendarFacts.

(** ** Datetime arithmetic *)

Section DatetimeFacts.
Import Calendar Datetime.

Lemma valid_iff d :
  valid d = true <->
  (1 <= year d <= 9999 /\ 1 <= month d <= 12 /\
   1 <= day d <= monthrange_ndays (year d) (month d)) /\
  (0 <= hour d <= 23 /\ 0 <= minute d <= 59 /\ 0 <= second d <= 59 /\
   0 <= microsecond d <= 999999) /\
  - 86400000000 < utcoffset d < 86400000000.
Proof.
  unfold valid, US_PER_DAY, US_PER_SECOND.
  rewrite !andb_true_iff, check_date_fields_iff, check_time_fields_iff, !Z.ltb_lt.
  simpl. tauto.
Qed.

Lemma time_of_day_us_bounds d :
  valid d = true -> 0 <= time_of_day_us d < US_PER_DAY.
Proof.
  intros H. apply valid_iff in H.
  unfold time_of_day_us, US_PER_DAY, US_PER_SECOND. lia.
Qed.

(** An instant lies within a day of its local calendar day. *)
Lemma utc_us_bounds d :
  valid d = true ->
  (toordinal d - 1) * US_PER_DAY < utc_us d < (toordinal d + 2) * US_PER_DAY.
Proof.
  intros H. pose proof (time_of_day_us_bounds d H) as Ht.
  apply valid_iff in H. unfold utc_us, US_PER_DAY, US_PER_SECOND in *. lia.
Qed.

Lemma toordinal_bounds d :
  valid d = true ->
  days_before_year (year d) < toordinal d <= days_before_year (year d + 1).
Proof.
  intros H. apply valid_iff in H. destruct H as [[Hy [Hm Hd]] _].
  unfold toordinal, ymd2ord. rewrite days_before_year_succ.
  pose proof (days_before_month_bounds (year d) (month d) Hm). lia.
Qed.

(** The successor day: one day later on the clock, same time of day. *)
Lemma add_one_day_spec d d' :
  valid d = true -> add_one_day d = Ok d' ->
  valid d' = true /\ utc_us d' = utc_us d + US_PER_DAY /\
  toordinal d' = toordinal d + 1 /\
  same_clock_time d d' /\ microsecond d' = microsecond d.
Proof.
  intros Hv H. pose proof Hv as Hv'. apply valid_iff in Hv'.
  destruct Hv' as [[Hy [Hm Hd]] [Ht Ho]].
  unfold add_one_day in H.
  assert (Hgoal : valid d' = true /\ toordinal d' = toordinal d + 1 /\
                  same_clock_time d d' /\ microsecond d' = microsecond d /\
                  time_of_day_us d' = time_of_day_us d).
  { destruct (Z.ltb_spec (day d) (monthrange_ndays (year d) (month d))).
    - inversion H; subst d'; clear H.
      unfold same_clock_time, toordinal, time_of_day_us, ymd2ord; simpl.
      rewrite valid_iff; simpl. repeat split; try lia.
    - destruct (Z.ltb_spec (month d) 12).
      + inversion H; subst d'; clear H.
        unfold same_clock_time, toordinal, time_of_day_us, ymd2ord; simpl.
        rewrite valid_iff; simpl.
        pose proof (monthrange_ndays_bounds (year d) (month d + 1)).
        rewrite days_before_month_succ by lia.
        repeat split; try lia.
      + destruct (Z.ltb_spec (year d) MAXYEAR); [|discriminate].
        inversion H; subst d'; clear H.
        assert (month d = 12) as Hm12 by lia.
        unfold same_clock_time, toordinal, time_of_day_us, ymd2ord; simpl.
        rewrite valid_iff; simpl. unfold MAXYEAR in *.
        rewrite days_before_year_succ.
        pose proof (days_in_december (year d)) as Hdec.
        rewrite Hm12 in *.
        change (days_before_month (year d + 1) 1) with 0.
        change (monthrange_ndays (year d + 1) 1) with 31.
        repeat split; try lia. }
  destruct Hgoal as (H1 & H2 & H3 & H4 & H5).
  repeat split; try assumption; try apply H3.
  unfold utc_us. rewrite H2, H5. destruct H3 as (_ & _ & _ & ->). lia.
Qed.

(** The successor day exists below the last representable date. *)
Lemma add_one_day_ok d :
  valid d = true -> toordinal d < days_before_year (MAXYEAR + 1) ->
  exists d', add_one_day d = Ok d'.
Proof.
  intros Hv Hlt. apply valid_iff in Hv. destruct Hv as [[Hy [Hm Hd]] _].
  unfold add_one_day.
  destruct (Z.ltb_spec (day d) (monthrange_ndays (year d) (month d))); [eauto|].
  destruct (Z.ltb_spec (month d) 12); [eauto|].
  destruct (Z.ltb_spec (year d) MAXYEAR); [eauto|].
  exfalso. unfold MAXYEAR in *.
  assert (year d = 9999) as Hy9 by lia. assert (month d = 12) as Hm12 by lia.
  unfold toordinal, ymd2ord in Hlt. rewrite Hy9, Hm12 in *.
  rewrite (days_before_year_succ 9999) in Hlt.
  pose proof (days_in_december 9999). lia.
Qed.

Lemma add_days_spec n : forall d d',
  valid d = true -> add_days n d = Ok d' ->
  valid d' = true /\ utc_us d' = utc_us d + Z.of_nat n * US_PER_DAY /\
  toordinal d' = toordinal d + Z.of_nat n /\
  same_clock_time d d' /\ microsecond d' = microsecond d.
Proof.
  induction n as [|n IH]; intros d d' Hv H.
  - inversion H; subst. unfold same_clock_time. repeat split; auto; lia.
  - simpl in H. destruct (add_one_day d) as [d1|] eqn:E; [|discriminate].
    destruct (add_one_day_spec _ _ Hv E) as (Hv1 & Hu1 & Ho1 & Hc1 & Hm1).
    destruct (IH _ _ Hv1 H) as (Hv2 & Hu2 & Ho2 & Hc2 & Hm2).
    unfold same_clock_time in *. repeat split; try lia; auto.
Qed.

Lemma add_days_ok n : forall d,
  valid d = true ->
  toordinal d + Z.of_nat n <= days_before_year (MAXYEAR + 1) ->
  exists d', add_days n d = Ok d'.
Proof.
  induction n as [|n IH]; intros d Hv Hle.
  - simpl. eauto.
  - simpl. destruct (add_one_day_ok d Hv) as [d1 E]; [lia|]. rewrite E.
    destruct (add_one_day_spec _ _ Hv E) as (Hv1 & _ & Ho1 & _).
    apply IH; [assumption | lia].
Qed.

(** [replace] and [new] succeed exactly on field values in range. *)
Lemma replace_Ok dt y m d dt' :
  replace dt y m d = Ok dt' ->
  check_date_fields y m d = true /\
  dt' = mk_datetime y m d (hour dt) (minute dt) (second dt)
                    (microsecond dt) (utcoffset dt).
Proof.
  unfold replace. destruct (check_date_fields y m d); [|discriminate].
  inversion 1. auto.
Qed.

Lemma new_Ok y m d hh mm ss tz dt' :
  new y m d hh mm ss tz = Ok dt' ->
  check_date_fields y m d = true /\ check_time_fields hh mm ss 0 = true /\
  dt' = mk_datetime y m d hh mm ss 0 tz.
Proof.
  unfold new.
  destruct (check_date_fields y m d), (check_time_fields hh mm ss 0);
    simpl; try discriminate.
  inversion 1. auto.
Qed.

(** What [relativedelta(months=1)] and [relativedelta(years=1)] compute. *)
Lemma add_relativedelta_month_eq d :
  1 <= month d <= 12 ->
  add_relativedelta 0 1 d =
  replace d (fst (next_month (year d) (month d)))
            (snd (next_month (year d) (month d)))
            (Z.min (monthrange_ndays (fst (next_month (year d) (month d)))
                                     (snd (next_month (year d) (month d))))
                   (day d)).
Proof.
  intros Hm. unfold add_relativedelta, next_month. simpl.
  rewrite Z.add_0_r.
  destruct (Z.ltb_spec (month d) 12), (Z.gtb_spec (month d + 1) 12); try lia.
  - destruct (Z.ltb_spec (month d + 1) 1); [lia|]. reflexivity.
  - simpl. replace (month d + 1 - 12) with 1 by lia. reflexivity.
Qed.

Lemma add_relativedelta_year_eq d :
  add_relativedelta 1 0 d =
  replace d (year d + 1) (month d)
            (Z.min (monthrange_ndays (year d + 1) (month d)) (day d)).
Proof. reflexivity. Qed.

(** One month later: the next month, the day clamped to its length, the
    time of day kept; at least a day after the argument. *)
Lemma month_step_spec d d' :
  valid d = true -> add_relativedelta 0 1 d = Ok d' ->
  valid d' = true /\ utc_us d + US_PER_DAY <= utc_us d' /\
  same_clock_time d d' /\ microsecond d' = microsecond d /\
  (year d', month d') = next_month (year d) (month d) /\
  day d' = Z.min (monthrange_ndays (year d') (month d')) (day d).
Proof.
  intros Hv H. pose proof Hv as Hv'. apply valid_iff in Hv'.
  destruct Hv' as [[Hy [Hm Hd]] [Ht Ho]].
  rewrite add_relativedelta_month_eq in H by assumption.
  pose proof (next_month_starts (year d) (month d) Hm) as Hstart.
  destruct (next_month (year d) (month d)) as [y' m'] eqn:Enext. simpl in H.
  apply replace_Ok in H. destruct H as [Hchk ->].
  apply check_date_fields_iff in Hchk.
  unfold same_clock_time, utc_us, toordinal, time_of_day_us, ymd2ord,
    US_PER_DAY, US_PER_SECOND.
  rewrite valid_iff. simpl.
  repeat split; try lia.
Qed.

Lemma month_step_ok d :
  valid d = true -> year d <= 9998 -> exists d', add_relativedelta 0 1 d = Ok d'.
Proof.
  intros Hv Hy. apply valid_iff in Hv. destruct Hv as [[Hy' [Hm Hd]] _].
  rewrite add_relativedelta_month_eq by assumption.
  unfold replace.
  match goal with |- context [check_date_fields ?a ?b ?c] =>
    assert (check_date_fields a b c = true) as ->; [|eauto] end.
  apply check_date_fields_iff.
  unfold next_month. destruct (Z.ltb_spec (month d) 12); simpl.
  - pose proof (monthrange_ndays_bounds (year d) (month d + 1)). lia.
  - change (monthrange_ndays (year d + 1) 1) with 31. lia.
Qed.

(** One year later by [relativedelta]: same month, the day clamped. *)
Lemma year_step_spec d d' :
  valid d = true -> add_relativedelta 1 0 d = Ok d' ->
  valid d' = true /\ utc_us d + US_PER_DAY <= utc_us d' /\
  same_clock_time d d' /\ microsecond d' = microsecond d /\
  year d' = year d + 1 /\ month d' = month d /\
  day d' = Z.min (monthrange_ndays (year d') (month d')) (day d).
Proof.
  intros Hv H. pose proof Hv as Hv'. apply valid_iff in Hv'.
  destruct Hv' as [[Hy [Hm Hd]] [Ht Ho]].
  rewrite add_relativedelta_year_eq in H.
  apply replace_Ok in H. destruct H as [Hchk ->].
  apply check_date_fields_iff in Hchk.
  unfold same_clock_time, utc_us, toordinal, time_of_day_us, ymd2ord,
    US_PER_DAY, US_PER_SECOND.
  rewrite valid_iff. simpl.
  rewrite days_before_year_succ.
  assert (forall m dd, 1 <= m <= 12 -> 1 <= dd <= monthrange_ndays (year d) m ->
          days_before_month (year d + 1) m +
          Z.min (monthrange_ndays (year d + 1) m) dd +
          (if isleap (year d) then 1 else 0) + 1
          >= days_before_month (year d) m + dd) as Hgen.
  { intros m dd Hm' Hd'.
    revert Hd'.
    month_cases m; unfold days_before_month, monthrange_ndays;
      cbn -[Z.add Z.min];
      destruct (isleap (year d)), (isleap (year d + 1)); lia. }
  specialize (Hgen _ _ Hm Hd).
  repeat split; try lia.
Qed.

Lemma year_step_ok d :
  valid d = true -> year d <= 9998 -> exists d', add_relativedelta 1 0 d = Ok d'.
Proof.
  intros Hv Hy. apply valid_iff in Hv. destruct Hv as [[Hy' [Hm Hd]] _].
  rewrite add_relativedelta_year_eq. unfold replace.
  match goal with |- context [check_date_fields ?a ?b ?c] =>
    assert (check_date_fields a b c = true) as ->; [|eauto] end.
  apply check_date_fields_iff.
  pose proof (monthrange_ndays_bounds (year d + 1) (month d)). lia.
Qed.

End DatetimeFacts.

(** ** The loop bodies *)

Section BodyFacts.
Import Calendar Datetime Models EventService.

Lemma gt_negb_le a b : gt a b = negb (le a b).
Proof. unfold gt, le. apply Z.ltb_antisym. Qed.

Lemma days_before_month_next_year y m :
  1 <= m <= 12 ->
  days_before_month y m <= days_before_month (y + 1) m + (if isleap y then 1 else 0).
Proof.
  intros H. month_cases m; unfold days_before_month; cbn -[Z.add];
    destruct (isleap y), (isleap (y + 1)); lia.
Qed.

(** The [YEAR] body always moves to the next year, at least a day later,
    keeping hour, minute, second and tzinfo. *)
Lemma year_body_spec pol anchor c c' :
  valid c = true -> year_body pol anchor c = Ok c' ->
  valid c' = true /\ utc_us c + US_PER_DAY <= utc_us c' /\
  same_clock_time c c' /\ year c' = year c + 1.
Proof.
  intros Hv H. unfold year_body in H.
  destruct ((month anchor =? 2) && (day anchor =? 29)).
  2:{ destruct (year_step_spec _ _ Hv H) as (H1 & H2 & H3 & _ & H4 & _).
      split; [|split; [|split]]; assumption. }
  pose proof Hv as Hv'. apply valid_iff in Hv'.
  destruct Hv' as [[Hy [Hm Hd]] [Ht Ho]].
  pose proof (days_before_month_bounds (year c) (month c) Hm) as Hdbm.
  pose proof (days_before_year_succ (year c)) as Hdby.
  destruct (isleap (year c + 1)) eqn:Eleap.
  - apply replace_Ok in H. destruct H as [Hchk ->].
    apply check_date_fields_iff in Hchk.
    pose proof (days_before_month_next_year (year c) (month c) Hm).
    unfold same_clock_time, utc_us, toordinal, time_of_day_us, ymd2ord,
      US_PER_DAY, US_PER_SECOND.
    rewrite valid_iff. simpl. repeat split; try lia.
  - unfold days_before_month in Hdbm.
    destruct (String.eqb pol "mar01");
      apply new_Ok in H; destruct H as (Hchk & _ & ->);
      apply check_date_fields_iff in Hchk;
      unfold same_clock_time, utc_us, toordinal, time_of_day_us, ymd2ord,
        days_before_month, US_PER_DAY, US_PER_SECOND;
      rewrite valid_iff; simpl; rewrite ?Eleap; simpl;
      repeat split; try lia.
Qed.

Lemma year_body_ok pol anchor c :
  valid c = true -> year c <= 9998 -> exists c', year_body pol anchor c = Ok c'.
Proof.
  intros Hv Hy. unfold year_body.
  destruct ((month anchor =? 2) && (day anchor =? 29)).
  2:{ apply year_step_ok; assumption. }
  apply valid_iff in Hv. destruct Hv as [[Hy' [Hm Hd]] [Ht Ho]].
  destruct (isleap (year c + 1)) eqn:Eleap.
  - unfold replace.
    match goal with |- context [check_date_fields ?a ?b ?d] =>
      assert (check_date_fields a b d = true) as ->; [|eauto] end.
    apply check_date_fields_iff.
    unfold monthrange_ndays in *. rewrite Eleap. revert Hd.
    destruct (month c =? 2), (isleap (year c)); cbn -[Z.add]; lia.
  - assert (check_time_fields (hour c) (minute c) (second c) 0 = true) as Htime
        by (apply check_time_fields_iff; lia).
    unfold new. rewrite Htime.
    destruct (String.eqb pol "mar01").
    + assert (check_date_fields (year c + 1) 3 1 = true) as ->; [|simpl; eauto].
      apply check_date_fields_iff. unfold monthrange_ndays. simpl. lia.
    + assert (check_date_fields (year c + 1) 2 28 = true) as ->; [|simpl; eauto].
      apply check_date_fields_iff. unfold monthrange_ndays. rewrite Eleap. simpl. lia.
Qed.

(** Every loop body moves a valid candidate to a valid one, at least one
    day later, with the same hour, minute, second and tzinfo. *)
Lemma rule_body_advances pol anchor rule c c' :
  valid c = true -> rule_body pol anchor rule c = Ok c' ->
  valid c' = true /\ utc_us c + US_PER_DAY <= utc_us c' /\ same_clock_time c c'.
Proof.
  intros Hv H. destruct rule; simpl in H.
  - destruct (year_body_spec _ _ _ _ Hv H) as (? & ? & ? & _).
    split; [|split]; assumption.
  - destruct (add_days_spec 1 _ _ Hv H) as (? & Hu & _ & ? & _).
    split; [|split]; try assumption. lia.
  - destruct (add_days_spec 7 _ _ Hv H) as (? & Hu & _ & ? & _).
    split; [|split]; try assumption.
    unfold US_PER_DAY, US_PER_SECOND in *. lia.
  - destruct (month_step_spec _ _ Hv H) as (? & ? & ? & _).
    split; [|split]; assumption.
  - destruct (year_body_spec _ _ _ _ Hv H) as (? & ? & ? & _).
    split; [|split]; assumption.
Qed.

(** No body raises on a candidate dated before year 9999. *)
Lemma rule_body_ok pol anchor rule c :
  valid c = true -> year c <= 9998 -> exists c', rule_body pol anchor rule c = Ok c'.
Proof.
  intros Hv Hy.
  assert (toordinal c + 7 <= days_before_year (MAXYEAR + 1)) as Hord.
  { pose proof (toordinal_bounds c Hv) as [_ Hb].
    pose proof (days_before_year_mono (year c + 1) 9999 ltac:(lia)).
    pose proof (days_before_year_succ 9999).
    unfold MAXYEAR. destruct (isleap 9999); lia. }
  destruct rule; unfold rule_body.
  - apply year_body_ok; assumption.
  - apply add_days_ok; [assumption|]. simpl Z.of_nat. lia.
  - apply add_days_ok; [assumption|]. simpl Z.of_nat. lia.
  - apply month_step_ok; assumption.
  - apply year_body_ok; assumption.
Qed.

(** A candidate not after [now] is dated before 9999 when [now] is dated
    before 9998: the two local dates are at most two days apart. *)
Lemma candidate_year_bound c now :
  valid c = true -> valid now = true ->
  le c now = true -> year now <= 9997 -> year c <= 9998.
Proof.
  intros Hc Hn Hle Hy. unfold le in Hle. apply Z.leb_le in Hle.
  pose proof (utc_us_bounds c Hc) as [Hc1 _].
  pose proof (utc_us_bounds now Hn) as [_ Hn2].
  pose proof (toordinal_bounds c Hc) as [Hc3 _].
  pose proof (toordinal_bounds now Hn) as [_ Hn4].
  destruct (Z_le_gt_dec (year c) 9998) as [|Hgt]; [assumption|exfalso].
  pose proof (days_before_year_mono 9999 (year c) ltac:(lia)).
  pose proof (days_before_year_mono (year now + 1) 9998 ltac:(lia)).
  pose proof (days_before_year_succ 9998) as Hs.
  change (9998 + 1) with 9999 in Hs.
  unfold US_PER_DAY, US_PER_SECOND in *.
  destruct (isleap 9998); lia.
Qed.

End BodyFacts.

(** ** Sequences of candidates *)

Section CandidateFacts.
Import Calendar Datetime Models EventService.

Variable body : datetime -> result datetime.

Lemma nth_occurrence_plus j : forall d c,
  nth_occurrence body (j + d) c =
  match nth_occurrence body j c with
  | Ok c' => nth_occurrence body d c'
  | Raise e => Raise e
  end.
Proof.
  induction j as [|j IH]; intros d c; simpl.
  - reflexivity.
  - destruct (body c) as [c1|e]; [apply IH | reflexivity].
Qed.

Lemma nth_occurrence_last k c :
  nth_occurrence body (S k) c =
  match nth_occurrence body k c with
  | Ok c' => body c'
  | Raise e => Raise e
  end.
Proof.
  replace (S k) with (k + 1)%nat by lia. rewrite nth_occurrence_plus.
  destruct (nth_occurrence body k c) as [c'|e]; [|reflexivity].
  simpl. destruct (body c'); reflexivity.
Qed.

(** A property kept by every step holds of every candidate. *)
Lemma nth_occurrence_invariant (P : datetime -> Prop) :
  (forall c c', P c -> body c = Ok c' -> P c') ->
  forall k c r, P c -> nth_occurrence body k c = Ok r -> P r.
Proof.
  intros Hstep. induction k as [|k IH]; intros c r Hc H; simpl in H.
  - inversion H; subst. exact Hc.
  - destruct (body c) as [c1|e] eqn:E; [|discriminate].
    apply (IH c1); [apply (Hstep c); assumption | assumption].
Qed.

(** The candidates of an advancing body never go back. *)
Lemma nth_occurrence_monotone :
  (forall c c', valid c = true -> body c = Ok c' ->
                valid c' = true /\ utc_us c + US_PER_DAY <= utc_us c') ->
  forall d c r, valid c = true -> nth_occurrence body d c = Ok r ->
                valid r = true /\ utc_us c <= utc_us r.
Proof.
  intros Hadv. induction d as [|d IH]; intros c r Hv H; simpl in H.
  - inversion H; subst. split; [assumption | lia].
  - destruct (body c) as [c1|e] eqn:E; [|discriminate].
    destruct (Hadv _ _ Hv E) as [Hv1 Hlt].
    destruct (IH _ _ Hv1 H) as [Hvr Hle].
    split; [assumption|]. unfold US_PER_DAY, US_PER_SECOND in Hlt. lia.
Qed.

End CandidateFacts.

(** ** The advancing loop *)

Section LoopFacts.
Import Datetime EventService.

Variable body : datetime -> result datetime.
Variable now : datetime.

(** Each iteration moves a valid candidate at least one day forward. *)
Hypothesis body_advances : forall c c',
  valid c = true -> body c = Ok c' ->
  valid c' = true /\ utc_us c + US_PER_DAY <= utc_us c'.

Lemma while_le_exit fuel c :
  le c now = false -> while_le fuel body now c = Some (Ok c).
Proof. intros H. destruct fuel; simpl; rewrite H; reflexivity. Qed.

Lemma while_le_step fuel c c' :
  le c now = true -> body c = Ok c' ->
  while_le (S fuel) body now c = while_le fuel body now c'.
Proof. intros H E. simpl. rewrite H, E. reflexivity. Qed.

Lemma while_le_raise fuel c e :
  le c now = true -> body c = Raise e ->
  while_le (S fuel) body now c = Some (Raise e).
Proof. intros H E. simpl. rewrite H, E. reflexivity. Qed.

(** The loop returns the first candidate after [now]. *)
Lemma while_le_first k : forall c r,
  nth_occurrence body k c = Ok r ->
  gt r now = true ->
  (forall j, (j < k)%nat ->
             exists cj, nth_occurrence body j c = Ok cj /\ le cj now = true) ->
  forall fuel, (k <= fuel)%nat -> while_le fuel body now c = Some (Ok r).
Proof.
  induction k as [|k IH]; intros c r Hnth Hgt Hbefore fuel Hfuel.
  - simpl in Hnth. inversion Hnth; subst r.
    apply while_le_exit. rewrite gt_negb_le in Hgt.
    destruct (le c now); [discriminate | reflexivity].
  - destruct (Hbefore O ltac:(lia)) as (c0 & E0 & Hle0).
    simpl in E0. inversion E0; subst c0.
    simpl in Hnth. destruct (body c) as [c1|] eqn:E; [|discriminate].
    destruct fuel as [|fuel]; [lia|].
    rewrite (while_le_step fuel c c1 Hle0 E).
    apply IH; [assumption | assumption | | lia].
    intros j Hj. destruct (Hbefore (S j) ltac:(lia)) as (cj & Ej & Hlej).
    simpl in Ej. rewrite E in Ej. eauto.
Qed.

(** Within [n] days of [now] the loop is left after at most [n]
    iterations, by a return or by an exception of the body. *)
Lemma while_le_terminates n : forall c,
  valid c = true ->
  utc_us now - utc_us c < Z.of_nat n * US_PER_DAY ->
  exists out, forall fuel, (n <= fuel)%nat -> while_le fuel body now c = Some out.
Proof.
  induction n as [|n IH]; intros c Hv Hdist.
  - exists (Ok c). intros fuel _. apply while_le_exit.
    unfold le. apply Z.leb_gt. lia.
  - destruct (le c now) eqn:Hle.
    2:{ exists (Ok c). intros fuel _. apply while_le_exit. assumption. }
    destruct (body c) as [c1|e] eqn:E.
    + destruct (body_advances _ _ Hv E) as [Hv1 Hadv].
      destruct (IH c1 Hv1) as [out Hout]; [lia|].
      exists out. intros [|fuel] Hfuel; [lia|].
      rewrite (while_le_step fuel c c1 Hle E). apply Hout. lia.
    + exists (Raise e). intros [|fuel] Hfuel; [lia|].
      apply while_le_raise; assumption.
Qed.

(** What the loop returns is the first candidate after [now]. *)
Lemma while_le_sound fuel : forall c r,
  while_le fuel body now c = Some (Ok r) ->
  exists k, (k <= fuel)%nat /\ first_after_now body now c k r.
Proof.
  induction fuel as [|fuel IH]; intros c r H; simpl in H;
    destruct (le c now) eqn:Hle; try discriminate.
  - inversion H; subst r. exists O. split; [lia|].
    split; [reflexivity|]. split; [rewrite gt_negb_le, Hle; reflexivity|].
    intros j Hj. lia.
  - destruct (body c) as [c1|e] eqn:E; [|discriminate].
    destruct (IH c1 r H) as (k & Hk & Hnth & Hgt & Hbefore).
    exists (S k). split; [lia|].
    split; [simpl; rewrite E; exact Hnth|]. split; [exact Hgt|].
    intros [|j] Hj.
    + exists c. split; [reflexivity | exact Hle].
    + simpl. rewrite E. apply Hbefore. lia.
  - inversion H; subst r. exists O. split; [lia|].
    split; [reflexivity|]. split; [rewrite gt_negb_le, Hle; reflexivity|].
    intros j Hj. lia.
Qed.

(** A sequence that gets past [now] has a first candidate after [now]. *)
Lemma first_after_now_of_later k : forall c r,
  nth_occurrence body k c = Ok r -> gt r now = true ->
  exists k' r', (k' <= k)%nat /\ first_after_now body now c k' r'.
Proof.
  induction k as [|k IH]; intros c r Hnth Hgt.
  - simpl in Hnth. inversion Hnth; subst r. exists O, c. split; [lia|].
    split; [reflexivity|]. split; [exact Hgt|]. intros j Hj. lia.
  - destruct (le c now) eqn:Hle.
    + simpl in Hnth. destruct (body c) as [c1|e] eqn:E; [|discriminate].
      destruct (IH c1 r Hnth Hgt) as (k' & r' & Hk' & Hn' & Hg' & Hb').
      exists (S k'), r'. split; [lia|].
      split; [simpl; rewrite E; exact Hn'|]. split; [exact Hg'|].
      intros [|j] Hj.
      * exists c. split; [reflexivity | exact Hle].
      * simpl. rewrite E. apply Hb'. lia.
    + exists O, c. split; [lia|].
      split; [reflexivity|]. split; [rewrite gt_negb_le, Hle; reflexivity|].
      intros j Hj. lia.
Qed.

(** When the body does not raise on candidates up to [now], some candidate
    is the first one after [now]. *)
Hypothesis body_ok : forall c,
  valid c = true -> le c now = true -> exists c', body c = Ok c'.

Lemma first_after_exists n : forall c,
  valid c = true ->
  utc_us now - utc_us c < Z.of_nat n * US_PER_DAY ->
  exists k r,
    (k <= n)%nat /\ nth_occurrence body k c = Ok r /\ valid r = true /\
    gt r now = true /\
    (forall j, (j < k)%nat ->
               exists cj, nth_occurrence body j c = Ok cj /\ le cj now = true).
Proof.
  induction n as [|n IH]; intros c Hv Hdist.
  - exists O, c.
    split; [lia|]. split; [reflexivity|]. split; [assumption|].
    split; [|intros j Hj; lia].
    unfold gt. apply Z.ltb_lt. lia.
  - destruct (le c now) eqn:Hle.
    2:{ exists O, c.
        split; [lia|]. split; [reflexivity|]. split; [assumption|].
        split; [|intros j Hj; lia].
        rewrite gt_negb_le, Hle. reflexivity. }
    destruct (body_ok c Hv Hle) as [c1 E].
    destruct (body_advances _ _ Hv E) as [Hv1 Hadv].
    destruct (IH c1 Hv1) as (k & r & Hk & Hnth & Hvr & Hgt & Hbefore); [lia|].
    exists (S k), r.
    split; [lia|]. split; [simpl; rewrite E; assumption|].
    split; [assumption|]. split; [assumption|].
    intros [|j] Hj.
    + exists c. split; [reflexivity | assumption].
    + simpl. rewrite E. apply Hbefore. lia.
Qed.

End LoopFacts.

Section ServiceFacts.
Import Calendar Datetime Models EventService.

Lemma enough_fuel_spec now anchor :
  utc_us now - utc_us anchor < Z.of_nat (enough_fuel now anchor) * US_PER_DAY.
Proof.
  unfold enough_fuel. rewrite Nat2Z.inj_succ.
  set (a := utc_us now - utc_us anchor).
  unfold US_PER_DAY, US_PER_SECOND.
  pose proof (Z2Nat.id (a / (86400 * 1000000))) as Hpos.
  pose proof (Zle_0_nat (Z.to_nat (a / (86400 * 1000000)))) as Hnat.
  destruct (Z_le_gt_dec 0 (a / (86400 * 1000000))) as [Hq|Hq].
  - rewrite Hpos by assumption. Z.div_mod_to_equations. lia.
  - Z.div_mod_to_equations. lia.
Qed.

(** For a recurring rule whose anchor is not after [now], the service runs
    the loop of that rule. *)
Lemma calculate_next_occurrence_loop fuel w anchor rule :
  rule <> NONE -> gt anchor (utc_now w) = false ->
  calculate_next_occurrence fuel w anchor rule =
  returning (while_le fuel (rule_body (LEAP_POLICY w) anchor rule) (utc_now w) anchor).
Proof.
  intros Hr Hgt. unfold calculate_next_occurrence. rewrite Hgt.
  destruct rule; try reflexivity. contradiction.
Qed.

Lemma anchor_after_now_returned fuel w anchor rule :
  rule <> NONE -> gt anchor (utc_now w) = true ->
  calculate_next_occurrence fuel w anchor rule = Some (Ok (Some anchor)).
Proof.
  intros Hr Hgt. unfold calculate_next_occurrence. rewrite Hgt.
  destruct rule; try reflexivity. contradiction.
Qed.

Lemma le_gt_false a b : le a b = true -> gt a b = false.
Proof. intros H. rewrite gt_negb_le, H. reflexivity. Qed.

End ServiceFacts.

(** ** Remaining seconds *)

Section RemainingFacts.
Import Datetime EventService.

Lemma calculate_remaining_seconds_swap a b :
  calculate_remaining_seconds b a = - calculate_remaining_seconds a b.
Proof.
  unfold calculate_remaining_seconds, total_seconds, sub.
  replace (utc_us b - utc_us a) with (- (utc_us a - utc_us b)) by lia.
  apply truediv_opp.
Qed.

Lemma calculate_remaining_seconds_nonneg a b :
  utc_us b <= utc_us a -> 0 <= calculate_remaining_seconds a b.
Proof.
  intros H. unfold calculate_remaining_seconds, total_seconds, sub.
  apply truediv_nonneg; [lia | reflexivity].
Qed.

(** A due instant at least [lo] whole seconds away gives at least [lo]. *)
Lemma calculate_remaining_seconds_lower a b lo :
  0 <= lo <= 2 ^ 52 -> utc_us b + lo * US_PER_SECOND <= utc_us a ->
  lo <= calculate_remaining_seconds a b.
Proof.
  intros Hlo H. unfold calculate_remaining_seconds, total_seconds, sub.
  apply truediv_lower; [reflexivity | assumption | lia].
Qed.

(** A due instant at most [hi] whole seconds away gives at most [hi]. *)
Lemma calculate_remaining_seconds_upper a b hi :
  utc_us b <= utc_us a <= utc_us b + hi * US_PER_SECOND -> hi < 2 ^ 53 ->
  calculate_remaining_seconds a b <= hi.
Proof.
  intros H Hhi. unfold calculate_remaining_seconds, total_seconds, sub.
  apply truediv_upper; [reflexivity | lia | assumption].
Qed.

(** Instants less than 2^34 seconds apart: the float carries the quotient
    closely enough for [int] to give the exact difference in seconds,
    truncated toward zero. *)
Lemma calculate_remaining_seconds_exact a b :
  - (2 ^ 34 * US_PER_SECOND) < utc_us a - utc_us b < 2 ^ 34 * US_PER_SECOND ->
  calculate_remaining_seconds a b = Z.quot (utc_us a - utc_us b) US_PER_SECOND.
Proof.
  intros H.
  assert (Hpos : forall x y, 0 <= utc_us x - utc_us y < 2 ^ 34 * US_PER_SECOND ->
            calculate_remaining_seconds x y =
            Z.quot (utc_us x - utc_us y) US_PER_SECOND).
  { intros x y Hxy. unfold calculate_remaining_seconds, total_seconds, sub.
    rewrite truediv_exact; [|unfold US_PER_SECOND; simpl; lia | lia].
    symmetry. apply Z.quot_div_nonneg; [lia | reflexivity]. }
  destruct (Z_le_gt_dec 0 (utc_us a - utc_us b)) as [Hge|Hlt].
  - apply Hpos. lia.
  - rewrite calculate_remaining_seconds_swap, Hpos by lia.
    replace (utc_us b - utc_us a) with (- (utc_us a - utc_us b)) by lia.
    rewrite Z.quot_opp_l by (unfold US_PER_SECOND; lia). lia.
Qed.

(** The sign of the result, for any two instants. *)
Lemma calculate_remaining_seconds_cases a b :
  (utc_us a + US_PER_SECOND <= utc_us b -> calculate_remaining_seconds a b <= -1) /\
  (utc_us b - US_PER_SECOND < utc_us a < utc_us b + US_PER_SECOND ->
   calculate_remaining_seconds a b = 0) /\
  (utc_us b + US_PER_SECOND <= utc_us a -> 1 <= calculate_remaining_seconds a b).
Proof.
  split; [|split].
  - intros H. rewrite calculate_remaining_seconds_swap.
    pose proof (calculate_remaining_seconds_lower b a 1 ltac:(simpl; lia) ltac:(lia)).
    lia.
  - intros H. rewrite calculate_remaining_seconds_exact.
    + unfold US_PER_SECOND in *. Z.to_euclidean_division_equations. lia.
    + unfold US_PER_SECOND in *. simpl. lia.
  - intros H. apply calculate_remaining_seconds_lower; [simpl; lia | lia].
Qed.

Lemma calculate_remaining_seconds_neg_iff a b :
  calculate_remaining_seconds a b < 0 <-> utc_us a + US_PER_SECOND <= utc_us b.
Proof.
  destruct (calculate_remaining_seconds_cases a b) as (Hneg & Hzero & Hpos).
  split; intros H; [|specialize (Hneg H); lia].
  assert (utc_us a + US_PER_SECOND <= utc_us b \/
          utc_us b - US_PER_SECOND < utc_us a < utc_us b + US_PER_SECOND \/
          utc_us b + US_PER_SECOND <= utc_us a) as Hcases by (unfold US_PER_SECOND; lia).
  destruct Hcases as [Hc | [Hc | Hc]];
    [assumption | specialize (Hzero Hc); lia | specialize (Hpos Hc); lia].
Qed.

End RemainingFacts.

(** ** The sequence of the specification *)

Section SequenceFacts.
Import Calendar Datetime Models EventService.

Lemma add_days_plus a : forall b c,
  add_days (a + b) c =
  match add_days a c with
  | Ok c' => add_days b c'
  | Raise e => Raise e
  end.
Proof.
  induction a as [|a IH]; intros b c; simpl.
  - reflexivity.
  - destruct (add_one_day c) as [c1|e]; [apply IH | reflexivity].
Qed.

(** [k] steps of [n] days are one step of [n * k] days. *)
Lemma nth_occurrence_add_days_eq n k : forall c,
  nth_occurrence (add_days n) k c = add_days (n * k) c.
Proof.
  induction k as [|k IH]; intros c.
  - rewrite Nat.mul_0_r. reflexivity.
  - rewrite Nat.mul_succ_r, Nat.add_comm, add_days_plus. simpl.
    destruct (add_days n c) as [c1|e]; [apply IH | reflexivity].
Qed.

Lemma nth_occurrence_ext body1 body2 :
  (forall c, body1 c = body2 c) ->
  forall k c, nth_occurrence body1 k c = nth_occurrence body2 k c.
Proof.
  intros Hb. induction k as [|k IH]; intros c; simpl.
  - reflexivity.
  - rewrite Hb. destruct (body2 c); [apply IH | reflexivity].
Qed.

Lemma replace_same a :
  valid a = true -> replace a (year a) (month a) (day a) = Ok a.
Proof.
  intros Hv. unfold replace.
  assert (check_date_fields (year a) (month a) (day a) = true) as ->.
  { apply valid_iff in Hv. apply check_date_fields_iff. tauto. }
  destruct a; reflexivity.
Qed.

(** A day of month up to 28 fits every month. *)
Lemma min_monthrange_small y m d :
  1 <= m <= 12 -> d <= 28 -> Z.min (monthrange_ndays y m) d = d.
Proof.
  intros Hm Hd. pose proof (monthrange_ndays_bounds y m Hm). lia.
Qed.

(** [anchor + relativedelta(months=t)] for an anchor on day 1..28: the
    month counted on from the anchor's, the day kept. *)
Lemma add_months_closed a t :
  valid a = true -> day a <= 28 -> 0 <= t ->
  add_relativedelta (t / 12) (t mod 12) a =
  replace a (year a + (month a - 1 + t) / 12) ((month a - 1 + t) mod 12 + 1) (day a).
Proof.
  intros Hv Hd Ht. apply valid_iff in Hv. destruct Hv as [[Hy [Hm _]] _].
  unfold add_relativedelta.
  pose proof (Z.mod_pos_bound t 12 ltac:(lia)) as Hmod.
  assert (Heq : (if t mod 12 =? 0 then (year a + t / 12, month a)
                 else if month a + t mod 12 >? 12
                      then (year a + t / 12 + 1, month a + t mod 12 - 12)
                      else if month a + t mod 12 <? 1
                           then (year a + t / 12 - 1, month a + t mod 12 + 12)
                           else (year a + t / 12, month a + t mod 12)) =
                (year a + (month a - 1 + t) / 12, (month a - 1 + t) mod 12 + 1)).
  { destruct (Z.eqb_spec (t mod 12) 0).
    - f_equal; Z.div_mod_to_equations; lia.
    - destruct (Z.gtb_spec (month a + t mod 12) 12).
      + f_equal; Z.div_mod_to_equations; lia.
      + destruct (Z.ltb_spec (month a + t mod 12) 1); [lia|].
        f_equal; Z.div_mod_to_equations; lia. }
  rewrite Heq. cbv beta iota zeta.
  rewrite min_monthrange_small; [reflexivity | | assumption].
  Z.div_mod_to_equations. lia.
Qed.

Lemma nth_occurrence_months k : forall a,
  valid a = true -> day a <= 28 ->
  nth_occurrence (add_relativedelta 0 1) k a =
  replace a (year a + (month a - 1 + Z.of_nat k) / 12)
            ((month a - 1 + Z.of_nat k) mod 12 + 1) (day a).
Proof.
  induction k as [|k IH]; intros a Hv Hd.
  - simpl nth_occurrence. pose proof Hv as Hv'. apply valid_iff in Hv'.
    replace ((month a - 1 + Z.of_nat 0) / 12) with 0
      by (simpl Z.of_nat; Z.div_mod_to_equations; lia).
    replace ((month a - 1 + Z.of_nat 0) mod 12 + 1) with (month a)
      by (simpl Z.of_nat; Z.div_mod_to_equations; lia).
    rewrite Z.add_0_r. symmetry. apply replace_same. exact Hv.
  - rewrite nth_occurrence_last, (IH a Hv Hd). rewrite Nat2Z.inj_succ.
    pose proof Hv as Hv'. apply valid_iff in Hv'. destruct Hv' as [[Hy [Hm Hday]] _].
    set (t := Z.of_nat k). assert (0 <= t) as Ht by (unfold t; lia).
    unfold replace at 1.
    destruct (check_date_fields (year a + (month a - 1 + t) / 12)
                                ((month a - 1 + t) mod 12 + 1) (day a)) eqn:Echk.
    + apply check_date_fields_iff in Echk.
      rewrite add_relativedelta_month_eq by (simpl; lia).
      unfold next_month. cbn [year month day fst snd].
      assert (Hnext : (if (month a - 1 + t) mod 12 + 1 <? 12
                       then (year a + (month a - 1 + t) / 12,
                             (month a - 1 + t) mod 12 + 1 + 1)
                       else (year a + (month a - 1 + t) / 12 + 1, 1)) =
                      (year a + (month a - 1 + Z.succ t) / 12,
                       (month a - 1 + Z.succ t) mod 12 + 1)).
      { destruct (Z.ltb_spec ((month a - 1 + t) mod 12 + 1) 12);
          f_equal; Z.div_mod_to_equations; lia. }
      rewrite Hnext. cbn [fst snd].
      rewrite min_monthrange_small; [reflexivity | | assumption].
      Z.div_mod_to_equations. lia.
    + unfold replace.
      assert (check_date_fields (year a + (month a - 1 + Z.succ t) / 12)
                                ((month a - 1 + Z.succ t) mod 12 + 1) (day a) = false)
        as ->; [|reflexivity].
      destruct (check_date_fields (year a + (month a - 1 + Z.succ t) / 12)
                                  ((month a - 1 + Z.succ t) mod 12 + 1) (day a)) eqn:E2;
        [|reflexivity].
      exfalso. apply check_date_fields_iff in E2.
      assert (check_date_fields (year a + (month a - 1 + t) / 12)
                                ((month a - 1 + t) mod 12 + 1) (day a) = true) as Hc;
        [|rewrite Hc in Echk; discriminate].
      apply check_date_fields_iff.
      pose proof (monthrange_ndays_bounds (year a + (month a - 1 + t) / 12)
                    ((month a - 1 + t) mod 12 + 1)
                    ltac:(Z.div_mod_to_equations; lia)).
      repeat split; try lia; Z.div_mod_to_equations; lia.
Qed.

(** A date other than February 29 exists in every year. *)
Lemma min_monthrange_not_feb29 a y :
  valid a = true -> is_feb29 a = false ->
  Z.min (monthrange_ndays y (month a)) (day a) = day a.
Proof.
  intros Hv Hf. apply valid_iff in Hv. destruct Hv as [[_ [Hm Hd]] _].
  unfold is_feb29 in Hf. apply andb_false_iff in Hf.
  revert Hd Hf. unfold monthrange_ndays.
  set (m := month a) in *. clearbody m.
  destruct (Z.eqb_spec m 2) as [-> | Hne].
  - destruct (Z.eqb_spec (day a) 29); intros Hd [Hf | Hf]; try discriminate;
      revert Hd; cbn -[Z.add Z.min]; destruct (isleap (year a)), (isleap y); lia.
  - intros Hd _. cbn -[Z.add Z.min] in *. lia.
Qed.

Lemma nth_occurrence_years k : forall a,
  valid a = true -> is_feb29 a = false ->
  nth_occurrence (add_relativedelta 1 0) k a =
  replace a (year a + Z.of_nat k) (month a) (day a).
Proof.
  induction k as [|k IH]; intros a Hv Hf.
  - simpl nth_occurrence. simpl Z.of_nat. rewrite Z.add_0_r.
    symmetry. apply replace_same. exact Hv.
  - rewrite nth_occurrence_last, (IH a Hv Hf). rewrite Nat2Z.inj_succ.
    set (t := Z.of_nat k). assert (0 <= t) as Ht by (unfold t; lia).
    pose proof Hv as Hv'. apply valid_iff in Hv'. destruct Hv' as [[Hy [Hm Hday]] _].
    unfold replace at 1.
    destruct (check_date_fields (year a + t) (month a) (day a)) eqn:Echk.
    + rewrite add_relativedelta_year_eq. cbn [year month day].
      rewrite min_monthrange_not_feb29 by assumption.
      replace (year a + t + 1) with (year a + Z.succ t) by lia. reflexivity.
    + unfold replace.
      destruct (check_date_fields (year a + Z.succ t) (month a) (day a)) eqn:E2;
        [|reflexivity].
      exfalso. apply check_date_fields_iff in E2.
      assert (check_date_fields (year a + t) (month a) (day a) = true) as Hc;
        [|rewrite Hc in Echk; discriminate].
      apply check_date_fields_iff.
      pose proof (min_monthrange_not_feb29 a (year a + t) Hv Hf). lia.
Qed.

(** Where no day is clamped, the candidates of the loop are the elements
    of the sequence [anchor + k * step]. *)
Lemma nth_occurrence_is_anchor_plus_steps pol anchor rule k :
  rule <> NONE ->
  valid anchor = true ->
  (rule = MONTH -> day anchor <= 28) ->
  (rule = YEAR -> is_feb29 anchor = false) ->
  nth_occurrence (rule_body pol anchor rule) k anchor = anchor_plus_steps rule k anchor.
Proof.
  intros Hr Hv Hmonth Hyear.
  destruct rule; try contradiction; cbn [rule_body anchor_plus_steps].
  - rewrite nth_occurrence_add_days_eq, Nat.mul_1_l. reflexivity.
  - apply nth_occurrence_add_days_eq.
  - rewrite nth_occurrence_months by auto.
    symmetry. apply add_months_closed; auto. lia.
  - specialize (Hyear eq_refl).
    rewrite (nth_occurrence_ext (year_body pol anchor) (add_relativedelta 1 0)).
    + rewrite nth_occurrence_years by assumption.
      unfold add_relativedelta. change (0 =? 0) with true. cbv beta iota zeta.
      rewrite min_monthrange_not_feb29 by assumption. reflexivity.
    + intros c. unfold year_body. unfold is_feb29 in Hyear. rewrite Hyear. reflexivity.
Qed.

End SequenceFacts.

Section SequenceOrder.
Import Datetime.

(** The loop's candidates and a sequence that agrees with them have the
    same first element after [now]. *)
Lemma first_after_now_exceeding body sequence now anchor k r :
  (forall j, nth_occurrence body j anchor = sequence j) ->
  first_after_now body now anchor k r <-> first_exceeding sequence now k r.
Proof.
  intros Hseq. unfold first_after_now, first_exceeding. rewrite Hseq.
  split; intros (H1 & H2 & H3); (split; [exact H1|]); (split; [exact H2|]);
    intros j Hj; destruct (H3 j Hj) as (c & Hc & Hle); exists c;
    (split; [|exact Hle]); [rewrite <- Hseq | rewrite Hseq]; exact Hc.
Qed.

End SequenceOrder.

(** * The properties *)

(** ** Urgency tiers *)

Section Tiers.
Import Schemas EventService.

(** C1.  For every integer [remaining_seconds], [get_color_bucket] returns
    the tier of the row of the table that holds it, and no other row
    applies: absent below 0, then RED, ORANGE, YELLOW, GREEN, CYAN, BLUE on
    the half-open intervals bounded by 1, 7, 30, 90, 365 and 3*365 days,
    and PURPLE from 3*365 days on.  Every boundary value falls in the
    higher tier. *)
Theorem get_color_bucket_tier_table :
  (forall remaining_seconds : Z,
      tier_row remaining_seconds (get_color_bucket remaining_seconds) /\
      (forall t, tier_row remaining_seconds t ->
                 t = get_color_bucket remaining_seconds)) /\
  get_color_bucket (-1) = None /\
  get_color_bucket (-86400) = None /\
  get_color_bucket (-31536000) = None /\
  get_color_bucket 0 = Some RED /\
  get_color_bucket 86399 = Some RED /\
  get_color_bucket 86400 = Some ORANGE /\
  get_color_bucket (7 * 86400 - 1) = Some ORANGE /\
  get_color_bucket (7 * 86400) = Some YELLOW /\
  get_color_bucket (30 * 86400 - 1) = Some YELLOW /\
  get_color_bucket (30 * 86400) = Some GREEN /\
  get_color_bucket (90 * 86400 - 1) = Some GREEN /\
  get_color_bucket (90 * 86400) = Some CYAN /\
  get_color_bucket (365 * 86400 - 1) = Some CYAN /\
  get_color_bucket (365 * 86400) = Some BLUE /\
  get_color_bucket (3 * 365 * 86400 - 1) = Some BLUE /\
  get_color_bucket (3 * 365 * 86400) = Some PURPLE.
Proof.
  split; [|repeat split].
  intros r. unfold get_color_bucket.
  repeat match goal with
         | |- context [?a <? ?b] => destruct (Z.ltb_spec a b)
         end;
    (split; [constructor; lia | intros t Ht; inversion Ht; subst; (reflexivity || lia)]).
Qed.

End Tiers.

(** ** The occurrence calculator *)

Section Occurrences.
Import Calendar Datetime Models EventService Samples.

(** C6.  For every recurring rule, an anchor after the clock reading is
    returned unchanged, whatever the fuel. *)
Theorem future_anchor_is_returned fuel w anchor rule :
  rule <> NONE ->
  gt anchor (utc_now w) = true ->
  calculate_next_occurrence fuel w anchor rule = Some (Ok (Some anchor)).
Proof.
  intros Hr Hgt. apply anchor_after_now_returned; assumption.
Qed.

Lemma future_anchor_is_returned_witness :
  calculate_next_occurrence 0 world_2026_11_04 anchor_2027_06_15 YEAR
  = Some (Ok (Some anchor_2027_06_15)).
Proof.
  apply (future_anchor_is_returned 0 world_2026_11_04 anchor_2027_06_15 YEAR).
  - discriminate.
  - reflexivity.
Defined.

Lemma while_le_same_instant fuel body : forall now1 now2 c,
  utc_us now1 = utc_us now2 ->
  while_le fuel body now1 c = while_le fuel body now2 c.
Proof.
  induction fuel as [|fuel IH]; intros now1 now2 c H; simpl; unfold le; rewrite H.
  - reflexivity.
  - destruct (utc_us c <=? utc_us now2); [|reflexivity].
    destruct (body c); [apply IH; assumption | reflexivity].
Qed.

Lemma year_body_policy_irrelevant pol1 pol2 anchor c :
  is_feb29 anchor = false -> year_body pol1 anchor c = year_body pol2 anchor c.
Proof. unfold year_body, is_feb29. intros ->. reflexivity. Qed.

Lemma while_le_same_body fuel body1 body2 now :
  (forall c, body1 c = body2 c) ->
  forall c, while_le fuel body1 now c = while_le fuel body2 now c.
Proof.
  intros Hb. induction fuel as [|fuel IH]; intros c; simpl.
  - reflexivity.
  - destruct (le c now); [|reflexivity]. rewrite Hb.
    destruct (body2 c); [apply IH | reflexivity].
Qed.

(** C3, as the code has it.  The function takes the anchor and the rule
    only; the reference instant is read from the clock inside the call and
    the leap policy from the settings.  The result is determined by the
    anchor, the rule, the instant the clock returned and the leap policy
    (which matters only under YEAR with a Feb-29 anchor): two calls that
    agree on these return the same result. *)
Theorem result_determined_by_clock_reading fuel w1 w2 anchor rule :
  utc_us (utc_now w1) = utc_us (utc_now w2) ->
  LEAP_POLICY w1 = LEAP_POLICY w2 \/ rule <> YEAR \/ is_feb29 anchor = false ->
  calculate_next_occurrence fuel w1 anchor rule =
  calculate_next_occurrence fuel w2 anchor rule.
Proof.
  intros Hnow Hpol. unfold calculate_next_occurrence, gt. rewrite Hnow.
  destruct (RepeatInterval_eqb rule NONE); [reflexivity|].
  destruct (utc_us (utc_now w2) <? utc_us anchor); [reflexivity|].
  destruct rule; simpl; try reflexivity;
    try (f_equal; apply while_le_same_instant; assumption).
  f_equal. rewrite (while_le_same_instant _ _ _ _ _ Hnow).
  apply while_le_same_body. intros c.
  destruct Hpol as [-> | [Hne | Hfeb]].
  - reflexivity.
  - contradiction.
  - apply year_body_policy_irrelevant. assumption.
Qed.

Lemma result_determined_by_clock_reading_witness :
  calculate_next_occurrence 20 world_2025_01_10 anchor_2025_01_01 DAY =
  calculate_next_occurrence 20 (mk_World (utc 2025 1 10 0 0 0) "mar01")
                            anchor_2025_01_01 DAY.
Proof.
  apply (result_determined_by_clock_reading
           20 world_2025_01_10 (mk_World (utc 2025 1 10 0 0 0) "mar01")
           anchor_2025_01_01 DAY).
  - reflexivity.
  - right. left. discriminate.
Defined.

(** C3 as stated fails: the same anchor and rule, submitted while the clock
    reads 2025-01-10 and again while it reads 2025-02-10, give two
    different occurrences. *)
Lemma same_arguments_different_results :
  calculate_next_occurrence 50 world_2025_01_10 anchor_2025_01_01 DAY
    = Some (Ok (Some (utc 2025 1 10 12 0 0))) /\
  calculate_next_occurrence 50 world_2025_02_10 anchor_2025_01_01 DAY
    = Some (Ok (Some (utc 2025 2 10 12 0 0))) /\
  calculate_next_occurrence 50 world_2025_01_10 anchor_2025_01_01 DAY
    <> calculate_next_occurrence 50 world_2025_02_10 anchor_2025_01_01 DAY.
Proof.
  split; [vm_compute; reflexivity|].
  split; [vm_compute; reflexivity|].
  vm_compute. discriminate.
Qed.

End Occurrences.

Section Advance.
Import Calendar Datetime Models EventService Samples.

(** A past anchor under a recurring rule, with the clock before year 9998:
    after [k >= 1] steps the loop returns the first candidate after the
    clock reading. *)
Lemma advance_returns w anchor rule :
  rule <> NONE ->
  valid anchor = true -> valid (utc_now w) = true ->
  le anchor (utc_now w) = true ->
  year (utc_now w) <= 9997 ->
  exists k r,
    (1 <= k <= enough_fuel (utc_now w) anchor)%nat /\
    nth_occurrence (rule_body (LEAP_POLICY w) anchor rule) k anchor = Ok r /\
    valid r = true /\
    gt r (utc_now w) = true /\
    (forall j, (j < k)%nat ->
       exists cj, nth_occurrence (rule_body (LEAP_POLICY w) anchor rule) j anchor = Ok cj /\
                  le cj (utc_now w) = true) /\
    (forall fuel, (k <= fuel)%nat ->
       calculate_next_occurrence fuel w anchor rule = Some (Ok (Some r))).
Proof.
  intros Hr Hva Hvn Hle Hy.
  set (body := rule_body (LEAP_POLICY w) anchor rule).
  assert (Hadv : forall c c', valid c = true -> body c = Ok c' ->
                              valid c' = true /\ utc_us c + US_PER_DAY <= utc_us c').
  { intros c c' Hc E. destruct (rule_body_advances _ _ _ _ _ Hc E) as (? & ? & _). auto. }
  assert (Hok : forall c, valid c = true -> le c (utc_now w) = true ->
                          exists c', body c = Ok c').
  { intros c Hc Hlec. apply rule_body_ok; [assumption|].
    apply (candidate_year_bound c (utc_now w)); assumption. }
  destruct (first_after_exists body (utc_now w) Hadv Hok _ anchor Hva
              (enough_fuel_spec (utc_now w) anchor))
    as (k & r & Hk & Hnth & Hvr & Hgt & Hbefore).
  exists k, r.
  assert (k <> O) as Hk0.
  { intros ->. simpl in Hnth. inversion Hnth; subst r.
    rewrite (le_gt_false _ _ Hle) in Hgt. discriminate. }
  split; [lia|]. split; [assumption|]. split; [assumption|].
  split; [assumption|]. split; [assumption|].
  intros fuel Hfuel.
  rewrite calculate_next_occurrence_loop by (auto using le_gt_false).
  fold body. rewrite (while_le_first body (utc_now w) k anchor r Hnth Hgt Hbefore fuel Hfuel).
  reflexivity.
Qed.




(** C7, as the code has it.  Under NONE the call returns None whatever the
    anchor, the clock and the fuel; None is returned under no other rule,
    so the trailing [return None] is never reached; and with the clock
    dated no later than year 9997 no call raises: it returns None or an
    occurrence. *)
Theorem none_only_for_non_recurring w anchor rule :
  (rule = NONE ->
   forall fuel, calculate_next_occurrence fuel w anchor rule = Some (Ok None)) /\
  (forall fuel, calculate_next_occurrence fuel w anchor rule = Some (Ok None) ->
                rule = NONE) /\
  (valid anchor = true -> valid (utc_now w) = true -> year (utc_now w) <= 9997 ->
   exists v, forall fuel, (enough_fuel (utc_now w) anchor <= fuel)%nat ->
     calculate_next_occurrence fuel w anchor rule = Some (Ok v)).
Proof.
  split; [|split].
  - intros -> fuel. reflexivity.
  - intros fuel H. destruct rule; [reflexivity| | | |];
      exfalso; unfold calculate_next_occurrence in H; simpl in H;
      destruct (gt anchor (utc_now w)); try discriminate;
      match type of H with
      | returning ?x = _ => destruct x as [[?|?]|]; discriminate
      end.
  - intros Hva Hvn Hy.
    destruct (RepeatInterval_eqb rule NONE) eqn:Enone.
    { exists None. intros fuel _. unfold calculate_next_occurrence.
      rewrite Enone. reflexivity. }
    assert (rule <> NONE) as Hr by (intros ->; discriminate).
    destruct (gt anchor (utc_now w)) eqn:Hgt.
    + exists (Some anchor). intros fuel _.
      apply anchor_after_now_returned; assumption.
    + assert (le anchor (utc_now w) = true) as Hle.
      { rewrite gt_negb_le in Hgt. destruct (le anchor (utc_now w)); auto. }
      destruct (advance_returns w anchor rule Hr Hva Hvn Hle Hy)
        as (k & r & Hk & _ & _ & _ & _ & Hcalc).
      exists (Some r). intros fuel Hfuel. apply Hcalc. lia.
Qed.

Lemma none_only_for_non_recurring_witness :
  calculate_next_occurrence 0 world_2026_11_04 anchor_2025_01_15 NONE = Some (Ok None) /\
  exists v, calculate_next_occurrence
              (enough_fuel (utc_now world_2026_11_04) anchor_2025_01_15)
              world_2026_11_04 anchor_2025_01_15 MONTH = Some (Ok v).
Proof.
  split.
  - apply (none_only_for_non_recurring world_2026_11_04 anchor_2025_01_15 NONE).
    reflexivity.
  - destruct (none_only_for_non_recurring world_2026_11_04 anchor_2025_01_15 MONTH)
      as (_ & _ & H).
    destruct H as [v Hv].
    + reflexivity.
    + reflexivity.
    + simpl. lia.
    + exists v. apply Hv. apply Nat.le_refl.
Defined.

(** C7 as stated fails in its last part: with the clock at
    9999-12-31T12:00Z and a well-formed MONTH anchor of 9999-12-01, the
    month step asks [replace] for year 10000 and the call raises. *)
Lemma month_step_raises_past_year_9999 :
  valid anchor_9999_12_01 = true /\ valid (utc_now world_9999_12_31) = true /\
  calculate_next_occurrence 1 world_9999_12_31 anchor_9999_12_01 MONTH
  = Some (Raise ValueError).
Proof. repeat split. Qed.

End Advance.

Section Termination.
Import Calendar Datetime Models EventService Samples.

Lemma rule_body_year_increments pol anchor c c' :
  valid c = true -> rule_body pol anchor YEAR c = Ok c' -> year c' = year c + 1.
Proof.
  intros Hv H. simpl in H.
  destruct (year_body_spec _ _ _ _ Hv H) as (_ & _ & _ & Hy). exact Hy.
Qed.

(** C8, as the code has it.  Under every recurring rule each step turns a
    well-formed candidate into a strictly later one (at least a day later;
    the YEAR step, Feb-29 branch included, moves to the next year), so the
    loop is left within [enough_fuel] iterations: by returning, or by the
    exception of a step that leaves the datetime range.  With the clock
    dated no later than year 9997 the call returns, and what it returns is
    after the clock reading. *)
Theorem advancing_loop_terminates w anchor rule :
  rule <> NONE ->
  valid anchor = true -> valid (utc_now w) = true ->
  (forall c c', valid c = true ->
                rule_body (LEAP_POLICY w) anchor rule c = Ok c' ->
                valid c' = true /\ gt c' c = true /\
                (rule = YEAR -> year c' = year c + 1)) /\
  (exists out, forall fuel, (enough_fuel (utc_now w) anchor <= fuel)%nat ->
                 calculate_next_occurrence fuel w anchor rule = Some out) /\
  (year (utc_now w) <= 9997 ->
   exists r, gt r (utc_now w) = true /\
             forall fuel, (enough_fuel (utc_now w) anchor <= fuel)%nat ->
               calculate_next_occurrence fuel w anchor rule = Some (Ok (Some r))).
Proof.
  intros Hr Hva Hvn.
  set (body := rule_body (LEAP_POLICY w) anchor rule).
  assert (Hadv : forall c c', valid c = true -> body c = Ok c' ->
                              valid c' = true /\ utc_us c + US_PER_DAY <= utc_us c').
  { intros c c' Hc E. destruct (rule_body_advances _ _ _ _ _ Hc E) as (? & ? & _). auto. }
  split; [|split].
  - intros c c' Hc E. destruct (Hadv c c' Hc E) as [Hc' Hlt].
    split; [assumption|]. split.
    + unfold gt. apply Z.ltb_lt. unfold US_PER_DAY, US_PER_SECOND in Hlt. lia.
    + intros ->. apply (rule_body_year_increments _ _ _ _ Hc E).
  - destruct (gt anchor (utc_now w)) eqn:Hgt.
    + exists (Ok (Some anchor)). intros fuel _.
      apply anchor_after_now_returned; assumption.
    + destruct (while_le_terminates body (utc_now w) Hadv _ anchor Hva
                  (enough_fuel_spec (utc_now w) anchor)) as [out Hout].
      exists (match out with Ok r => Ok (Some r) | Raise e => Raise e end).
      intros fuel Hfuel.
      rewrite calculate_next_occurrence_loop by assumption.
      fold body. rewrite (Hout fuel Hfuel). destruct out; reflexivity.
  - intros Hy. destruct (gt anchor (utc_now w)) eqn:Hgt.
    + exists anchor. split; [assumption|]. intros fuel _.
      apply anchor_after_now_returned; assumption.
    + assert (le anchor (utc_now w) = true) as Hle.
      { rewrite gt_negb_le in Hgt. destruct (le anchor (utc_now w)); auto. }
      destruct (advance_returns w anchor rule Hr Hva Hvn Hle Hy)
        as (k & r & Hk & _ & _ & Hgtr & _ & Hcalc).
      exists r. split; [assumption|]. intros fuel Hfuel. apply Hcalc. lia.
Qed.

Lemma advancing_loop_terminates_witness :
  exists out, forall fuel,
    (enough_fuel (utc_now world_2026_11_04) anchor_2025_01_01 <= fuel)%nat ->
    calculate_next_occurrence fuel world_2026_11_04 anchor_2025_01_01 DAY = Some out.
Proof.
  destruct (advancing_loop_terminates world_2026_11_04 anchor_2025_01_01 DAY)
    as (_ & H & _).
  - discriminate.
  - reflexivity.
  - reflexivity.
  - exact H.
Defined.

(** C8 as stated fails at the end of the datetime range: with the clock at
    9999-12-31T12:00Z and a DAY anchor at 9999-12-31T00:00Z the loop is left
    in its first iteration, not by a return but by [OverflowError]. *)
Lemma day_step_overflows_at_max_date :
  valid anchor_9999_12_31 = true /\ valid (utc_now world_9999_12_31) = true /\
  (forall fuel, calculate_next_occurrence (S fuel) world_9999_12_31 anchor_9999_12_31 DAY
                = Some (Raise OverflowError)) /\
  ~ (exists fuel r, calculate_next_occurrence fuel world_9999_12_31 anchor_9999_12_31 DAY
                    = Some (Ok (Some r))).
Proof.
  repeat split.
  intros (fuel & r & H). destruct fuel; vm_compute in H; discriminate.
Qed.

End Termination.

Section Monthly.
Import Calendar Datetime Models EventService Samples.

(** Along the MONTH sequence the day of month never grows, and never falls
    below 28 unless it started there. *)
Lemma nth_occurrence_month_day k : forall c r,
  valid c = true -> nth_occurrence (add_relativedelta 0 1) k c = Ok r ->
  valid r = true /\ day r <= day c /\ Z.min 28 (day c) <= day r.
Proof.
  induction k as [|k IH]; intros c r Hv H.
  - simpl in H. inversion H; subst. repeat split; try assumption; lia.
  - simpl in H. destruct (add_relativedelta 0 1 c) as [c1|] eqn:E; [|discriminate].
    destruct (month_step_spec _ _ Hv E) as (Hv1 & _ & _ & _ & Hnext & Hday).
    destruct (IH _ _ Hv1 H) as (Hvr & Hle & Hge).
    apply valid_iff in Hv1. destruct Hv1 as [[_ [Hm1 _]] _].
    pose proof (monthrange_ndays_bounds (year c1) (month c1) Hm1).
    repeat split; try assumption; lia.
Qed.

(** The MONTH step as the loop applies it: it goes to the next calendar
    month, keeps the day of month when that month is long enough, and keeps
    the time of day.  The day of a returned occurrence is never above the
    anchor's and equals it when the anchor's day is at most 28. *)
Lemma month_step_keeps_small_days w anchor :
  valid anchor = true ->
  le anchor (utc_now w) = true ->
  (forall c c', valid c = true -> add_relativedelta 0 1 c = Ok c' ->
     (year c', month c') = next_month (year c) (month c) /\
     day c' = Z.min (monthrange_ndays (year c') (month c')) (day c) /\
     same_clock_time c c' /\ microsecond c' = microsecond c) /\
  (forall fuel r,
     calculate_next_occurrence fuel w anchor MONTH = Some (Ok (Some r)) ->
     day r <= day anchor /\
     (day anchor <= 28 -> day r = day anchor)).
Proof.
  intros Hva Hle. split.
  - intros c c' Hc E.
    destruct (month_step_spec _ _ Hc E) as (_ & _ & Hclk & Hus & Hnext & Hday).
    repeat split; try assumption; apply Hclk.
  - intros fuel r H.
    rewrite calculate_next_occurrence_loop in H
      by (try discriminate; apply le_gt_false; assumption).
    simpl rule_body in H.
    destruct (while_le fuel (add_relativedelta 0 1) (utc_now w) anchor)
      as [[r0|e]|] eqn:E; try discriminate.
    inversion H; subst r0.
    destruct (while_le_sound _ _ _ _ _ E) as (k & _ & Hnth & _).
    destruct (nth_occurrence_month_day k anchor r Hva Hnth) as (_ & Hle' & Hge).
    repeat split; lia.
Qed.

(** C2.  The claim fails on the code: the day of month drifts.  The anchor
    2025-01-31T12:00Z under MONTH, with the clock at 2025-03-15T00:00Z, is
    stepped to February 28 and from there to March 28, and the call returns
    2025-03-28T12:00Z whatever the number of iterations allowed (two are
    needed).  March has 31 days, and the anchor plus two months is
    2025-03-31T12:00Z, which is after the clock reading: the day of month
    is not preserved although the target month has enough days. *)
Theorem january_31_drifts_to_the_28th :
  valid anchor_2025_01_31 = true /\
  le anchor_2025_01_31 (utc_now world_2025_03_15) = true /\
  add_relativedelta 0 1 anchor_2025_01_31 = Ok (utc 2025 2 28 12 0 0) /\
  add_relativedelta 0 1 (utc 2025 2 28 12 0 0) = Ok (utc 2025 3 28 12 0 0) /\
  (forall fuel, (2 <= fuel)%nat ->
     calculate_next_occurrence fuel world_2025_03_15 anchor_2025_01_31 MONTH
     = Some (Ok (Some (utc 2025 3 28 12 0 0)))) /\
  day anchor_2025_01_31 = 31 /\
  monthrange_ndays 2025 3 = 31 /\
  anchor_plus_steps MONTH 2 anchor_2025_01_31 = Ok (utc 2025 3 31 12 0 0) /\
  gt (utc 2025 3 31 12 0 0) (utc_now world_2025_03_15) = true /\
  le (utc 2025 2 28 12 0 0) (utc_now world_2025_03_15) = true.
Proof.
  split; [reflexivity|]. split; [reflexivity|]. split; [reflexivity|].
  split; [reflexivity|]. split; [|repeat split].
  intros [|[|fuel]] Hfuel; try lia.
  rewrite calculate_next_occurrence_loop by (discriminate || reflexivity).
  cbn [rule_body].
  rewrite (while_le_step _ _ _ _ (utc 2025 2 28 12 0 0)) by reflexivity.
  rewrite (while_le_step _ _ _ _ (utc 2025 3 28 12 0 0)) by reflexivity.
  rewrite while_le_exit by reflexivity. reflexivity.
Qed.

End Monthly.

Section LeapDay.
Import Calendar Datetime Models EventService Samples.

Variable leap_policy : string.
Variable anchor : datetime.
Hypothesis anchor_valid : valid anchor = true.
Hypothesis anchor_feb29 : is_feb29 anchor = true.

(** What holds of the candidate [i] years after a Feb-29 anchor. *)
Let substituted (i : Z) (c : datetime) : Prop :=
  valid c = true /\ year c = year anchor + i /\
  (month c, day c) = substituted_month_day leap_policy /\
  same_clock_time anchor c /\ microsecond c = 0.

Lemma feb29_anchor_year_is_leap : isleap (year anchor) = true.
Proof.
  pose proof anchor_valid as Hv. apply valid_iff in Hv.
  destruct Hv as [[_ [_ Hd]] _].
  unfold is_feb29 in anchor_feb29. apply andb_true_iff in anchor_feb29.
  destruct anchor_feb29 as [Hm Hd29]. apply Z.eqb_eq in Hm, Hd29.
  rewrite Hm, Hd29 in Hd. unfold monthrange_ndays in Hd. simpl in Hd.
  destruct (isleap (year anchor)); [reflexivity | simpl in Hd; lia].
Qed.

Lemma feb29_first_step c :
  year_body leap_policy anchor anchor = Ok c -> substituted 1 c.
Proof.
  intros H. unfold year_body in H.
  unfold is_feb29 in anchor_feb29. rewrite anchor_feb29 in H.
  rewrite (isleap_succ _ feb29_anchor_year_is_leap) in H.
  pose proof anchor_valid as Hv. apply valid_iff in Hv.
  destruct Hv as [_ [Ht Ho]].
  unfold substituted, substituted_month_day, same_clock_time.
  destruct (String.eqb leap_policy "mar01");
    apply new_Ok in H; destruct H as (Hchk & _ & ->);
    apply check_date_fields_iff in Hchk;
    rewrite valid_iff; simpl; repeat split; try lia.
Qed.

Lemma feb29_later_step i c c' :
  substituted i c -> year_body leap_policy anchor c = Ok c' -> substituted (i + 1) c'.
Proof.
  intros (Hv & Hy & Hmd & Hclk & Hus) H. unfold year_body in H.
  unfold is_feb29 in anchor_feb29. rewrite anchor_feb29 in H.
  apply valid_iff in Hv. destruct Hv as [_ [Ht Ho]].
  unfold substituted, same_clock_time in *.
  destruct Hclk as (Hh & Hmi & Hs & Htz).
  destruct (isleap (year c + 1)).
  - apply replace_Ok in H. destruct H as (Hchk & ->).
    apply check_date_fields_iff in Hchk.
    rewrite valid_iff; simpl. repeat split; try lia; try assumption.
  - unfold substituted_month_day in *.
    destruct (String.eqb leap_policy "mar01");
      apply new_Ok in H; destruct H as (Hchk & _ & ->);
      apply check_date_fields_iff in Hchk;
      rewrite valid_iff; simpl; repeat split; try lia.
Qed.

Lemma feb29_later_steps k : forall i c r,
  substituted i c -> nth_occurrence (year_body leap_policy anchor) k c = Ok r ->
  substituted (i + Z.of_nat k) r.
Proof.
  induction k as [|k IH]; intros i c r Hs H.
  - simpl in H. inversion H; subst. rewrite Z.add_0_r. assumption.
  - simpl in H. destruct (year_body leap_policy anchor c) as [c1|] eqn:E; [|discriminate].
    replace (i + Z.of_nat (S k)) with (i + 1 + Z.of_nat k) by lia.
    apply (IH _ c1); [|assumption].
    apply (feb29_later_step i c); assumption.
Qed.

(** Every candidate after a Feb-29 anchor, in leap and non-leap years
    alike, falls on the substituted month and day of its year, at the
    anchor's hour, minute and second and in its tzinfo; its microsecond is
    0, whatever the anchor's. *)
Lemma feb29_substitution_persists k c :
  nth_occurrence (year_body leap_policy anchor) (S k) anchor = Ok c ->
  valid c = true /\ year c = year anchor + Z.of_nat (S k) /\
  (month c, day c) = substituted_month_day leap_policy /\
  same_clock_time anchor c /\ microsecond c = 0.
Proof.
  intros H. simpl in H.
  destruct (year_body leap_policy anchor anchor) as [c1|] eqn:E; [|discriminate].
  pose proof (feb29_later_steps k 1 c1 c (feb29_first_step c1 E) H) as Hs.
  replace (Z.of_nat (S k)) with (1 + Z.of_nat k) by lia. exact Hs.
Qed.

End LeapDay.

Section LeapDayClaims.
Import Calendar Datetime Models EventService Samples.

(** C4.  The sub-second part of a Feb-29 anchor is lost.  With the clock at
    2024-06-01 and policy feb28, the anchor 2024-02-29T12:00:00.500000Z
    under YEAR resolves to 2025-02-28 at 12:00:00.000000, half a second
    before the anchor's time of day; the [replace] call of the leap-year
    branch and the [relativedelta] call taken by any other anchor (here
    2024-03-01T12:00:00.500000Z) both keep the microsecond. *)
Theorem feb29_substitution_drops_microsecond :
  le anchor_2024_02_29_half (utc_now world_2024_06_01) = true /\
  microsecond anchor_2024_02_29_half = 500000 /\
  calculate_next_occurrence 5 world_2024_06_01 anchor_2024_02_29_half YEAR
    = Some (Ok (Some (mk_datetime 2025 2 28 12 0 0 0 0))) /\
  calculate_next_occurrence 5 world_2024_06_01
                            (mk_datetime 2024 3 1 12 0 0 500000 0) YEAR
    = Some (Ok (Some (mk_datetime 2025 3 1 12 0 0 500000 0))) /\
  replace anchor_2024_02_29_half 2028 2 29
    = Ok (mk_datetime 2028 2 29 12 0 0 500000 0).
Proof. repeat split. Qed.

(** The substituted date is kept through a leap year: under mar01 the
    anchor 2024-02-29T12:00Z is on March 1 in 2028 as well, and with the
    clock at 2029-06-01 the call returns 2030-03-01T12:00Z. *)
Lemma feb29_mar01_kept_through_2028 :
  nth_occurrence (year_body "mar01" anchor_2024_02_29) 4 anchor_2024_02_29
    = Ok (utc 2028 3 1 12 0 0) /\
  calculate_next_occurrence 10 world_2029_06_01_mar01 anchor_2024_02_29 YEAR
    = Some (Ok (Some (utc 2030 3 1 12 0 0))).
Proof. split; reflexivity. Qed.

End LeapDayClaims.

(** ** Ranking and partition *)

Section Ranking.
Import Schemas EventService.
Context {A : Type} (key : A -> Z).

Lemma insert_by_key_perm x l : Permutation (x :: l) (insert_by_key key x l).
Proof.
  induction l as [|y l IH]; simpl.
  - apply Permutation_refl.
  - destruct (key x <=? key y).
    + apply Permutation_refl.
    + eapply Permutation_trans; [apply perm_swap|].
      apply perm_skip. exact IH.
Qed.

Lemma sorted_perm l : Permutation l (sorted key l).
Proof.
  induction l as [|x l IH]; simpl.
  - apply perm_nil.
  - eapply Permutation_trans; [apply perm_skip; exact IH|].
    apply insert_by_key_perm.
Qed.

Lemma insert_by_key_sorted x l :
  StronglySorted (fun a b => key a <= key b) l ->
  StronglySorted (fun a b => key a <= key b) (insert_by_key key x l).
Proof.
  induction 1 as [|y l Hs IH Hall]; simpl.
  - constructor; constructor.
  - destruct (Z.leb_spec (key x) (key y)) as [Hle|Hgt].
    + constructor; [constructor; assumption|].
      constructor; [assumption|].
      eapply Forall_impl; [|exact Hall]. simpl. intros; lia.
    + constructor; [exact IH|].
      eapply Permutation_Forall; [apply insert_by_key_perm|].
      constructor; [lia | assumption].
Qed.

Lemma sorted_ascending l : StronglySorted (fun a b => key a <= key b) (sorted key l).
Proof.
  induction l as [|x l IH]; simpl.
  - constructor.
  - apply insert_by_key_sorted. exact IH.
Qed.

(** Inserting moves an element past strictly smaller keys only, so the
    elements of any one key keep their order. *)
Lemma insert_by_key_stable v x l :
  filter (fun e => key e =? v) (insert_by_key key x l) =
  filter (fun e => key e =? v) (x :: l).
Proof.
  induction l as [|y l IH]; [reflexivity|].
  simpl insert_by_key. destruct (Z.leb_spec (key x) (key y)) as [Hle|Hgt]; [reflexivity|].
  simpl in *. rewrite IH.
  destruct (Z.eqb_spec (key x) v), (Z.eqb_spec (key y) v); try reflexivity. lia.
Qed.

Lemma sorted_stable v l :
  filter (fun e => key e =? v) (sorted key l) = filter (fun e => key e =? v) l.
Proof.
  induction l as [|x l IH]; [reflexivity|].
  simpl sorted. rewrite insert_by_key_stable. simpl. rewrite IH. reflexivity.
Qed.

Lemma sorted_tied_triple a b c :
  key a = key b -> key b = key c -> sorted key [a; b; c] = [a; b; c].
Proof.
  intros Hab Hbc. simpl.
  replace (key b <=? key c) with true by (symmetry; apply Z.leb_le; lia).
  simpl. replace (key a <=? key b) with true by (symmetry; apply Z.leb_le; lia).
  reflexivity.
Qed.

(** In an ascending list the negative keys come first. *)
Lemma ascending_negative_first l :
  StronglySorted (fun a b => key a <= key b) l ->
  l = filter (fun e => key e <? 0) l ++ filter (fun e => negb (key e <? 0)) l.
Proof.
  induction 1 as [|x l Hs IH Hall]; [reflexivity|].
  simpl. destruct (Z.ltb_spec (key x) 0) as [Hneg|Hpos]; simpl.
  - f_equal. exact IH.
  - assert (filter (fun e => key e <? 0) l = []) as Hnone.
    { clear IH Hs. induction Hall as [|y l Hy Hall IH']; [reflexivity|].
      simpl. destruct (Z.ltb_spec (key y) 0); [lia | exact IH']. }
    rewrite Hnone in *. simpl in *. f_equal. exact IH.
Qed.

Lemma filter_interleave (p : A -> bool) l :
  Interleave (filter (fun e => negb (p e)) l) (filter p l) l.
Proof.
  induction l as [|x l IH]; simpl.
  - constructor.
  - destruct (p x); simpl; constructor; exact IH.
Qed.

Lemma Interleave_length (l1 l2 l : list A) :
  Interleave l1 l2 l -> (List.length l1 + List.length l2 = List.length l)%nat.
Proof. induction 1; simpl; lia. Qed.

End Ranking.

Section RankingClaims.
Import Schemas EventService Samples.

(** C9.  [sort_events_by_remaining_time] returns a permutation of its
    input in ascending order of [remaining_seconds]; the events of any one
    [remaining_seconds] value come out in their input order, so three tied
    events [A; B; C] come out as [A; B; C]; and the overdue events are
    simply the front of the result. *)
Theorem sort_events_is_stable_ascending_permutation :
  (forall enriched_events,
      Permutation enriched_events (sort_events_by_remaining_time enriched_events) /\
      StronglySorted (fun a b => remaining_seconds a <= remaining_seconds b)
                     (sort_events_by_remaining_time enriched_events) /\
      (forall v,
          filter (fun e => remaining_seconds e =? v)
                 (sort_events_by_remaining_time enriched_events) =
          filter (fun e => remaining_seconds e =? v) enriched_events) /\
      sort_events_by_remaining_time enriched_events =
      filter (fun e => remaining_seconds e <? 0)
             (sort_events_by_remaining_time enriched_events) ++
      filter (fun e => negb (remaining_seconds e <? 0))
             (sort_events_by_remaining_time enriched_events)) /\
  (forall a b c,
      remaining_seconds a = remaining_seconds b ->
      remaining_seconds b = remaining_seconds c ->
      sort_events_by_remaining_time [a; b; c] = [a; b; c]).
Proof.
  split.
  - intros l. unfold sort_events_by_remaining_time.
    split; [apply sorted_perm|].
    split; [apply sorted_ascending|].
    split; [intros v; apply sorted_stable|].
    apply ascending_negative_first. apply sorted_ascending.
  - intros a b c. apply sorted_tied_triple.
Qed.

End RankingClaims.

(** ** Enrichment *)

Section Enrichment.
Import Schemas Models EventService Samples.

Lemma get_color_bucket_None_iff r : get_color_bucket r = None <-> r < 0.
Proof.
  unfold get_color_bucket.
  repeat match goal with
         | |- context [?a <? ?b] => destruct (Z.ltb_spec a b)
         end; split; intros Hx; try discriminate; try reflexivity; lia.
Qed.

(** What a returned dict is made of. *)
Lemma enrich_event_Ok fuel w event server_now attachments storage d :
  enrich_event fuel w event server_now attachments storage = Some (Ok d) ->
  exists next responses,
    (if negb (RepeatInterval_eqb (Models.repeat_interval event) NONE)
     then calculate_next_occurrence fuel w (Models.event_date event)
                                    (Models.repeat_interval event)
     else Some (Ok None)) = Some (Ok next) /\
    match attachments, storage with
    | Some ((_ :: _) as atts), Some st => attachment_responses st atts
    | _, _ => Ok []
    end = Ok responses /\
    d = mk_Enriched
          (Models.id event) (Models.user_id event) (Models.title event)
          (Models.description event) (Models.event_date event)
          (Models.repeat_interval event) (Models.timezone event)
          next
          (match next with Some r => r | None => Models.event_date event end)
          (calculate_remaining_seconds
             (match next with Some r => r | None => Models.event_date event end)
             server_now)
          (get_color_bucket
             (calculate_remaining_seconds
                (match next with Some r => r | None => Models.event_date event end)
                server_now))
          (calculate_remaining_seconds
             (match next with Some r => r | None => Models.event_date event end)
             server_now <? 0)
          responses
          (Models.created_at event) (Models.updated_at event).
Proof.
  unfold enrich_event. intros H.
  destruct (if negb (RepeatInterval_eqb (Models.repeat_interval event) NONE)
            then calculate_next_occurrence fuel w (Models.event_date event)
                                           (Models.repeat_interval event)
            else Some (Ok None)) as [[next|e]|]; try discriminate.
  destruct (match attachments, storage with
            | Some ((_ :: _) as atts), Some st => attachment_responses st atts
            | _, _ => Ok []
            end) as [responses|e]; try discriminate.
  inversion H; subst d; clear H. exists next, responses. auto.
Qed.

(** The three derived fields of a returned dict come from the same
    [remaining_seconds]. *)
Lemma enrich_event_fields fuel w event server_now attachments storage d :
  enrich_event fuel w event server_now attachments storage = Some (Ok d) ->
  color_bucket d = get_color_bucket (remaining_seconds d) /\
  is_overdue d = (remaining_seconds d <? 0).
Proof.
  intros H. destruct (enrich_event_Ok _ _ _ _ _ _ _ H) as (next & responses & _ & _ & ->).
  simpl. split; reflexivity.
Qed.

(** C10.  Every dict returned by [enrich_event] is coherent: [is_overdue]
    is [remaining_seconds < 0], and [color_bucket] is absent exactly when
    [is_overdue] holds; at [remaining_seconds = 0] the event is upcoming
    and RED.  On a list of such dicts [filter_overdue] therefore puts an
    event in the overdue part exactly when it has no bucket, and the two
    parts interleave to the input: each element lands in one part, in its
    input order. *)
Theorem enriched_events_are_coherent (enriched_events : list Enriched) :
  Forall enriched_by_service enriched_events ->
  Forall (fun d =>
            is_overdue d = (remaining_seconds d <? 0) /\
            (color_bucket d = None <-> is_overdue d = true) /\
            (remaining_seconds d = 0 ->
             is_overdue d = false /\ color_bucket d = Some RED))
         enriched_events /\
  Interleave (fst (filter_overdue enriched_events))
             (snd (filter_overdue enriched_events)) enriched_events /\
  (List.length (fst (filter_overdue enriched_events)) +
   List.length (snd (filter_overdue enriched_events)) =
   List.length enriched_events)%nat /\
  Forall (fun d => color_bucket d = None) (snd (filter_overdue enriched_events)) /\
  Forall (fun d => color_bucket d <> None) (fst (filter_overdue enriched_events)) /\
  (forall d, In d enriched_events ->
             (In d (snd (filter_overdue enriched_events)) <-> color_bucket d = None) /\
             (In d (fst (filter_overdue enriched_events)) <-> color_bucket d <> None)).
Proof.
  intros Hall.
  assert (Hcoh : forall d, In d enriched_events ->
                   is_overdue d = (remaining_seconds d <? 0) /\
                   (color_bucket d = None <-> is_overdue d = true)).
  { intros d Hin. rewrite Forall_forall in Hall.
    destruct (Hall d Hin) as (fuel & w & event & server_now & atts & storage & E).
    destruct (enrich_event_fields _ _ _ _ _ _ _ E) as [Hcb Hov].
    split; [exact Hov|]. rewrite Hcb, Hov, get_color_bucket_None_iff, Z.ltb_lt.
    reflexivity. }
  assert (Hbucket : forall d, In d enriched_events ->
                      color_bucket d = get_color_bucket (remaining_seconds d)).
  { intros d Hin. rewrite Forall_forall in Hall.
    destruct (Hall d Hin) as (fuel & w & event & server_now & atts & storage & E).
    apply (enrich_event_fields _ _ _ _ _ _ _ E). }
  unfold filter_overdue. simpl fst. simpl snd.
  split; [|split; [|split; [|split; [|split]]]].
  - apply Forall_forall. intros d Hin. destruct (Hcoh d Hin) as [Hov Hiff].
    split; [exact Hov|]. split; [exact Hiff|].
    intros H0. rewrite Hov, (Hbucket d Hin), H0. split; reflexivity.
  - apply filter_interleave.
  - apply Interleave_length. apply filter_interleave.
  - apply Forall_forall. intros d Hin. apply filter_In in Hin.
    destruct Hin as [Hin Hov]. apply (Hcoh d Hin). exact Hov.
  - apply Forall_forall. intros d Hin. apply filter_In in Hin.
    destruct Hin as [Hin Hov]. intros Hnone. apply (Hcoh d Hin) in Hnone.
    rewrite Hnone in Hov. discriminate.
  - intros d Hin. destruct (Hcoh d Hin) as [_ Hiff].
    rewrite !filter_In, Hiff. split.
    + tauto.
    + destruct (is_overdue d); simpl; split;
        try tauto; try (intros; split; [assumption|reflexivity]);
        try (intros [_ H]; discriminate); try (intros H; exfalso; apply H; reflexivity);
        try (intros _; discriminate).
Qed.

Lemma enriched_events_are_coherent_witness :
  exists up ov,
    enrich_event 700 world_2026_11_04 event_2025_01_15 (utc 2026 11 4 10 0 0) None None
      = Some (Ok up) /\
    enrich_event 0 world_2026_11_04 event_2025_01_31_once (utc 2026 11 4 10 0 0) None None
      = Some (Ok ov) /\
    remaining_seconds up = 957600 /\
    filter_overdue [ov; up] = ([up], [ov]) /\
    Interleave [up] [ov] [ov; up] /\
    Forall (fun d => color_bucket d = None) [ov] /\
    Forall (fun d => color_bucket d <> None) [up].
Proof.
  eexists. eexists.
  split; [vm_compute; reflexivity|].
  split; [vm_compute; reflexivity|].
  split; [reflexivity|].
  split; [reflexivity|].
  match goal with
  | |- Interleave [?up] [?ov] _ /\ _ =>
      destruct (enriched_events_are_coherent [ov; up]) as (_ & Hi & _ & Hov & Hup & _)
  end.
  - constructor; [|constructor; [|constructor]].
    + exists 0%nat, world_2026_11_04, event_2025_01_31_once, (utc 2026 11 4 10 0 0), None, None.
      vm_compute. reflexivity.
    + exists 700%nat, world_2026_11_04, event_2025_01_15, (utc 2026 11 4 10 0 0), None, None.
      vm_compute. reflexivity.
  - split; [exact Hi|]. split; [exact Hov | exact Hup].
Defined.

End Enrichment.

(** * Further properties of the service *)

Section ReturnedOccurrence.
Import Calendar Datetime Models EventService Samples.

(** Under a recurring rule [None] is never returned. *)
Lemma recurring_never_none fuel w anchor rule :
  rule <> NONE ->
  calculate_next_occurrence fuel w anchor rule <> Some (Ok None).
Proof.
  intros Hr H. unfold calculate_next_occurrence in H.
  destruct rule; try contradiction; simpl in H;
    destruct (gt anchor (utc_now w)); try discriminate;
    match type of H with
    | returning ?x = _ => destruct x as [[?|?]|]; discriminate
    end.
Qed.

(** What a call returns is the anchor itself, when it is after the clock
    reading, or the first candidate after the clock reading. *)
Lemma returned_occurrence_cases fuel w anchor rule r :
  calculate_next_occurrence fuel w anchor rule = Some (Ok (Some r)) ->
  rule <> NONE /\
  ((gt anchor (utc_now w) = true /\ r = anchor) \/
   (le anchor (utc_now w) = true /\
    exists k, first_after_now (rule_body (LEAP_POLICY w) anchor rule)
                              (utc_now w) anchor k r)).
Proof.
  intros H.
  assert (rule <> NONE) as Hr by (intros ->; discriminate).
  split; [exact Hr|].
  destruct (gt anchor (utc_now w)) eqn:Hgt.
  - left. rewrite (anchor_after_now_returned fuel w anchor rule Hr Hgt) in H.
    inversion H. auto.
  - right.
    assert (le anchor (utc_now w) = true) as Hle.
    { rewrite gt_negb_le in Hgt. destruct (le anchor (utc_now w)); auto. }
    split; [exact Hle|].
    rewrite calculate_next_occurrence_loop in H by assumption.
    destruct (while_le fuel (rule_body (LEAP_POLICY w) anchor rule) (utc_now w) anchor)
      as [[r0|e]|] eqn:E; try discriminate.
    inversion H; subst r0.
    destruct (while_le_sound _ _ _ _ _ E) as (k & _ & Hfirst). exists k. exact Hfirst.
Qed.

(** The steps taken under each rule keep the microsecond, the Feb-29
    substitution apart. *)
Lemma rule_body_keeps_microsecond pol anchor rule c c' :
  rule = DAY \/ rule = WEEK \/ rule = MONTH \/ (rule = YEAR /\ is_feb29 anchor = false) ->
  valid c = true -> rule_body pol anchor rule c = Ok c' ->
  microsecond c' = microsecond c.
Proof.
  intros [-> | [-> | [-> | [-> Hf]]]] Hv H; simpl in H.
  - destruct (add_days_spec 1 _ _ Hv H) as (_ & _ & _ & _ & Hus). exact Hus.
  - destruct (add_days_spec 7 _ _ Hv H) as (_ & _ & _ & _ & Hus). exact Hus.
  - destruct (month_step_spec _ _ Hv H) as (_ & _ & _ & Hus & _). exact Hus.
  - unfold year_body in H. unfold is_feb29 in Hf. rewrite Hf in H.
    destruct (year_step_spec _ _ Hv H) as (_ & _ & _ & Hus & _). exact Hus.
Qed.

(** A property of the anchor kept by every step holds of what is returned. *)
Lemma returned_occurrence_invariant (P : datetime -> Prop) fuel w anchor rule r :
  (forall c c', P c -> rule_body (LEAP_POLICY w) anchor rule c = Ok c' -> P c') ->
  P anchor ->
  calculate_next_occurrence fuel w anchor rule = Some (Ok (Some r)) ->
  P r.
Proof.
  intros Hstep Ha H.
  destruct (returned_occurrence_cases _ _ _ _ _ H) as [_ [[_ ->] | [_ [k Hfirst]]]].
  - exact Ha.
  - destruct Hfirst as (Hnth & _).
    apply (nth_occurrence_invariant _ P Hstep k anchor r Ha Hnth).
Qed.

(** X1.  Every occurrence returned for a well-formed anchor is well-formed
    and has the anchor's hour, minute, second and tzinfo; under DAY, WEEK,
    MONTH, and under YEAR unless the anchor is a February 29, it has the
    anchor's microsecond as well. *)
Theorem returned_occurrence_keeps_time_of_day fuel w anchor rule r :
  valid anchor = true ->
  calculate_next_occurrence fuel w anchor rule = Some (Ok (Some r)) ->
  valid r = true /\
  hour r = hour anchor /\ minute r = minute anchor /\ second r = second anchor /\
  utcoffset r = utcoffset anchor /\
  (rule <> YEAR \/ is_feb29 anchor = false -> microsecond r = microsecond anchor).
Proof.
  intros Hva H.
  assert (Hclk : valid r = true /\ same_clock_time anchor r).
  { apply (returned_occurrence_invariant
             (fun c => valid c = true /\ same_clock_time anchor c) fuel w anchor rule r);
      [|split; [assumption | unfold same_clock_time; auto] | assumption].
    intros c c' [Hc Hs] E.
    destruct (rule_body_advances _ _ _ _ _ Hc E) as (Hc' & _ & Hs').
    split; [assumption|]. unfold same_clock_time in *.
    destruct Hs as (? & ? & ? & ?), Hs' as (? & ? & ? & ?). repeat split; congruence. }
  destruct Hclk as [Hvr (Hh & Hmi & Hs & Htz)].
  repeat split; auto.
  intros Hcase.
  assert (rule <> NONE) as Hr by (intros ->; discriminate).
  assert (Hrule : rule = DAY \/ rule = WEEK \/ rule = MONTH \/
                  (rule = YEAR /\ is_feb29 anchor = false)).
  { destruct rule; try contradiction; auto.
    destruct Hcase as [Hne | Hf]; [contradiction | auto]. }
  assert (Hus : valid r = true /\ microsecond r = microsecond anchor).
  { apply (returned_occurrence_invariant
             (fun c => valid c = true /\ microsecond c = microsecond anchor)
             fuel w anchor rule r); [|split; auto | assumption].
    intros c c' [Hc Hm] E.
    destruct (rule_body_advances _ _ _ _ _ Hc E) as (Hc' & _ & _).
    split; [assumption|].
    rewrite (rule_body_keeps_microsecond _ _ _ _ _ Hrule Hc E). exact Hm. }
  apply Hus.
Qed.

Lemma returned_occurrence_keeps_time_of_day_witness :
  exists r,
    calculate_next_occurrence 700 world_2026_11_04 anchor_2025_01_15 MONTH
      = Some (Ok (Some r)) /\
    hour r = 12 /\ minute r = 0 /\ second r = 0.
Proof.
  eexists. split; [vm_compute; reflexivity|].
  match goal with
  | |- hour ?r = _ /\ _ =>
      destruct (returned_occurrence_keeps_time_of_day
                  700 world_2026_11_04 anchor_2025_01_15 MONTH r)
        as (_ & Hh & Hm & Hs & _)
  end.
  - reflexivity.
  - vm_compute. reflexivity.
  - rewrite Hh, Hm, Hs. repeat split.
Defined.

End ReturnedOccurrence.

Section Weekly.
Import Calendar Datetime Models EventService Samples.

Lemma nth_occurrence_add_days_ordinal n k : forall c r,
  valid c = true -> nth_occurrence (add_days n) k c = Ok r ->
  toordinal r = toordinal c + Z.of_nat k * Z.of_nat n.
Proof.
  induction k as [|k IH]; intros c r Hv H.
  - simpl in H. inversion H. lia.
  - simpl in H. destruct (add_days n c) as [c1|] eqn:E; [|discriminate].
    destruct (add_days_spec _ _ _ Hv E) as (Hv1 & _ & Ho1 & _).
    rewrite (IH _ _ Hv1 H), Ho1. lia.
Qed.

(** X2.  Under WEEK every returned occurrence falls on the anchor's day of
    the week: its date is a whole number of weeks after the anchor's. *)
Theorem weekly_occurrence_keeps_weekday fuel w anchor r :
  valid anchor = true ->
  calculate_next_occurrence fuel w anchor WEEK = Some (Ok (Some r)) ->
  DateOps.weekday r = DateOps.weekday anchor /\
  exists k, toordinal r = toordinal anchor + 7 * Z.of_nat k.
Proof.
  intros Hva H.
  assert (exists k, toordinal r = toordinal anchor + 7 * Z.of_nat k) as [k Hk].
  { destruct (returned_occurrence_cases _ _ _ _ _ H) as [_ [[_ ->] | [_ [k Hfirst]]]].
    - exists O. simpl. lia.
    - destruct Hfirst as (Hnth & _). simpl in Hnth. exists k.
      rewrite (nth_occurrence_add_days_ordinal 7 k anchor r Hva Hnth).
      simpl Z.of_nat. lia. }
  split; [|exists k; exact Hk].
  unfold DateOps.weekday. rewrite Hk.
  replace (toordinal anchor + 7 * Z.of_nat k + 6)
    with (toordinal anchor + 6 + Z.of_nat k * 7) by lia.
  apply Z.mod_add. lia.
Qed.

Lemma weekly_occurrence_keeps_weekday_witness :
  exists r,
    calculate_next_occurrence 700 world_2026_11_04 anchor_2025_01_01 WEEK
      = Some (Ok (Some r)) /\
    DateOps.weekday r = 2.
Proof.
  eexists. split; [vm_compute; reflexivity|].
  match goal with
  | |- DateOps.weekday ?r = _ =>
      destruct (weekly_occurrence_keeps_weekday 700 world_2026_11_04 anchor_2025_01_01 r)
        as [Hw _]
  end.
  - reflexivity.
  - vm_compute. reflexivity.
  - rewrite Hw. reflexivity.
Defined.

End Weekly.

Section Yearly.
Import Calendar Datetime Models EventService Samples.

Lemma next_year_has_the_day y m d :
  1 <= d <= monthrange_ndays y m -> (m =? 2) && (d =? 29) = false ->
  d <= monthrange_ndays (y + 1) m.
Proof.
  unfold monthrange_ndays. intros Hd Hf.
  destruct (Z.eqb_spec m 2) as [->|Hm]; simpl in *.
  - apply Z.eqb_neq in Hf. destruct (isleap y), (isleap (y + 1)); simpl in *; lia.
  - lia.
Qed.

(** X3.  Under YEAR an anchor that is not a February 29 recurs on its own
    month and day: every returned occurrence has the anchor's month and day
    of month, in the anchor's year or a later one. *)
Theorem yearly_occurrence_keeps_month_and_day fuel w anchor r :
  valid anchor = true ->
  is_feb29 anchor = false ->
  calculate_next_occurrence fuel w anchor YEAR = Some (Ok (Some r)) ->
  month r = month anchor /\ day r = day anchor /\ year anchor <= year r.
Proof.
  intros Hva Hf H.
  apply (returned_occurrence_invariant
           (fun c => valid c = true /\
                     (month c = month anchor /\ day c = day anchor /\ year anchor <= year c))
           fuel w anchor YEAR r); [| repeat split; auto; lia | assumption].
  intros c c' (Hc & Hm & Hd & Hy) E. simpl in E.
  unfold year_body in E. unfold is_feb29 in Hf. rewrite Hf in E.
  destruct (year_step_spec _ _ Hc E) as (Hc' & _ & _ & _ & Hy' & Hm' & Hd').
  split; [assumption|].
  apply valid_iff in Hc. destruct Hc as [[_ [_ Hday]] _].
  pose proof (next_year_has_the_day (year c) (month c) (day c) Hday) as Hfit.
  rewrite Hm, Hd in Hfit. specialize (Hfit Hf).
  rewrite Hm', Hy', Hm in Hd'. rewrite Hd in Hd'.
  repeat split; lia.
Qed.

Lemma yearly_occurrence_keeps_month_and_day_witness :
  exists r,
    calculate_next_occurrence 10 world_2029_06_01_mar01 anchor_2027_06_15 YEAR
      = Some (Ok (Some r)) /\
    month r = 6 /\ day r = 15.
Proof.
  eexists. split; [vm_compute; reflexivity|].
  match goal with
  | |- month ?r = _ /\ _ =>
      destruct (yearly_occurrence_keeps_month_and_day
                  10 world_2029_06_01_mar01 anchor_2027_06_15 r) as (Hm & Hd & _)
  end.
  - reflexivity.
  - reflexivity.
  - vm_compute. reflexivity.
  - rewrite Hm, Hd. split; reflexivity.
Defined.

End Yearly.

Section Period.
Import Calendar Datetime Models EventService Samples.

Lemma month_step_bound c c' :
  valid c = true -> add_relativedelta 0 1 c = Ok c' ->
  utc_us c' <= utc_us c + 31 * US_PER_DAY.
Proof.
  intros Hv H. pose proof Hv as Hv'. apply valid_iff in Hv'.
  destruct Hv' as [[Hy [Hm Hd]] [Ht Ho]].
  rewrite add_relativedelta_month_eq in H by assumption.
  pose proof (next_month_starts (year c) (month c) Hm) as Hstart.
  pose proof (monthrange_ndays_bounds (year c) (month c) Hm) as Hlen.
  destruct (next_month (year c) (month c)) as [y' m'] eqn:Enext. simpl in H.
  apply replace_Ok in H. destruct H as [_ ->].
  unfold utc_us, toordinal, time_of_day_us, ymd2ord, US_PER_DAY, US_PER_SECOND.
  simpl. lia.
Qed.

Lemma year_step_bound c c' :
  valid c = true -> add_relativedelta 1 0 c = Ok c' ->
  utc_us c' <= utc_us c + 366 * US_PER_DAY.
Proof.
  intros Hv H. pose proof Hv as Hv'. apply valid_iff in Hv'.
  destruct Hv' as [[Hy [Hm Hd]] [Ht Ho]].
  rewrite add_relativedelta_year_eq in H.
  apply replace_Ok in H. destruct H as [_ ->].
  unfold utc_us, toordinal, time_of_day_us, ymd2ord, US_PER_DAY, US_PER_SECOND.
  simpl. rewrite days_before_year_succ.
  assert (forall m, 1 <= m <= 12 ->
            days_before_month (year c + 1) m + (if isleap (year c) then 1 else 0)
            <= days_before_month (year c) m + 1) as Hgen.
  { intros m Hm'.
    pose proof (isleap_succ (year c)) as Hsucc.
    month_cases m; unfold days_before_month; cbn -[Z.add];
      destruct (isleap (year c)), (isleap (year c + 1)); try lia;
      specialize (Hsucc eq_refl); discriminate. }
  specialize (Hgen _ Hm). lia.
Qed.

(** The Feb-29 branch of the YEAR body, from the anchor itself or from a
    substituted date, moves at most 366 days. *)
Lemma feb29_step_bound pol anchor c c' :
  is_feb29 anchor = true -> valid c = true ->
  (month c = 2 /\ day c = 29) \/ (month c, day c) = substituted_month_day pol ->
  year_body pol anchor c = Ok c' ->
  utc_us c' <= utc_us c + 366 * US_PER_DAY.
Proof.
  intros Hf Hv Hshape H. unfold year_body in H.
  unfold is_feb29 in Hf. rewrite Hf in H.
  pose proof Hv as Hv'. apply valid_iff in Hv'.
  destruct Hv' as [[Hy [Hm Hd]] [Ht Ho]].
  pose proof (days_before_year_succ (year c)) as Hdby.
  pose proof (isleap_succ (year c)) as Hsucc.
  unfold substituted_month_day in Hshape.
  unfold monthrange_ndays in Hd.
  destruct (String.eqb pol "mar01");
    (assert (Hmd : (month c = 2 /\ day c = 29) \/ (month c = 3 /\ day c = 1) \/
                   (month c = 2 /\ day c = 28))
      by (destruct Hshape as [?|Hs]; [auto | inversion Hs; auto]));
    destruct (isleap (year c + 1)) eqn:Eleap;
    [ apply replace_Ok in H; destruct H as [_ ->]
    | apply new_Ok in H; destruct H as (_ & _ & ->)
    | apply replace_Ok in H; destruct H as [_ ->]
    | apply new_Ok in H; destruct H as (_ & _ & ->) ];
    unfold utc_us, toordinal, time_of_day_us, ymd2ord, days_before_month,
      US_PER_DAY, US_PER_SECOND;
    simpl; rewrite ?Eleap;
    destruct Hmd as [[Hm' Hd'] | [[Hm' Hd'] | [Hm' Hd']]]; rewrite Hm', Hd' in *;
    cbn -[Z.add Z.mul Z.sub] in *;
    try (destruct Hshape as [[_ Hx] | Hx]; [lia | inversion Hx]; fail);
    destruct (isleap (year c)); try (specialize (Hsucc eq_refl); discriminate);
    cbn -[Z.add Z.mul Z.sub] in *; lia.
Qed.

(** One step of a rule moves at most its period. *)
Lemma rule_body_step_bound pol anchor rule c c' :
  rule = DAY \/ rule = WEEK \/ rule = MONTH \/ (rule = YEAR /\ is_feb29 anchor = false) ->
  valid c = true -> rule_body pol anchor rule c = Ok c' ->
  utc_us c' <= utc_us c + period_days rule * US_PER_DAY.
Proof.
  intros [-> | [-> | [-> | [-> Hf]]]] Hv H; simpl in H; simpl period_days.
  - destruct (add_days_spec 1 _ _ Hv H) as (_ & Hu & _). simpl Z.of_nat in Hu. lia.
  - destruct (add_days_spec 7 _ _ Hv H) as (_ & Hu & _). simpl Z.of_nat in Hu. lia.
  - apply month_step_bound; assumption.
  - unfold year_body in H. unfold is_feb29 in Hf. rewrite Hf in H.
    apply year_step_bound; assumption.
Qed.

Lemma next_occurrence_within_one_period_aux fuel w anchor rule r :
  valid anchor = true ->
  le anchor (utc_now w) = true ->
  calculate_next_occurrence fuel w anchor rule = Some (Ok (Some r)) ->
  utc_us (utc_now w) < utc_us r <=
  utc_us (utc_now w) + period_days rule * US_PER_DAY.
Proof.
  intros Hva Hle H.
  destruct (returned_occurrence_cases _ _ _ _ _ H) as [Hr [[Hgt _] | [_ [k Hfirst]]]].
  { rewrite (le_gt_false _ _ Hle) in Hgt. discriminate. }
  destruct Hfirst as (Hnth & Hgt & Hbefore).
  split; [unfold gt in Hgt; apply Z.ltb_lt in Hgt; exact Hgt|].
  destruct k as [|j].
  { simpl in Hnth. inversion Hnth; subst r.
    rewrite (le_gt_false _ _ Hle) in Hgt. discriminate. }
  destruct (Hbefore j ltac:(lia)) as (c & Hc & Hlec).
  rewrite nth_occurrence_last, Hc in Hnth.
  unfold le in Hlec. apply Z.leb_le in Hlec.
  set (body := rule_body (LEAP_POLICY w) anchor rule) in *.
  assert (Hvc : valid c = true).
  { apply (nth_occurrence_invariant body (fun x => valid x = true)) with (k := j) (c := anchor);
      [|assumption|assumption].
    intros x x' Hx E. apply (rule_body_advances _ _ _ _ _ Hx E). }
  assert (Hstep : utc_us r <= utc_us c + period_days rule * US_PER_DAY);
    [|lia].
  destruct (is_feb29 anchor) eqn:Hf.
  - destruct rule; try contradiction.
    + apply (rule_body_step_bound (LEAP_POLICY w) anchor DAY c r); auto.
    + apply (rule_body_step_bound (LEAP_POLICY w) anchor WEEK c r); auto.
    + apply (rule_body_step_bound (LEAP_POLICY w) anchor MONTH c r); auto.
    + simpl period_days. unfold body in Hnth. simpl in Hnth.
      apply (feb29_step_bound (LEAP_POLICY w) anchor c r Hf Hvc); [|exact Hnth].
      destruct j as [|i].
      * simpl in Hc. inversion Hc; subst c. left.
        unfold is_feb29 in Hf. apply andb_true_iff in Hf.
        destruct Hf as [Hm Hd]. apply Z.eqb_eq in Hm, Hd. auto.
      * right. unfold body in Hc. simpl rule_body in Hc.
        destruct (feb29_substitution_persists (LEAP_POLICY w) anchor Hva Hf i c Hc)
          as (_ & _ & Hmd & _). exact Hmd.
  - apply (rule_body_step_bound (LEAP_POLICY w) anchor rule c r); [|assumption|exact Hnth].
    destruct rule; try contradiction; auto.
Qed.

(** X4.  When the anchor is not after the clock reading, the returned
    occurrence is after the clock reading by at most one period of the
    rule: one day under DAY, seven days under WEEK, 31 days under MONTH and
    366 days under YEAR. *)
Theorem next_occurrence_within_one_period fuel w anchor rule r :
  valid anchor = true ->
  le anchor (utc_now w) = true ->
  calculate_next_occurrence fuel w anchor rule = Some (Ok (Some r)) ->
  utc_us (utc_now w) < utc_us r <=
  utc_us (utc_now w) + period_days rule * US_PER_DAY.
Proof. apply next_occurrence_within_one_period_aux. Qed.

Lemma next_occurrence_within_one_period_witness :
  exists r,
    calculate_next_occurrence 700 world_2026_11_04 anchor_2025_01_15 MONTH
      = Some (Ok (Some r)) /\
    utc_us r <= utc_us (utc_now world_2026_11_04) + 31 * US_PER_DAY.
Proof.
  eexists. split; [vm_compute; reflexivity|].
  match goal with
  | |- utc_us ?r <= _ =>
      destruct (next_occurrence_within_one_period
                  700 world_2026_11_04 anchor_2025_01_15 MONTH r) as [_ Hb]
  end.
  - reflexivity.
  - reflexivity.
  - vm_compute. reflexivity.
  - exact Hb.
Defined.

End Period.

Section ClockMonotone.
Import Calendar Datetime Models EventService Samples.

Lemma first_after_now_ordered body now1 now2 anchor k1 r1 k2 r2 :
  (forall c c', valid c = true -> body c = Ok c' ->
                valid c' = true /\ utc_us c + US_PER_DAY <= utc_us c') ->
  valid anchor = true ->
  utc_us now1 <= utc_us now2 ->
  first_after_now body now1 anchor k1 r1 ->
  first_after_now body now2 anchor k2 r2 ->
  utc_us r1 <= utc_us r2.
Proof.
  intros Hadv Hva Hnow (Hn1 & Hg1 & Hb1) (Hn2 & Hg2 & Hb2).
  destruct (Nat.le_gt_cases k1 k2) as [Hle|Hlt].
  - replace k2 with (k1 + (k2 - k1))%nat in Hn2 by lia.
    rewrite nth_occurrence_plus, Hn1 in Hn2.
    assert (valid r1 = true) as Hv1.
    { apply (nth_occurrence_monotone body Hadv k1 anchor r1 Hva Hn1). }
    apply (nth_occurrence_monotone body Hadv _ r1 r2 Hv1 Hn2).
  - destruct (Hb1 k2 Hlt) as (c & Hc & Hlec).
    rewrite Hn2 in Hc. inversion Hc; subst c.
    unfold le in Hlec. apply Z.leb_le in Hlec.
    unfold gt in Hg2. apply Z.ltb_lt in Hg2. lia.
Qed.

(** The first candidate after a clock reading is determined by the
    sequence. *)
Lemma first_after_now_unique body now anchor k1 r1 k2 r2 :
  first_after_now body now anchor k1 r1 ->
  first_after_now body now anchor k2 r2 ->
  k1 = k2 /\ r1 = r2.
Proof.
  intros (Hn1 & Hg1 & Hb1) (Hn2 & Hg2 & Hb2).
  assert (Hno : forall k r k' r',
             nth_occurrence body k anchor = Ok r -> gt r now = true ->
             (forall j, (j < k')%nat ->
                exists cj, nth_occurrence body j anchor = Ok cj /\ le cj now = true) ->
             nth_occurrence body k' anchor = Ok r' -> ~ (k < k')%nat).
  { intros k r k' r' Hn Hg Hb _ Hlt.
    destruct (Hb k Hlt) as (c & Hc & Hlec). rewrite Hn in Hc. inversion Hc; subst c.
    rewrite gt_negb_le, Hlec in Hg. discriminate. }
  assert (k1 = k2) as Hk.
  { pose proof (Hno _ _ _ _ Hn1 Hg1 Hb2 Hn2). pose proof (Hno _ _ _ _ Hn2 Hg2 Hb1 Hn1).
    lia. }
  split; [exact Hk|]. subst k2. rewrite Hn1 in Hn2. inversion Hn2. reflexivity.
Qed.

Lemma next_occurrence_monotone_aux fuel1 fuel2 w1 w2 anchor rule r1 r2 :
  valid anchor = true ->
  LEAP_POLICY w1 = LEAP_POLICY w2 ->
  utc_us (utc_now w1) <= utc_us (utc_now w2) ->
  calculate_next_occurrence fuel1 w1 anchor rule = Some (Ok (Some r1)) ->
  calculate_next_occurrence fuel2 w2 anchor rule = Some (Ok (Some r2)) ->
  utc_us r1 <= utc_us r2.
Proof.
  intros Hva Hpol Hnow H1 H2.
  destruct (returned_occurrence_cases _ _ _ _ _ H1) as [_ C1].
  destruct (returned_occurrence_cases _ _ _ _ _ H2) as [_ C2].
  assert (Hadv : forall c c', valid c = true ->
                   rule_body (LEAP_POLICY w2) anchor rule c = Ok c' ->
                   valid c' = true /\ utc_us c + US_PER_DAY <= utc_us c').
  { intros c c' Hc E. destruct (rule_body_advances _ _ _ _ _ Hc E) as (? & ? & _). auto. }
  destruct C1 as [[Hg1 ->] | [Hl1 [k1 F1]]], C2 as [[Hg2 ->] | [Hl2 [k2 F2]]].
  - lia.
  - destruct F2 as (Hn2 & _).
    apply (nth_occurrence_monotone _ Hadv k2 anchor r2 Hva Hn2).
  - unfold gt in Hg2. apply Z.ltb_lt in Hg2.
    unfold le in Hl1. apply Z.leb_le in Hl1. lia.
  - rewrite Hpol in F1.
    apply (first_after_now_ordered _ _ _ _ _ _ _ _ Hadv Hva Hnow F1 F2).
Qed.

(** An occurrence that is still after a later clock reading is what a call
    at that reading returns. *)
Lemma next_occurrence_still_ahead fuel1 fuel2 w1 w2 anchor rule r1 r2 :
  LEAP_POLICY w1 = LEAP_POLICY w2 ->
  utc_us (utc_now w1) <= utc_us (utc_now w2) ->
  calculate_next_occurrence fuel1 w1 anchor rule = Some (Ok (Some r1)) ->
  calculate_next_occurrence fuel2 w2 anchor rule = Some (Ok (Some r2)) ->
  gt r1 (utc_now w2) = true ->
  r2 = r1.
Proof.
  intros Hpol Hnow H1 H2 Hahead.
  destruct (returned_occurrence_cases _ _ _ _ _ H1) as [Hr C1].
  destruct (returned_occurrence_cases _ _ _ _ _ H2) as [_ C2].
  destruct C1 as [[Hg1 ->] | [Hl1 [k1 F1]]].
  - rewrite (anchor_after_now_returned fuel2 w2 anchor rule Hr Hahead) in H2.
    inversion H2. reflexivity.
  - destruct C2 as [[Hg2 ->] | [Hl2 [k2 F2]]].
    + unfold gt in Hg2. apply Z.ltb_lt in Hg2.
      unfold le in Hl1. apply Z.leb_le in Hl1. lia.
    + rewrite Hpol in F1. destruct F1 as (Hn1 & _ & Hb1).
      assert (first_after_now (rule_body (LEAP_POLICY w2) anchor rule)
                              (utc_now w2) anchor k1 r1) as F1'.
      { split; [exact Hn1|]. split; [exact Hahead|].
        intros j Hj. destruct (Hb1 j Hj) as (c & Hc & Hlec).
        exists c. split; [exact Hc|].
        unfold le in *. apply Z.leb_le in Hlec. apply Z.leb_le. lia. }
      destruct (first_after_now_unique _ _ _ _ _ _ _ F1' F2) as [_ Heq].
      symmetry. exact Heq.
Qed.

(** X5.  The next occurrence never moves back as the clock moves on: for
    one anchor and rule under one leap policy, a call that reads a later
    instant returns a later or equal occurrence. *)
Theorem next_occurrence_monotone_in_clock fuel1 fuel2 w1 w2 anchor rule r1 r2 :
  valid anchor = true ->
  LEAP_POLICY w1 = LEAP_POLICY w2 ->
  utc_us (utc_now w1) <= utc_us (utc_now w2) ->
  calculate_next_occurrence fuel1 w1 anchor rule = Some (Ok (Some r1)) ->
  calculate_next_occurrence fuel2 w2 anchor rule = Some (Ok (Some r2)) ->
  utc_us r1 <= utc_us r2.
Proof. apply next_occurrence_monotone_aux. Qed.

Lemma next_occurrence_monotone_in_clock_witness :
  exists r1 r2,
    calculate_next_occurrence 50 world_2025_01_10 anchor_2025_01_01 WEEK
      = Some (Ok (Some r1)) /\
    calculate_next_occurrence 50 world_2025_02_10 anchor_2025_01_01 WEEK
      = Some (Ok (Some r2)) /\
    utc_us r1 <= utc_us r2.
Proof.
  eexists. eexists.
  split; [vm_compute; reflexivity|]. split; [vm_compute; reflexivity|].
  match goal with
  | |- utc_us ?r1 <= utc_us ?r2 =>
      apply (next_occurrence_monotone_in_clock
               50 50 world_2025_01_10 world_2025_02_10 anchor_2025_01_01 WEEK r1 r2)
  end.
  - reflexivity.
  - reflexivity.
  - vm_compute. discriminate.
  - vm_compute. reflexivity.
  - vm_compute. reflexivity.
Defined.

End ClockMonotone.

Section RemainingSeconds.
Import Calendar Datetime Models Schemas EventService Samples.

(** X6.  [calculate_remaining_seconds] looks at the two instants only.  For
    any two instants it is negative exactly when the due instant is a whole
    second or more before the reference, zero exactly when the two are less
    than a second apart in either direction, positive exactly when the due
    instant is a whole second or more after, and swapping the arguments
    changes the sign.  While the instants are less than 2^34 seconds (some
    544 years) apart it is the exact difference in seconds truncated toward
    zero.  Beyond that the float of [total_seconds] can round a fraction
    of .999999 up to the next whole second: from 0001-01-01T00:00:00Z to
    9999-12-31T23:59:59.999999Z the result is 315537897600, one more than
    the 315537897599 whole seconds that lie between. *)
Theorem remaining_seconds_sign effective_due_at server_now :
  (calculate_remaining_seconds effective_due_at server_now < 0 <->
   utc_us effective_due_at + US_PER_SECOND <= utc_us server_now) /\
  (calculate_remaining_seconds effective_due_at server_now = 0 <->
   utc_us server_now - US_PER_SECOND < utc_us effective_due_at
   < utc_us server_now + US_PER_SECOND) /\
  (0 < calculate_remaining_seconds effective_due_at server_now <->
   utc_us server_now + US_PER_SECOND <= utc_us effective_due_at) /\
  calculate_remaining_seconds server_now effective_due_at =
  - calculate_remaining_seconds effective_due_at server_now /\
  (- (2 ^ 34 * US_PER_SECOND) < utc_us effective_due_at - utc_us server_now
   < 2 ^ 34 * US_PER_SECOND ->
   calculate_remaining_seconds effective_due_at server_now =
   Z.quot (utc_us effective_due_at - utc_us server_now) US_PER_SECOND) /\
  calculate_remaining_seconds (mk_datetime 9999 12 31 23 59 59 999999 0)
                              (utc 1 1 1 0 0 0) = 315537897600 /\
  Z.quot (utc_us (mk_datetime 9999 12 31 23 59 59 999999 0) - utc_us (utc 1 1 1 0 0 0))
         US_PER_SECOND = 315537897599.
Proof.
  destruct (calculate_remaining_seconds_cases effective_due_at server_now)
    as (Hneg & Hzero & Hpos).
  set (a := utc_us effective_due_at) in *. set (b := utc_us server_now) in *.
  assert (a + US_PER_SECOND <= b \/
          b - US_PER_SECOND < a < b + US_PER_SECOND \/
          b + US_PER_SECOND <= a) as Hcases by (unfold US_PER_SECOND; lia).
  split; [|split; [|split; [|split; [|split; [|split]]]]].
  - split; intros H; [|specialize (Hneg H); lia].
    destruct Hcases as [Hc | [Hc | Hc]];
      [assumption | specialize (Hzero Hc); lia | specialize (Hpos Hc); lia].
  - split; intros H; [|apply Hzero; assumption].
    destruct Hcases as [Hc | [Hc | Hc]];
      [specialize (Hneg Hc); lia | assumption | specialize (Hpos Hc); lia].
  - split; intros H; [|specialize (Hpos H); lia].
    destruct Hcases as [Hc | [Hc | Hc]];
      [specialize (Hneg Hc); lia | specialize (Hzero Hc); lia | assumption].
  - apply calculate_remaining_seconds_swap.
  - apply calculate_remaining_seconds_exact.
  - vm_compute. reflexivity.
  - vm_compute. reflexivity.
Qed.

(** X7.  A due instant a whole number of days after the reference gives that
    many times 86400 seconds, and the same number negated the other way
    round. *)
Theorem remaining_seconds_whole_days n server_now effective_due_at :
  valid server_now = true ->
  add_days n server_now = Ok effective_due_at ->
  calculate_remaining_seconds effective_due_at server_now = Z.of_nat n * 86400 /\
  calculate_remaining_seconds server_now effective_due_at = - (Z.of_nat n * 86400).
Proof.
  intros Hv H. destruct (add_days_spec _ _ _ Hv H) as (Hv' & Hu & Ho & _).
  assert (Z.of_nat n * 86400 < 2 ^ 52) as Hsmall.
  { pose proof (toordinal_bounds _ Hv) as [Hlo _].
    pose proof (toordinal_bounds _ Hv') as [_ Hhi].
    apply valid_iff in Hv. apply valid_iff in Hv'.
    pose proof (days_before_year_mono 1 (year server_now) ltac:(lia)).
    pose proof (days_before_year_mono (year effective_due_at + 1) 10000 ltac:(lia)).
    change (days_before_year 1) with 0 in *.
    change (days_before_year 10000) with 3652059 in *.
    change (2 ^ 52) with 4503599627370496. lia. }
  assert (calculate_remaining_seconds effective_due_at server_now = Z.of_nat n * 86400)
    as Heq.
  { apply Z.le_antisymm.
    - apply calculate_remaining_seconds_upper.
      + unfold US_PER_DAY, US_PER_SECOND in *. lia.
      + change (2 ^ 53) with 9007199254740992.
        change (2 ^ 52) with 4503599627370496 in Hsmall. lia.
    - apply calculate_remaining_seconds_lower.
      + lia.
      + unfold US_PER_DAY, US_PER_SECOND in *. lia. }
  split; [exact Heq|].
  rewrite calculate_remaining_seconds_swap, Heq. reflexivity.
Qed.

Lemma remaining_seconds_whole_days_witness :
  calculate_remaining_seconds (utc 2025 1 2 12 0 0) (utc 2025 1 1 12 0 0) = 86400 /\
  calculate_remaining_seconds (utc 2025 1 1 12 0 0) (utc 2025 1 2 12 0 0) = - 86400.
Proof.
  apply (remaining_seconds_whole_days 1 (utc 2025 1 1 12 0 0) (utc 2025 1 2 12 0 0)).
  - reflexivity.
  - reflexivity.
Defined.

Lemma recurring_dict_is_due_after_clock fuel w event server_now attachments storage d :
  Models.repeat_interval event <> NONE ->
  utc_us server_now <= utc_us (utc_now w) ->
  enrich_event fuel w event server_now attachments storage = Some (Ok d) ->
  0 <= remaining_seconds d /\ is_overdue d = false /\ color_bucket d <> None /\
  exists r, next_occurrence d = Some r /\ effective_due_at d = r /\
            gt r (utc_now w) = true.
Proof.
  intros Hr Hnow H.
  destruct (enrich_event_Ok _ _ _ _ _ _ _ H) as (next & responses & E & _ & ->).
  assert (RepeatInterval_eqb (Models.repeat_interval event) NONE = false) as Hneq.
  { destruct (Models.repeat_interval event); try reflexivity. contradiction. }
  rewrite Hneq in E. simpl negb in E. cbv iota in E.
  destruct next as [r|].
  2:{ exfalso. apply (recurring_never_none _ _ _ _ Hr E). }
  assert (gt r (utc_now w) = true) as Hgt.
  { destruct (returned_occurrence_cases _ _ _ _ _ E) as [_ [[Hg ->] | [_ [k F]]]].
    - exact Hg.
    - apply F. }
  simpl.
  assert (0 <= calculate_remaining_seconds r server_now) as Hpos.
  { unfold gt in Hgt. apply Z.ltb_lt in Hgt.
    apply calculate_remaining_seconds_nonneg. lia. }
  split; [exact Hpos|]. split; [apply Z.ltb_ge; exact Hpos|].
  split; [|exists r; auto].
  intros Hnone. apply get_color_bucket_None_iff in Hnone. lia.
Qed.

(** X8.  A recurring event is never reported overdue: when [server_now] was
    read no later than the clock reading of the call, every dict that
    [enrich_event] returns for a rule other than NONE has a non-negative
    [remaining_seconds], [is_overdue] false and a colour bucket; its due
    date is its next occurrence, which is after the clock reading. *)
Theorem recurring_event_is_never_overdue fuel w event server_now attachments storage d :
  Models.repeat_interval event <> NONE ->
  utc_us server_now <= utc_us (utc_now w) ->
  enrich_event fuel w event server_now attachments storage = Some (Ok d) ->
  0 <= remaining_seconds d /\ is_overdue d = false /\ color_bucket d <> None /\
  exists r, next_occurrence d = Some r /\ effective_due_at d = r /\
            gt r (utc_now w) = true.
Proof. apply recurring_dict_is_due_after_clock. Qed.

Lemma recurring_event_is_never_overdue_witness :
  exists d,
    enrich_event 700 world_2026_11_04 event_2025_01_15 (utc 2026 11 4 10 0 0) None None
      = Some (Ok d) /\
    is_overdue d = false.
Proof.
  eexists. split; [vm_compute; reflexivity|].
  match goal with
  | |- is_overdue ?d = false =>
      destruct (recurring_event_is_never_overdue
                  700 world_2026_11_04 event_2025_01_15 (utc 2026 11 4 10 0 0)
                  None None d) as (_ & Hov & _)
  end.
  - discriminate.
  - vm_compute. discriminate.
  - vm_compute. reflexivity.
  - exact Hov.
Defined.

End RemainingSeconds.

(** ** The routes *)

Section StoredOccurrence.
Import Calendar Datetime Models Schemas EventService Samples.
Import EventServiceRest Api.

(** X9.  [RepeatInterval(value)] inverts [.value]: each member is found
    again from its value, a text is accepted only if it is the value of the
    member returned, and any other text, the upper-case "NONE" included,
    raises [ValueError]. *)
Theorem RepeatInterval_value_round_trip :
  (forall r, RepeatInterval_of_value (RepeatInterval_value r) = Ok r) /\
  (forall s r, RepeatInterval_of_value s = Ok r -> RepeatInterval_value r = s) /\
  (forall s, (forall r, RepeatInterval_value r <> s) ->
             RepeatInterval_of_value s = Raise ValueError) /\
  RepeatInterval_of_value "NONE" = Raise ValueError.
Proof.
  split; [intros []; reflexivity|].
  split; [|split; [|reflexivity]].
  - intros s r. unfold RepeatInterval_of_value.
    destruct (String.eqb_spec s "none"); [intros H; inversion H; subst; reflexivity|].
    destruct (String.eqb_spec s "day"); [intros H; inversion H; subst; reflexivity|].
    destruct (String.eqb_spec s "week"); [intros H; inversion H; subst; reflexivity|].
    destruct (String.eqb_spec s "month"); [intros H; inversion H; subst; reflexivity|].
    destruct (String.eqb_spec s "year"); [intros H; inversion H; subst; reflexivity|].
    discriminate.
  - intros s Hs. unfold RepeatInterval_of_value.
    destruct (String.eqb_spec s "none"); [exfalso; apply (Hs NONE); auto|].
    destruct (String.eqb_spec s "day"); [exfalso; apply (Hs DAY); auto|].
    destruct (String.eqb_spec s "week"); [exfalso; apply (Hs WEEK); auto|].
    destruct (String.eqb_spec s "month"); [exfalso; apply (Hs MONTH); auto|].
    destruct (String.eqb_spec s "year"); [exfalso; apply (Hs YEAR); auto|].
    reflexivity.
Qed.

Lemma set_next_occurrence_same event :
  set_next_occurrence event (Models.next_occurrence event) = event.
Proof. destruct event; reflexivity. Qed.

(** X10.  The guard of [import_shared_event] compares the rule's value with
    "NONE", which no member has, so it holds for every rule and the next
    occurrence is computed for non-recurring imports too.  On an event as
    the repository creates it (no stored next occurrence) this stores the
    same event as the guard of [create_event], which compares with "none". *)
Theorem import_stores_what_create_stores fuel w event :
  Models.next_occurrence event = None ->
  (forall r, String.eqb (RepeatInterval_value r) "NONE" = false) /\
  import_store_next_occurrence fuel w event = events_store_next_occurrence fuel w event.
Proof.
  intros Hnone. split; [intros []; reflexivity|].
  unfold import_store_next_occurrence, events_store_next_occurrence, store_next_occurrence.
  destruct (Models.repeat_interval event) eqn:Er; simpl; try reflexivity.
  rewrite <- Hnone. rewrite set_next_occurrence_same. reflexivity.
Qed.

Lemma import_stores_what_create_stores_witness :
  import_store_next_occurrence 0 world_2026_11_04 event_2025_01_31_once =
  events_store_next_occurrence 0 world_2026_11_04 event_2025_01_31_once.
Proof.
  apply (import_stores_what_create_stores 0 world_2026_11_04 event_2025_01_31_once).
  reflexivity.
Defined.

(** X11.  The stored next occurrence is a snapshot.  [create_event],
    [update_event] and [import_shared_event] store what the calculator
    returns at their clock reading; [enrich_event] never looks at the stored
    column and computes the occurrence again at its own, later reading.
    Under one leap policy, for a recurring rule, [get_effective_due_at] on
    the stored event is the stored occurrence and is never after the
    [effective_due_at] of the dict, and the two are the same exactly when the
    stored occurrence is still after the later clock reading.  For the rule
    NONE both are the event date. *)
Theorem stored_occurrence_is_a_snapshot
        literal fuel1 fuel2 w1 w2 event event' server_now attachments storage d :
  literal = "none"%string \/ literal = "NONE"%string ->
  valid (Models.event_date event) = true ->
  LEAP_POLICY w1 = LEAP_POLICY w2 ->
  utc_us (utc_now w1) <= utc_us (utc_now w2) ->
  store_next_occurrence literal fuel1 w1 event = Some (Ok event') ->
  enrich_event fuel2 w2 event' server_now attachments storage = Some (Ok d) ->
  (Models.repeat_interval event = NONE ->
   get_effective_due_at event' = Models.event_date event /\
   effective_due_at d = Models.event_date event) /\
  (Models.repeat_interval event <> NONE ->
   Models.next_occurrence event' = Some (get_effective_due_at event') /\
   next_occurrence d = Some (effective_due_at d) /\
   utc_us (get_effective_due_at event') <= utc_us (effective_due_at d) /\
   (effective_due_at d = get_effective_due_at event' <->
    gt (get_effective_due_at event') (utc_now w2) = true)).
Proof.
  intros Hlit Hva Hpol Hnow Hstore Henrich.
  destruct (enrich_event_Ok _ _ _ _ _ _ _ Henrich) as (next & responses & E & _ & ->).
  clear Henrich. unfold store_next_occurrence in Hstore. unfold get_effective_due_at.
  destruct event as [i u t de date rule stored tz ca ua]. simpl in *.
  destruct (RepeatInterval_eqb rule NONE) eqn:Enone.
  - assert (rule = NONE) as -> by (destruct rule; try discriminate; reflexivity).
    split; [|intros Hc; contradiction]. intros _.
    destruct Hlit as [-> | ->]; simpl in Hstore;
      inversion Hstore; subst event'; clear Hstore; simpl in *;
      inversion E; subst next; simpl; split; reflexivity.
  - assert (rule <> NONE) as Hr by (intros ->; discriminate).
    split; [intros Hc; contradiction|]. intros _.
    assert (String.eqb (RepeatInterval_value rule) literal = false) as Hguard.
    { destruct Hlit as [-> | ->]; destruct rule; try reflexivity; contradiction. }
    rewrite Hguard in Hstore. simpl negb in Hstore. cbv iota in Hstore.
    destruct (calculate_next_occurrence fuel1 w1 date rule) as [[n1|e]|] eqn:E1;
      try discriminate.
    inversion Hstore; subst event'; clear Hstore. simpl in *.
    rewrite Enone in *. simpl in E. simpl.
    destruct n1 as [r1|]; [|exfalso; apply (recurring_never_none _ _ _ _ Hr E1)].
    destruct next as [r2|]; [|exfalso; apply (recurring_never_none _ _ _ _ Hr E)].
    simpl. split; [reflexivity|]. split; [reflexivity|].
    split; [apply (next_occurrence_monotone_aux _ _ _ _ _ _ _ _ Hva Hpol Hnow E1 E)|].
    split.
    + intros <-.
      destruct (returned_occurrence_cases _ _ _ _ _ E) as [_ [[Hg ->] | [_ [k F]]]].
      * exact Hg.
      * apply F.
    + intros Hahead.
      apply (next_occurrence_still_ahead _ _ _ _ _ _ _ _ Hpol Hnow E1 E Hahead).
Qed.

(** The standup anchored on 2025-01-01T12:00Z is created while the clock
    reads 2025-01-10T00:00Z and listed while it reads 2025-01-10T13:00Z:
    the stored occurrence is 2025-01-10T12:00Z, the dict says
    2025-01-11T12:00Z. *)
Lemma stored_occurrence_is_a_snapshot_witness :
  exists event' d,
    events_store_next_occurrence 50 world_2025_01_10 event_2025_01_01_daily
      = Some (Ok event') /\
    enrich_event 50 (mk_World (utc 2025 1 10 13 0 0) "feb28") event'
                 (utc 2025 1 10 13 0 0) None None = Some (Ok d) /\
    get_effective_due_at event' = utc 2025 1 10 12 0 0 /\
    effective_due_at d = utc 2025 1 11 12 0 0 /\
    utc_us (get_effective_due_at event') <= utc_us (effective_due_at d).
Proof.
  eexists. eexists.
  split; [vm_compute; reflexivity|]. split; [vm_compute; reflexivity|].
  split; [reflexivity|]. split; [reflexivity|].
  match goal with
  | |- utc_us (get_effective_due_at ?e) <= utc_us (effective_due_at ?d) =>
      destruct (stored_occurrence_is_a_snapshot
                  "none" 50 50 world_2025_01_10
                  (mk_World (utc 2025 1 10 13 0 0) "feb28")
                  event_2025_01_01_daily e
                  (utc 2025 1 10 13 0 0) None None d) as [_ Hrec]
  end.
  - left. reflexivity.
  - reflexivity.
  - reflexivity.
  - vm_compute. discriminate.
  - vm_compute. reflexivity.
  - vm_compute. reflexivity.
  - apply Hrec. discriminate.
Defined.

End StoredOccurrence.

(** ** Listing *)

Section SortFacts.
Import Schemas EventService.
Context {A : Type} (key : A -> Z).

Lemma insert_by_key_front x l :
  Forall (fun y => key x <= key y) l -> insert_by_key key x l = x :: l.
Proof.
  intros H. destruct H as [|y l Hy _]; simpl.
  - reflexivity.
  - replace (key x <=? key y) with true by (symmetry; apply Z.leb_le; exact Hy).
    reflexivity.
Qed.

Lemma sorted_fixed l :
  StronglySorted (fun a b => key a <= key b) l -> sorted key l = l.
Proof.
  induction 1 as [|x l Hs IH Hall]; simpl.
  - reflexivity.
  - rewrite IH. apply insert_by_key_front. exact Hall.
Qed.

Lemma filter_insert_by_key (p : A -> bool) x l :
  StronglySorted (fun a b => key a <= key b) l ->
  filter p (insert_by_key key x l) =
  if p x then insert_by_key key x (filter p l) else filter p l.
Proof.
  induction 1 as [|y l Hs IH Hall].
  - simpl. destruct (p x); reflexivity.
  - simpl insert_by_key. destruct (Z.leb_spec (key x) (key y)) as [Hle|Hgt].
    + assert (Hfront : Forall (fun z => key x <= key z) (filter p (y :: l))).
      { apply Forall_forall. intros z Hz. apply filter_In in Hz. destruct Hz as [Hz _].
        destruct Hz as [<-|Hz]; [exact Hle|].
        rewrite Forall_forall in Hall. specialize (Hall z Hz). lia. }
      change (filter p (x :: y :: l))
        with (if p x then x :: filter p (y :: l) else filter p (y :: l)).
      destruct (p x); [|reflexivity].
      symmetry. apply insert_by_key_front. exact Hfront.
    + simpl. rewrite IH. destruct (p y) eqn:Py, (p x) eqn:Px; try reflexivity.
      simpl. replace (key x <=? key y) with false by (symmetry; apply Z.leb_gt; exact Hgt).
      reflexivity.
Qed.

Lemma sorted_filter (p : A -> bool) l :
  sorted key (filter p l) = filter p (sorted key l).
Proof.
  induction l as [|x l IH]; simpl.
  - reflexivity.
  - rewrite filter_insert_by_key by apply sorted_ascending.
    destruct (p x); simpl; rewrite IH; reflexivity.
Qed.

End SortFacts.

Section Listing.
Import Calendar Datetime Models Schemas EventService Samples.
Import Api.

(** X12.  [sort_events_by_remaining_time] leaves a list that is already in
    ascending order of [remaining_seconds] as it is, so sorting twice is
    sorting once. *)
Theorem sort_events_is_idempotent :
  (forall l, StronglySorted (fun a b => remaining_seconds a <= remaining_seconds b) l ->
             sort_events_by_remaining_time l = l) /\
  (forall l, sort_events_by_remaining_time (sort_events_by_remaining_time l) =
             sort_events_by_remaining_time l).
Proof.
  unfold sort_events_by_remaining_time. split.
  - intros l H. apply sorted_fixed. exact H.
  - intros l. apply sorted_fixed. apply sorted_ascending.
Qed.

(** X13.  Filtering and sorting commute: sorting the events that pass a
    test gives the sorted list with the others removed.  So the default
    listing of [list_events] is the listing with [include_overdue] with the
    overdue items taken out, and it is the sorted upcoming part of
    [filter_overdue]. *)
Theorem sort_commutes_with_filter :
  (forall (p : Enriched -> bool) l,
      sort_events_by_remaining_time (filter p l) =
      filter p (sort_events_by_remaining_time l)) /\
  (forall l,
      list_events_items false l =
      filter (fun e => negb (is_overdue e)) (list_events_items true l)) /\
  (forall l,
      list_events_items false l =
      sort_events_by_remaining_time (fst (filter_overdue l))).
Proof.
  unfold list_events_items, sort_events_by_remaining_time, filter_overdue. simpl.
  split; [intros p l; apply sorted_filter|].
  split; [intros l; apply sorted_filter | reflexivity].
Qed.

(** Every dict of [enrich_all] comes from [enrich_event] on the event at its
    position. *)
Lemma enrich_all_spec fuel clock server_now attachments_of storage events :
  forall i enriched,
  enrich_all fuel clock i server_now attachments_of storage events = Some (Ok enriched) ->
  Forall enriched_by_service enriched /\
  map id enriched = map Models.id events.
Proof.
  induction events as [|event events IH]; intros i enriched H; simpl in H.
  - inversion H; subst. split; [constructor | reflexivity].
  - destruct (enrich_event fuel (clock i) event server_now
                           (Some (attachments_of event)) (Some storage))
      as [[d|e]|] eqn:E; try discriminate.
    destruct (enrich_all fuel clock (S i) server_now attachments_of storage events)
      as [[rest|e]|] eqn:Erest; try discriminate.
    inversion H; subst enriched; clear H.
    destruct (IH _ _ Erest) as [Hall Hids].
    split.
    + constructor; [|exact Hall].
      exists fuel, (clock i), event, server_now, (Some (attachments_of event)), (Some storage).
      exact E.
    + simpl. rewrite Hids. f_equal.
      destruct (enrich_event_Ok _ _ _ _ _ _ _ E) as (next & responses & _ & _ & ->).
      reflexivity.
Qed.

Lemma service_dict_coherent d :
  enriched_by_service d ->
  is_overdue d = (remaining_seconds d <? 0) /\
  color_bucket d = get_color_bucket (remaining_seconds d).
Proof.
  intros (fuel & w & event & server_now & atts & storage & E).
  destruct (enrich_event_fields _ _ _ _ _ _ _ E) as [Hcb Hov]. auto.
Qed.

(** X14.  The items of [list_events] are in ascending order of
    [remaining_seconds] and are the dicts of the user's events, each once:
    their ids are a permutation of the ids of the events enriched, without
    the overdue ones unless [include_overdue] is set.  In the default
    listing no item is overdue and every item has a colour bucket. *)
Theorem list_events_items_are_sorted_upcoming
        fuel clock server_now attachments_of storage include_overdue events items :
  list_events fuel clock server_now attachments_of storage include_overdue events
    = Some (Ok items) ->
  StronglySorted (fun a b => remaining_seconds a <= remaining_seconds b) items /\
  Forall enriched_by_service items /\
  (List.length items <= List.length events)%nat /\
  (include_overdue = true -> Permutation (map id items) (map Models.id events)) /\
  (include_overdue = false ->
   Forall (fun d => is_overdue d = false /\ color_bucket d <> None /\
                    0 <= remaining_seconds d) items).
Proof.
  unfold list_events. intros H.
  destruct (enrich_all fuel clock 0 server_now attachments_of storage events)
    as [[enriched|e]|] eqn:E; try discriminate.
  inversion H; subst items; clear H.
  destruct (enrich_all_spec _ _ _ _ _ _ _ _ E) as [Hall Hids].
  assert (Hlen : List.length enriched = List.length events).
  { rewrite <- (length_map id enriched), Hids. apply length_map. }
  unfold list_events_items, sort_events_by_remaining_time.
  split; [apply sorted_ascending|].
  split; [|split; [|split]].
  - eapply Permutation_Forall; [apply sorted_perm|].
    destruct include_overdue; simpl; [exact Hall|].
    apply Forall_forall. intros d Hd. apply filter_In in Hd.
    rewrite Forall_forall in Hall. apply Hall. apply Hd.
  - rewrite <- (Permutation_length (sorted_perm remaining_seconds _)).
    destruct include_overdue; simpl; [lia|].
    rewrite <- Hlen. apply filter_length_le.
  - intros ->. simpl. rewrite <- Hids.
    apply Permutation_map. apply Permutation_sym. apply sorted_perm.
  - intros ->. simpl.
    eapply Permutation_Forall; [apply sorted_perm|].
    apply Forall_forall. intros d Hd. apply filter_In in Hd. destruct Hd as [Hin Hov].
    rewrite Forall_forall in Hall.
    destruct (service_dict_coherent d (Hall d Hin)) as [Hover Hbucket].
    apply negb_true_iff in Hov. rewrite Hover in Hov. apply Z.ltb_ge in Hov.
    split; [rewrite Hover; apply Z.ltb_ge; exact Hov|].
    split; [|exact Hov].
    rewrite Hbucket. intros Hnone. apply get_color_bucket_None_iff in Hnone. lia.
Qed.

Lemma list_events_items_are_sorted_upcoming_witness :
  exists items,
    list_events 700 (fun _ => world_2026_11_04) (utc 2026 11 4 10 0 0)
                (fun _ => []) (mk_StorageService (fun k => k)) false
                [event_2025_01_31_once; event_2025_01_15] = Some (Ok items) /\
    map id items = ["e1"%string] /\
    Forall (fun d => is_overdue d = false /\ color_bucket d <> None /\
                     0 <= remaining_seconds d) items.
Proof.
  eexists. split; [vm_compute; reflexivity|]. split; [reflexivity|].
  match goal with
  | |- Forall _ ?items =>
      destruct (list_events_items_are_sorted_upcoming
                  700 (fun _ => world_2026_11_04) (utc 2026 11 4 10 0 0)
                  (fun _ => []) (mk_StorageService (fun k => k)) false
                  [event_2025_01_31_once; event_2025_01_15] items)
        as (_ & _ & _ & _ & Hup)
  end.
  - vm_compute. reflexivity.
  - apply Hup. reflexivity.
Defined.

(** X15.  On dicts returned by [enrich_event], sorting the whole list is
    sorting the overdue part and the upcoming part of [filter_overdue]
    separately and putting the overdue part first. *)
Theorem sort_is_overdue_then_upcoming enriched_events :
  Forall enriched_by_service enriched_events ->
  sort_events_by_remaining_time enriched_events =
  sort_events_by_remaining_time (snd (filter_overdue enriched_events)) ++
  sort_events_by_remaining_time (fst (filter_overdue enriched_events)).
Proof.
  intros Hall. unfold filter_overdue, sort_events_by_remaining_time. simpl.
  rewrite !sorted_filter.
  rewrite (ascending_negative_first remaining_seconds
             (sorted remaining_seconds enriched_events)) at 1
    by apply sorted_ascending.
  assert (Hin : forall d, In d (sorted remaining_seconds enriched_events) ->
                          is_overdue d = (remaining_seconds d <? 0)).
  { intros d Hd. apply service_dict_coherent.
    rewrite Forall_forall in Hall. apply Hall.
    apply (Permutation_in d (Permutation_sym (sorted_perm remaining_seconds _)) Hd). }
  f_equal; apply filter_ext_in; intros d Hd; rewrite (Hin d Hd); reflexivity.
Qed.

Lemma sort_is_overdue_then_upcoming_witness :
  exists up ov,
    enrich_event 700 world_2026_11_04 event_2025_01_15 (utc 2026 11 4 10 0 0) None None
      = Some (Ok up) /\
    enrich_event 0 world_2026_11_04 event_2025_01_31_once (utc 2026 11 4 10 0 0) None None
      = Some (Ok ov) /\
    sort_events_by_remaining_time [up; ov] =
    sort_events_by_remaining_time (snd (filter_overdue [up; ov])) ++
    sort_events_by_remaining_time (fst (filter_overdue [up; ov])).
Proof.
  eexists. eexists.
  split; [vm_compute; reflexivity|]. split; [vm_compute; reflexivity|].
  match goal with
  | |- sort_events_by_remaining_time ?l = _ => apply (sort_is_overdue_then_upcoming l)
  end.
  constructor; [|constructor; [|constructor]].
  - exists 700%nat, world_2026_11_04, event_2025_01_15, (utc 2026 11 4 10 0 0), None, None.
    vm_compute. reflexivity.
  - exists 0%nat, world_2026_11_04, event_2025_01_31_once, (utc 2026 11 4 10 0 0), None, None.
    vm_compute. reflexivity.
Defined.

End Listing.

(** ** The [event_date] validators *)

Section Validators.
Import Calendar Datetime Models Schemas EventService Samples.
Import DateOps EventSchemas.

(** The predecessor day: one day earlier on the clock, same time of day. *)
Lemma sub_one_day_spec d d' :
  valid d = true -> sub_one_day d = Ok d' ->
  valid d' = true /\ utc_us d' = utc_us d - US_PER_DAY.
Proof.
  intros Hv H. pose proof Hv as Hv'. apply valid_iff in Hv'.
  destruct Hv' as [[Hy [Hm Hd]] [Ht Ho]].
  unfold sub_one_day in H.
  destruct (Z.ltb_spec 1 (day d)).
  - inversion H; subst d'; clear H.
    unfold utc_us, toordinal, time_of_day_us, ymd2ord, US_PER_DAY, US_PER_SECOND; simpl.
    rewrite valid_iff; simpl. repeat split; try lia.
  - destruct (Z.ltb_spec 1 (month d)).
    + inversion H; subst d'; clear H.
      pose proof (days_before_month_succ (year d) (month d - 1) ltac:(lia)) as Hs.
      replace (month d - 1 + 1) with (month d) in Hs by lia.
      pose proof (monthrange_ndays_bounds (year d) (month d - 1) ltac:(lia)).
      unfold utc_us, toordinal, time_of_day_us, ymd2ord, US_PER_DAY, US_PER_SECOND; simpl.
      rewrite valid_iff; simpl. repeat split; try lia.
    + destruct (Z.ltb_spec MINYEAR (year d)); [|discriminate].
      inversion H; subst d'; clear H. unfold MINYEAR in *.
      assert (month d = 1) as Hm1 by lia. assert (day d = 1) as Hd1 by lia.
      pose proof (days_before_year_succ (year d - 1)) as Hs.
      replace (year d - 1 + 1) with (year d) in Hs by lia.
      pose proof (days_in_december (year d - 1)) as Hdec.
      change (monthrange_ndays (year d - 1) 12) with 31 in Hdec.
      unfold utc_us, toordinal, time_of_day_us, ymd2ord, US_PER_DAY, US_PER_SECOND; simpl.
      rewrite valid_iff; simpl. rewrite Hm1, Hd1.
      change (days_before_month (year d) 1) with 0.
      change (monthrange_ndays (year d - 1) 12) with 31.
      repeat split; try lia.
Qed.

Lemma sub_one_day_ok d :
  1 < year d -> exists d', sub_one_day d = Ok d'.
Proof.
  intros Hy. unfold sub_one_day, MINYEAR.
  destruct (1 <? day d); [eauto|]. destruct (1 <? month d); [eauto|].
  destruct (Z.ltb_spec 1 (year d)); [eauto | lia].
Qed.

(** X16.  [validate_event_date] accepts a date exactly when its instant, a
    naive value being read as UTC, is no more than one day before the clock
    reading, and returns it as an aware datetime; anything older is
    rejected with [ValueError].  An accepted value passes the validator
    again unchanged, and measured against the same clock reading it is at
    most 86400 seconds overdue. *)
Theorem validate_event_date_accepts_from_one_day_ago w v :
  valid (utc_now w) = true -> 1 < year (utc_now w) ->
  (utc_us (utc_now w) - US_PER_DAY <= utc_us (v_aware v) ->
   validate_event_date w v = Ok (v_aware v) /\
   validate_event_date w (Aware (v_aware v)) = Ok (v_aware v) /\
   - 86400 <= calculate_remaining_seconds (v_aware v) (utc_now w)) /\
  (utc_us (v_aware v) < utc_us (utc_now w) - US_PER_DAY ->
   validate_event_date w v = Raise ValueError) /\
  (forall y m d hh mm ss us,
      v = Naive y m d hh mm ss us -> v_aware v = mk_datetime y m d hh mm ss us 0).
Proof.
  intros Hv Hy.
  destruct (sub_one_day_ok (utc_now w) Hy) as [day_ago E].
  destruct (sub_one_day_spec _ _ Hv E) as [_ Hago].
  unfold validate_event_date. simpl v_aware. rewrite E. unfold gt. rewrite Hago.
  split; [|split].
  - intros Hle.
    replace (utc_us (v_aware v) <? utc_us (utc_now w) - US_PER_DAY) with false
      by (symmetry; apply Z.ltb_ge; exact Hle).
    split; [reflexivity|]. split; [reflexivity|].
    destruct (Z_le_gt_dec (utc_us (utc_now w)) (utc_us (v_aware v))) as [Hfut|Hpast].
    + pose proof (calculate_remaining_seconds_nonneg _ _ Hfut). lia.
    + rewrite calculate_remaining_seconds_swap.
      pose proof (calculate_remaining_seconds_upper (utc_now w) (v_aware v) 86400) as Hup.
      unfold US_PER_DAY, US_PER_SECOND in *.
      specialize (Hup ltac:(lia) ltac:(reflexivity)). lia.
  - intros Hlt.
    replace (utc_us (v_aware v) <? utc_us (utc_now w) - US_PER_DAY) with true
      by (symmetry; apply Z.ltb_lt; exact Hlt).
    reflexivity.
  - intros y m d hh mm ss us ->. reflexivity.
Qed.

Lemma validate_event_date_accepts_from_one_day_ago_witness :
  validate_event_date world_2025_01_10 (Naive 2025 1 9 0 0 0 0)
    = Ok (utc 2025 1 9 0 0 0) /\
  validate_event_date world_2025_01_10 (Naive 2025 1 8 23 59 59 999999)
    = Raise ValueError.
Proof.
  destruct (validate_event_date_accepts_from_one_day_ago
              world_2025_01_10 (Naive 2025 1 9 0 0 0 0)) as ((Hok & _) & _ & _).
  - reflexivity.
  - simpl. lia.
  - vm_compute. discriminate.
  - destruct (validate_event_date_accepts_from_one_day_ago
                world_2025_01_10 (Naive 2025 1 8 23 59 59 999999)) as (_ & Hbad & _).
    + reflexivity.
    + simpl. lia.
    + split; [exact Hok|]. apply Hbad. vm_compute. reflexivity.
Defined.

End Validators.

(** ** Settings *)

Section Strings.
Import Config.
Local Open Scope string_scope.

Lemma append_empty_r s : s ++ "" = s.
Proof. induction s as [|c s IH]; simpl; [reflexivity | rewrite IH; reflexivity]. Qed.

Lemma append_assoc s1 s2 s3 : (s1 ++ s2) ++ s3 = s1 ++ (s2 ++ s3).
Proof. induction s1 as [|c s1 IH]; simpl; [reflexivity | rewrite IH; reflexivity]. Qed.

Lemma count_char_append c s1 s2 :
  count_char c (s1 ++ s2) = (count_char c s1 + count_char c s2)%nat.
Proof. induction s1 as [|a s1 IH]; simpl; [reflexivity | rewrite IH; lia]. Qed.

Lemma split_not_nil sep s : split sep s <> [].
Proof.
  destruct s as [|c s]; simpl; [discriminate|].
  destruct (Ascii.eqb c sep); [discriminate|].
  destruct (split sep s); discriminate.
Qed.

Lemma split_length sep s :
  List.length (split sep s) = S (count_char sep s).
Proof.
  induction s as [|c s IH]; [reflexivity|].
  simpl. destruct (Ascii.eqb c sep); simpl.
  - rewrite IH. reflexivity.
  - pose proof (split_not_nil sep s) as Hnil.
    destruct (split sep s) as [|piece pieces]; [contradiction|].
    simpl in *. exact IH.
Qed.

Lemma split_pieces_without_sep sep s :
  Forall (fun piece => count_char sep piece = O) (split sep s).
Proof.
  induction s as [|c s IH]; simpl.
  - constructor; [reflexivity | constructor].
  - destruct (Ascii.eqb c sep) eqn:E.
    + constructor; [reflexivity | exact IH].
    + pose proof (split_not_nil sep s) as Hnil.
      destruct (split sep s) as [|piece pieces]; [contradiction|].
      inversion IH; subst. constructor; [|assumption].
      simpl. rewrite E. simpl. assumption.
Qed.

Lemma lstrip_head s :
  match lstrip s with
  | EmptyString => True
  | String c _ => isspace c = false
  end.
Proof.
  induction s as [|c s IH]; simpl; [exact I|].
  destruct (isspace c) eqn:E; [exact IH | exact E].
Qed.

Lemma lstrip_fixed c s : isspace c = false -> lstrip (String c s) = String c s.
Proof. intros H. simpl. rewrite H. reflexivity. Qed.

Lemma rstrip_idempotent s : rstrip (rstrip s) = rstrip s.
Proof.
  induction s as [|c s IH]; [reflexivity|].
  simpl. destruct (rstrip s) as [|a r] eqn:E.
  - destruct (isspace c) eqn:Ec; [reflexivity|].
    simpl. rewrite Ec. reflexivity.
  - simpl in IH. simpl. destruct (rstrip r) as [|a' r'] eqn:Er.
    + destruct (isspace a) eqn:Ea; [discriminate|]. rewrite IH. reflexivity.
    + rewrite IH. reflexivity.
Qed.

Lemma rstrip_keeps_head c s :
  isspace c = false -> exists r, rstrip (String c s) = String c r.
Proof.
  intros H. simpl. destruct (rstrip s); [rewrite H|]; eauto.
Qed.

Lemma count_char_lstrip c s : (count_char c (lstrip s) <= count_char c s)%nat.
Proof.
  induction s as [|a s IH]; simpl; [lia|].
  destruct (isspace a); simpl; lia.
Qed.

Lemma count_char_rstrip c s : (count_char c (rstrip s) <= count_char c s)%nat.
Proof.
  induction s as [|a s IH]; simpl; [lia|].
  destruct (rstrip s) as [|b r]; [destruct (isspace a)|]; simpl in *; lia.
Qed.

Lemma strip_is_stripped s :
  lstrip (strip s) = strip s /\ rstrip (strip s) = strip s.
Proof.
  unfold strip. split; [|apply rstrip_idempotent].
  pose proof (lstrip_head s) as Hhead.
  destruct (lstrip s) as [|c t]; [reflexivity|].
  destruct (rstrip_keeps_head c t Hhead) as [r Hr]. rewrite Hr.
  apply lstrip_fixed. exact Hhead.
Qed.

(** X17.  [cors_origins_list] has one origin per comma of [CORS_ORIGINS]
    plus one, so it is never empty (an empty setting gives the single
    origin ""); no origin contains a comma, and none has white space at
    either end: stripping an origin again, on the left, on the right or on
    both sides, changes nothing.  The default setting gives the two
    localhost origins. *)
Theorem cors_origins_list_is_stripped :
  (forall s,
      List.length (cors_origins_list s) = S (count_char ","%char (CORS_ORIGINS s)) /\
      Forall (fun origin =>
                count_char ","%char origin = O /\
                lstrip origin = origin /\ rstrip origin = origin /\
                strip origin = origin)
             (cors_origins_list s)) /\
  cors_origins_list (mk_Settings "") = [""] /\
  cors_origins_list (mk_Settings " a.example , b.example ,") = ["a.example"; "b.example"; ""] /\
  cors_origins_list default_settings = ["http://localhost:3000"; "http://localhost:5173"].
Proof.
  split; [|repeat split].
  intros s. unfold cors_origins_list. split.
  - rewrite length_map. apply split_length.
  - apply Forall_forall. intros origin Hin. apply in_map_iff in Hin.
    destruct Hin as (piece & <- & Hpiece).
    pose proof (split_pieces_without_sep ","%char (CORS_ORIGINS s)) as Hall.
    rewrite Forall_forall in Hall. specialize (Hall piece Hpiece).
    destruct (strip_is_stripped piece) as [Hl Hr].
    split; [|split; [exact Hl | split; [exact Hr|]]].
    + pose proof (count_char_rstrip ","%char (lstrip piece)).
      pose proof (count_char_lstrip ","%char piece).
      unfold strip. lia.
    + unfold strip at 1. rewrite Hl. exact Hr.
Qed.

End Strings.

(** ** Attachments of an enriched event *)

Section Forall2Facts.
Context {A B : Type}.

Lemma Forall2_length_aux (R : A -> B -> Prop) l l' :
  Forall2 R l l' -> List.length l = List.length l'.
Proof. induction 1; simpl; congruence. Qed.

Lemma Forall2_impl_aux (R R' : A -> B -> Prop) l l' :
  (forall a b, R a b -> R' a b) -> Forall2 R l l' -> Forall2 R' l l'.
Proof. intros Himp. induction 1; constructor; auto. Qed.

Lemma Forall2_in_l_aux (R : A -> B -> Prop) l l' :
  Forall2 R l l' -> forall a, In a l -> exists b, In b l' /\ R a b.
Proof.
  induction 1 as [|x y l l' Hxy _ IH]; intros a Hin; simpl in Hin; [contradiction|].
  destruct Hin as [<- | Hin].
  - exists y. split; [left; reflexivity | exact Hxy].
  - destruct (IH a Hin) as (b & Hb & Hab). exists b. split; [right; exact Hb | exact Hab].
Qed.

End Forall2Facts.

Section Attachments.
Import Calendar Datetime Models Schemas EventService Samples.
Local Open Scope string_scope.

(** The last segment has no slash and ends the text it is taken from. *)
Lemma last_segment_spec s : forall acc,
  count_char "/"%char acc = O ->
  count_char "/"%char (last_segment acc s) = O /\
  exists prefix, acc ++ s = prefix ++ last_segment acc s /\
                 (count_char "/"%char s = O -> prefix = "").
Proof.
  induction s as [|c s IH]; intros acc Hacc; simpl.
  - split; [exact Hacc|]. exists "". split; [apply append_empty_r | reflexivity].
  - destruct (Ascii.eqb c "/") eqn:E.
    + destruct (IH "" eq_refl) as (Hcount & prefix & Heq & _).
      split; [exact Hcount|].
      exists (acc ++ String c prefix). split; [|discriminate].
      rewrite append_assoc. simpl. simpl in Heq. rewrite <- Heq. reflexivity.
    + assert (count_char "/"%char (acc ++ String c "") = O) as Hacc'.
      { rewrite count_char_append. simpl. rewrite E. lia. }
      destruct (IH _ Hacc') as (Hcount & prefix & Heq & Hnone).
      split; [exact Hcount|].
      exists prefix. split; [|exact Hnone].
      rewrite <- Heq. rewrite append_assoc. reflexivity.
Qed.

Lemma attachment_response_spec st att response :
  attachment_response st att = Ok response ->
  Uuid.version (att_id att) = Some 4 /\
  Models.size att = Some (Schemas.size response) /\
  Schemas.id response = att_id att /\
  Schemas.mime response = Models.mime att /\
  url response = generate_signed_url st (storage_key att) /\
  thumb_url response = None /\
  Schemas.width response = Models.width att /\
  Schemas.height response = Models.height att /\
  Schemas.duration response = Models.duration att /\
  count_char "/"%char (name response) = O /\
  (exists prefix, storage_key att = prefix ++ name response) /\
  (count_char "/"%char (storage_key att) = O -> name response = storage_key att).
Proof.
  unfold attachment_response, new_AttachmentResponse, validate_UUID4, validate_int.
  intros H.
  destruct (Uuid.version (att_id att)) as [[|v|v]|] eqn:Ev; try discriminate.
  do 3 (destruct v as [v|v|]; try discriminate).
  destruct (Models.size att) as [n|] eqn:En; try discriminate.
  inversion H; subst response; clear H. simpl.
  destruct (last_segment_spec (storage_key att) "" eq_refl)
    as (Hcount & prefix & Heq & Hnone).
  repeat split; try assumption.
  - exists prefix. exact Heq.
  - intros Hk. specialize (Hnone Hk). subst prefix. simpl in Heq. auto.
Qed.

Lemma attachment_responses_spec st : forall atts responses,
  attachment_responses st atts = Ok responses ->
  Forall2 (fun att response => attachment_response st att = Ok response) atts responses.
Proof.
  induction atts as [|att atts IH]; intros responses H; simpl in H.
  - inversion H. constructor.
  - destruct (attachment_response st att) as [response|e] eqn:E; [|discriminate].
    destruct (attachment_responses st atts) as [rest|e]; [|discriminate].
    inversion H; subst responses. constructor; [exact E | apply IH; reflexivity].
Qed.

(** The attachment loop raises nothing but [ValidationError]. *)
Lemma attachment_response_raises st a e :
  attachment_response st a = Raise e -> e = ValidationError.
Proof.
  unfold attachment_response, new_AttachmentResponse, validate_UUID4, validate_int.
  destruct (Uuid.version (att_id a)) as [[|v|v]|]; try (inversion 1; reflexivity).
  do 3 (destruct v as [v|v|]; try (inversion 1; reflexivity)).
  destruct (Models.size a); inversion 1; reflexivity.
Qed.

Lemma attachment_responses_raises st : forall l e,
  attachment_responses st l = Raise e -> e = ValidationError.
Proof.
  induction l as [|a l IH]; intros e H; simpl in H; [discriminate|].
  destruct (attachment_response st a) as [r|e'] eqn:E.
  - destruct (attachment_responses st l) as [rs|e''] eqn:El; [discriminate|].
    inversion H; subst. apply IH. reflexivity.
  - inversion H; subst. apply (attachment_response_raises st a). exact E.
Qed.

(** A response that fails validation ends the loop with [ValidationError]. *)
Lemma attachment_responses_raise st atts att :
  In att atts ->
  Uuid.version (att_id att) <> Some 4 \/ Models.size att = None ->
  attachment_responses st atts = Raise ValidationError.
Proof.
  intros Hin Hbad.
  destruct (attachment_responses st atts) as [responses|e] eqn:E.
  - exfalso. apply attachment_responses_spec in E.
    destruct (Forall2_in_l_aux _ _ _ E att Hin) as (response & _ & Hresp).
    destruct (attachment_response_spec _ _ _ Hresp) as (Hv & Hs & _).
    destruct Hbad as [Hbad | Hbad]; [contradiction | rewrite Hbad in Hs; discriminate].
  - f_equal. apply (attachment_responses_raises st atts). exact E.
Qed.

(** X18.  The attachments of an enriched event: none when no storage
    service or no attachment list is passed, otherwise one response per
    attachment, in order.  A dict is returned only if every attachment has
    a version-4 id and a size; each response then carries the attachment's
    id, mime type, size, width, height and duration, the URL the storage
    service signs for its key, no thumbnail, and as name the part of the
    key after its last slash: a name never contains a slash, the key ends
    with it, and a key without slash is its own name.  With an attachment
    whose size is NULL or whose id is not a version-4 UUID the call does
    not return: it raises the calculator's exception or
    [ValidationError]. *)
Theorem enriched_attachments_follow_the_input
        fuel w event server_now attachments storage :
  (forall d,
     enrich_event fuel w event server_now attachments storage = Some (Ok d) ->
     (attachments = None \/ storage = None -> EventService.attachments d = []) /\
     (forall atts st, attachments = Some atts -> storage = Some st ->
        List.length (EventService.attachments d) = List.length atts /\
        Forall2 (fun att response =>
                   Uuid.version (att_id att) = Some 4 /\
                   Models.size att = Some (Schemas.size response) /\
                   Schemas.id response = att_id att /\
                   Schemas.mime response = Models.mime att /\
                   url response = generate_signed_url st (storage_key att) /\
                   thumb_url response = None /\
                   Schemas.width response = Models.width att /\
                   Schemas.height response = Models.height att /\
                   Schemas.duration response = Models.duration att /\
                   count_char "/"%char (name response) = O /\
                   (exists prefix, storage_key att = prefix ++ name response) /\
                   (count_char "/"%char (storage_key att) = O ->
                    name response = storage_key att))
                atts (EventService.attachments d))) /\
  (forall atts st att,
     attachments = Some atts -> storage = Some st -> In att atts ->
     Uuid.version (att_id att) <> Some 4 \/ Models.size att = None ->
     forall out, enrich_event fuel w event server_now attachments storage = Some out ->
                 exists e, out = Raise e /\
                           (Models.repeat_interval event = NONE -> e = ValidationError)).
Proof.
  split.
  - intros d H.
    destruct (enrich_event_Ok _ _ _ _ _ _ _ H) as (next & responses & _ & Hatt & ->).
    simpl. split.
    + intros [-> | ->].
      * inversion Hatt. reflexivity.
      * destruct attachments as [[|? ?]|]; inversion Hatt; reflexivity.
    + intros atts st -> ->.
      destruct atts as [|att0 atts0].
      * inversion Hatt. split; [reflexivity | constructor].
      * apply attachment_responses_spec in Hatt.
        split; [symmetry; apply (Forall2_length_aux _ _ _ Hatt)|].
        eapply Forall2_impl_aux; [|exact Hatt].
        intros a r Hr. apply (attachment_response_spec st a r Hr).
  - intros atts st att -> -> Hin Hbad out H.
    unfold enrich_event in H.
    rewrite (attachment_responses_raise st atts att Hin Hbad) in H.
    destruct atts as [|att0 atts0]; [contradiction|].
    destruct (RepeatInterval_eqb (Models.repeat_interval event) NONE) eqn:Enone;
      simpl negb in H; cbv iota in H.
    + inversion H. exists ValidationError. split; [reflexivity | reflexivity].
    + destruct (calculate_next_occurrence fuel w (Models.event_date event)
                                          (Models.repeat_interval event))
        as [[next|e]|]; inversion H.
      * exists ValidationError. split; [reflexivity|].
        intros Hn. rewrite Hn in Enone. discriminate.
      * exists e. split; [reflexivity|].
        intros Hn. rewrite Hn in Enone. discriminate.
Qed.

Lemma enriched_attachments_follow_the_input_witness :
  (exists d,
     enrich_event 0 world_2026_11_04 event_2025_01_31_once (utc 2026 11 4 10 0 0)
                  (Some [photo])
                  (Some (mk_StorageService (fun key => "/uploads/" ++ key)))
       = Some (Ok d) /\
     map name (EventService.attachments d) = ["photo.png"] /\
     map Schemas.size (EventService.attachments d) = [10%Z] /\
     List.length (EventService.attachments d) = 1%nat) /\
  enrich_event 0 world_2026_11_04 event_2025_01_31_once (utc 2026 11 4 10 0 0)
               (Some [photo; photo_without_size])
               (Some (mk_StorageService (fun key => "/uploads/" ++ key)))
    = Some (Raise ValidationError).
Proof.
  destruct (enriched_attachments_follow_the_input
              0 world_2026_11_04 event_2025_01_31_once (utc 2026 11 4 10 0 0)
              (Some [photo])
              (Some (mk_StorageService (fun key => "/uploads/" ++ key))))
    as [Hok _].
  destruct (enriched_attachments_follow_the_input
              0 world_2026_11_04 event_2025_01_31_once (utc 2026 11 4 10 0 0)
              (Some [photo; photo_without_size])
              (Some (mk_StorageService (fun key => "/uploads/" ++ key))))
    as [_ Hbad].
  split.
  - eexists. split; [vm_compute; reflexivity|].
    split; [reflexivity|]. split; [reflexivity|].
    match goal with
    | |- List.length (EventService.attachments ?d) = _ =>
        destruct (Hok d) as [_ Hsome]; [vm_compute; reflexivity|]
    end.
    destruct (Hsome _ _ eq_refl eq_refl) as [Hlen _]. exact Hlen.
  - destruct (Hbad _ _ photo_without_size eq_refl eq_refl) with
      (out := @Raise Enriched ValidationError) as (e & He & _).
    + right. left. reflexivity.
    + right. reflexivity.
    + vm_compute. reflexivity.
    + vm_compute. reflexivity.
Defined.

End Attachments.

(** ** Tiers of enriched events *)

Section TierFacts.
Import Calendar Datetime Models Schemas EventService Samples.
Import Api.

Lemma get_color_bucket_monotone r1 r2 :
  r1 <= r2 -> tier_rank (get_color_bucket r1) <= tier_rank (get_color_bucket r2).
Proof.
  intros H. unfold get_color_bucket.
  repeat match goal with
         | |- context [?a <? ?b] => destruct (Z.ltb_spec a b)
         end; simpl; lia.
Qed.

(** X19.  The colour buckets follow the remaining time: more remaining
    seconds never give a more urgent bucket.  So in the output of
    [sort_events_by_remaining_time], for dicts returned by [enrich_event],
    the overdue items come first and the colours follow in the order RED,
    ORANGE, YELLOW, GREEN, CYAN, BLUE, PURPLE. *)
Theorem sorted_events_are_grouped_by_tier enriched_events :
  Forall enriched_by_service enriched_events ->
  (forall r1 r2, r1 <= r2 ->
                 tier_rank (get_color_bucket r1) <= tier_rank (get_color_bucket r2)) /\
  StronglySorted (fun a b => tier_rank (color_bucket a) <= tier_rank (color_bucket b))
                 (sort_events_by_remaining_time enriched_events).
Proof.
  intros Hall. split; [apply get_color_bucket_monotone|].
  assert (Hin : Forall enriched_by_service (sort_events_by_remaining_time enriched_events)).
  { eapply Permutation_Forall; [apply sorted_perm | exact Hall]. }
  pose proof (sorted_ascending remaining_seconds enriched_events) as Hs.
  unfold sort_events_by_remaining_time in *.
  induction Hs as [|x l Hs IH Hx]; [constructor|].
  inversion Hin as [|? ? Hx_in Hl_in]; subst.
  constructor; [apply IH; exact Hl_in|].
  rewrite Forall_forall in *. intros y Hy.
  destruct (service_dict_coherent x Hx_in) as [_ ->].
  destruct (service_dict_coherent y (Hl_in y Hy)) as [_ ->].
  apply get_color_bucket_monotone. apply Hx. exact Hy.
Qed.

Lemma sorted_events_are_grouped_by_tier_witness :
  exists up ov,
    enrich_event 700 world_2026_11_04 event_2025_01_15 (utc 2026 11 4 10 0 0) None None
      = Some (Ok up) /\
    enrich_event 0 world_2026_11_04 event_2025_01_31_once (utc 2026 11 4 10 0 0) None None
      = Some (Ok ov) /\
    StronglySorted (fun a b => tier_rank (color_bucket a) <= tier_rank (color_bucket b))
                   (sort_events_by_remaining_time [up; ov]).
Proof.
  eexists. eexists.
  split; [vm_compute; reflexivity|]. split; [vm_compute; reflexivity|].
  match goal with
  | |- StronglySorted _ (sort_events_by_remaining_time ?l) =>
      apply (sorted_events_are_grouped_by_tier l)
  end.
  constructor; [|constructor; [|constructor]].
  - exists 700%nat, world_2026_11_04, event_2025_01_15, (utc 2026 11 4 10 0 0), None, None.
    vm_compute. reflexivity.
  - exists 0%nat, world_2026_11_04, event_2025_01_31_once, (utc 2026 11 4 10 0 0), None, None.
    vm_compute. reflexivity.
Defined.

(** X20.  A non-recurring event is enriched without the clock or the leap
    policy and without running a loop: the outcome of [enrich_event] is the
    same for every fuel and world.  It is a dict, or [ValidationError] from
    the attachment loop; a dict has no next occurrence and the event date as
    due date, and is overdue exactly when the event date is a whole second
    or more before [server_now].  Without attachments, or without a storage
    service, a dict is returned. *)
Theorem non_recurring_event_needs_no_clock fuel w event server_now attachments storage :
  Models.repeat_interval event = NONE ->
  (exists out,
     (forall fuel' w',
         enrich_event fuel' w' event server_now attachments storage = Some out) /\
     (out = Raise ValidationError \/
      exists d, out = Ok d /\
        next_occurrence d = None /\
        effective_due_at d = Models.event_date event /\
        (is_overdue d = true <->
         utc_us (Models.event_date event) + US_PER_SECOND <= utc_us server_now))) /\
  (attachments = None \/ attachments = Some [] \/ storage = None ->
   exists d, enrich_event fuel w event server_now attachments storage = Some (Ok d)).
Proof.
  intros Hr. unfold enrich_event. rewrite Hr. simpl negb. cbv iota. split.
  - destruct (match attachments, storage with
              | Some ((_ :: _) as atts), Some st => attachment_responses st atts
              | _, _ => Ok []
              end) as [responses|e] eqn:E.
    + eexists. split; [intros; reflexivity|]. right.
      eexists. split; [reflexivity|]. simpl.
      split; [reflexivity|]. split; [reflexivity|].
      rewrite Z.ltb_lt. apply calculate_remaining_seconds_neg_iff.
    + eexists. split; [intros; reflexivity|]. left. f_equal.
      destruct attachments as [[|a l]|]; try discriminate.
      destruct storage as [st|]; try discriminate.
      apply (attachment_responses_raises st (a :: l)). exact E.
  - intros [-> | [-> | ->]]; [eexists; reflexivity | eexists; reflexivity |].
    destruct attachments as [[|a l]|]; eexists; reflexivity.
Qed.

Lemma non_recurring_event_needs_no_clock_witness :
  exists d,
    enrich_event 0 world_2026_11_04 event_2025_01_31_once (utc 2026 11 4 10 0 0) None None
      = Some (Ok d).
Proof.
  destruct (non_recurring_event_needs_no_clock
              0 world_2026_11_04 event_2025_01_31_once (utc 2026 11 4 10 0 0) None None)
    as (_ & Hd).
  - reflexivity.
  - apply Hd. left. reflexivity.
Defined.

(** X21.  A recurring event whose anchor has passed is due within one
    period: measured from a [server_now] read no later than the clock
    reading of the call, [remaining_seconds] is at most the period of the
    rule plus the time between the two readings, rounded up to a whole
    second.  When both readings are the same instant the bucket is never
    PURPLE, and under DAY it is RED or ORANGE. *)
Theorem started_recurring_event_is_due_within_one_period
        fuel w event server_now attachments storage d :
  valid (Models.event_date event) = true ->
  valid (utc_now w) = true -> valid server_now = true ->
  le (Models.event_date event) (utc_now w) = true ->
  utc_us server_now <= utc_us (utc_now w) ->
  enrich_event fuel w event server_now attachments storage = Some (Ok d) ->
  Models.repeat_interval event <> NONE ->
  remaining_seconds d <=
    period_days (Models.repeat_interval event) * 86400 +
    (utc_us (utc_now w) - utc_us server_now + 999999) / 1000000 /\
  (utc_us server_now = utc_us (utc_now w) ->
   remaining_seconds d <= period_days (Models.repeat_interval event) * 86400 /\
   color_bucket d <> Some PURPLE /\
   (Models.repeat_interval event = DAY ->
    color_bucket d = Some RED \/ color_bucket d = Some ORANGE)).
Proof.
  intros Hva Hvn Hvs Hle Hnow H Hr.
  destruct (recurring_dict_is_due_after_clock _ _ _ _ _ _ _ Hr Hnow H)
    as (Hpos & _ & _ & r & Hnext & Hdue & Hgt).
  destruct (enrich_event_fields _ _ _ _ _ _ _ H) as [Hbucket _].
  assert (Hcalc : calculate_next_occurrence fuel w (Models.event_date event)
                                            (Models.repeat_interval event)
                  = Some (Ok (Some r)) /\
                  remaining_seconds d = calculate_remaining_seconds r server_now).
  { destruct (enrich_event_Ok _ _ _ _ _ _ _ H) as (next & responses & E & _ & ->).
    simpl in *. subst next.
    destruct (Models.repeat_interval event); try contradiction; simpl in E;
      split; auto. }
  destruct Hcalc as [Hcalc Hrem].
  destruct (next_occurrence_within_one_period_aux _ _ _ _ _ Hva Hle Hcalc) as [Hlo Hup].
  assert (0 <= period_days (Models.repeat_interval event) <= 366) as Hperiod
      by (destruct (Models.repeat_interval event); simpl; lia).
  set (gap := utc_us (utc_now w) - utc_us server_now) in *.
  assert (0 <= gap < 3652062 * US_PER_DAY) as Hgap.
  { pose proof (utc_us_bounds _ Hvn) as [_ Hn2].
    pose proof (utc_us_bounds _ Hvs) as [Hs1 _].
    pose proof (toordinal_bounds _ Hvn) as [_ Hn3].
    pose proof (toordinal_bounds _ Hvs) as [Hs3 _].
    apply valid_iff in Hvn. apply valid_iff in Hvs.
    pose proof (days_before_year_mono 1 (year server_now) ltac:(lia)).
    pose proof (days_before_year_mono (year (utc_now w) + 1) 10000 ltac:(lia)).
    change (days_before_year 1) with 0 in *.
    change (days_before_year 10000) with 3652059 in *.
    unfold gap, US_PER_DAY, US_PER_SECOND in *. lia. }
  assert (Hbound : remaining_seconds d <=
                   period_days (Models.repeat_interval event) * 86400 +
                   (gap + 999999) / 1000000).
  { rewrite Hrem. apply calculate_remaining_seconds_upper.
    - unfold gap, US_PER_DAY, US_PER_SECOND in *.
      Z.div_mod_to_equations. lia.
    - change (2 ^ 53) with 9007199254740992.
      unfold US_PER_DAY, US_PER_SECOND in *. Z.div_mod_to_equations. lia. }
  split; [exact Hbound|].
  intros Heq.
  assert (Hsec : remaining_seconds d <= period_days (Models.repeat_interval event) * 86400).
  { replace gap with 0 in Hbound by (unfold gap; lia).
    change ((0 + 999999) / 1000000) with 0 in Hbound. lia. }
  split; [exact Hsec|].
  rewrite Hbucket. unfold get_color_bucket.
  split.
  - repeat match goal with
           | |- context [?a <? ?b] => destruct (Z.ltb_spec a b)
           end; try discriminate. lia.
  - intros Hday. rewrite Hday in Hsec. simpl in Hsec.
    repeat match goal with
           | |- context [?a <? ?b] => destruct (Z.ltb_spec a b)
           end; auto; lia.
Qed.

Lemma started_recurring_event_is_due_within_one_period_witness :
  exists d,
    enrich_event 700 world_2026_11_04 event_2025_01_15 (utc 2026 11 4 10 0 0) None None
      = Some (Ok d) /\
    remaining_seconds d <= 31 * 86400.
Proof.
  eexists. split; [vm_compute; reflexivity|].
  match goal with
  | |- remaining_seconds ?d <= _ =>
      destruct (started_recurring_event_is_due_within_one_period
                  700 world_2026_11_04 event_2025_01_15 (utc 2026 11 4 10 0 0)
                  None None d) as [_ Hsame]
  end.
  - reflexivity.
  - reflexivity.
  - reflexivity.
  - reflexivity.
  - vm_compute. discriminate.
  - vm_compute. reflexivity.
  - discriminate.
  - apply Hsame. reflexivity.
Defined.

End TierFacts.
